(** * Spectral biclustering and the consensus score

    A shallow embedding of [sklearn/bicluster/spectral.py] and of
    [sklearn/metrics/cluster/bicluster/bicluster_metrics.py].

    Conventions of the embedding.
    - A Python call that may raise is a value of [result]; the exceptions the
      two files raise themselves are [Exception msg] with the message of the
      source, the ones raised by numpy on their behalf are named after their
      Python class.
    - The collaborators ([linear_assignment], [svds], [k_means], the
      elementwise [sqrt] and [log]) are parameters; what the theorems need
      of them is stated as a contract.  The calls of [k_means] thread the
      state of the random generator through the estimator.
    - Boolean indicator vectors are [list bool]; a 2-D array is the list of
      its rows.  Counts ([ndarray.sum] of a boolean array) are integers in
      [Z]; an indicator vector shorter than [2^31] keeps every product of two
      counts inside the 64-bit range numpy uses, so no wrap-around is written.
    - The result of numpy's true division is an [npfloat]: an exact rational,
      an infinity or NaN.  Rounding is not modelled.  The arrays of the
      estimator hold numbers of a carrier given by its arithmetic. *)

From Stdlib Require Import String.
From Stdlib Require Import List Sorted Permutation ZArith QArith Lia Lra Bool Arith PeanoNat.
From Stdlib Require Import Reals.
From Stdlib Require Lqa.
Import ListNotations.

Set Implicit Arguments.

(** ** Exceptions and results *)

Inductive exn : Type :=
| Exception (msg : string)
| ValueError
| IndexError
| OverflowError
| TypeError
| UnboundLocalError
| LibraryError (name : string).

Inductive result (A : Type) : Type :=
| Ok (a : A)
| Raise (e : exn).

Arguments Ok {A} a.
Arguments Raise {A} e.

Definition rbind {A B} (r : result A) (f : A -> result B) : result B :=
  match r with
  | Ok a => f a
  | Raise e => Raise e
  end.

Declare Scope result_scope.
Delimit Scope result_scope with result.
Notation "x <- r ;; k" := (rbind r (fun x => k))
  (at level 61, r at next level, right associativity) : result_scope.
Notation "' pat <- r ;; k" := (rbind r (fun x => match x with pat => k end))
  (at level 61, pat pattern, r at next level, right associativity) : result_scope.

(** [mapM f l]: a Python comprehension [f x for x in l] whose body may
    raise; the first exception ends the loop. *)
Fixpoint mapM {A B} (f : A -> result B) (l : list A) : result (list B) :=
  match l with
  | [] => Ok []
  | x :: l' =>
      match f x with
      | Raise e => Raise e
      | Ok y =>
          match mapM f l' with
          | Raise e => Raise e
          | Ok ys => Ok (y :: ys)
          end
      end
  end.

Fixpoint zip_with {A B C} (f : A -> B -> C) (l : list A) (l' : list B) : list C :=
  match l, l' with
  | x :: t, y :: t' => f x y :: zip_with f t t'
  | _, _ => []
  end.

(** [row[j]] for a non-negative index. *)
Definition getitem {A} (row : list A) (j : nat) : result A :=
  match nth_error row j with
  | Some x => Ok x
  | None => Raise IndexError
  end.

(** ** Consensus score ([bicluster_metrics.py]) *)

Module Metrics.

Local Open Scope Z_scope.

(** A float produced by dividing integers. *)
Inductive npfloat : Type :=
| Fin (q : Q)
| PInf
| NInf
| NaN.

(** [x / y] on integers under [from __future__ import division], with
    numpy's values for a zero divisor. *)
Definition true_divide (x y : Z) : npfloat :=
  if y =? 0 then
    if x =? 0 then NaN else if 0 <? x then PInf else NInf
  else Fin (inject_Z x / inject_Z y).

Definition fneg (x : npfloat) : npfloat :=
  match x with
  | Fin q => Fin (- q)
  | PInf => NInf
  | NInf => PInf
  | NaN => NaN
  end.

Definition fadd (x y : npfloat) : npfloat :=
  match x, y with
  | NaN, _ | _, NaN => NaN
  | Fin p, Fin q => Fin (p + q)
  | PInf, NInf | NInf, PInf => NaN
  | PInf, _ | _, PInf => PInf
  | NInf, _ | _, NInf => NInf
  end.

Definition fsub (x y : npfloat) : npfloat := fadd x (fneg y).

(** A float divided by a non-negative Python [int]. *)
Definition fdiv_nat (x : npfloat) (n : nat) : npfloat :=
  match n with
  | O =>
      match x with
      | Fin q => if Qeq_bool q 0 then NaN
                 else if Qle_bool 0 q then PInf else NInf
      | other => other
      end
  | S _ =>
      match x with
      | Fin q => Fin (q / inject_Z (Z.of_nat n))
      | other => other
      end
  end.

(** [<=] on floats: false as soon as one side is NaN. *)
Definition fle (x y : npfloat) : bool :=
  match x, y with
  | NaN, _ | _, NaN => false
  | NInf, _ | _, PInf => true
  | Fin p, Fin q => Qle_bool p q
  | _, _ => false
  end.

(** [a * b] on two 1-d boolean arrays, with numpy's broadcasting of a
    length-one operand; other length mismatches raise. *)
Definition np_mul (a b : list bool) : result (list bool) :=
  if (length a =? length b)%nat then Ok (zip_with andb a b)
  else if (length a =? 1)%nat then Ok (map (andb (hd false a)) b)
  else if (length b =? 1)%nat then Ok (map (fun x => andb x (hd false b)) a)
  else Raise ValueError.

Fixpoint count_true (v : list bool) : nat :=
  match v with
  | [] => O
  | true :: t => S (count_true t)
  | false :: t => count_true t
  end.

(** [v.sum()] of a boolean array. *)
Definition np_sum (v : list bool) : Z := Z.of_nat (count_true v).

Local Open Scope result_scope.

Definition _jaccard (a_rows a_cols b_rows b_cols : list bool) : result npfloat :=
  rs <- np_mul a_rows b_rows ;;
  cs <- np_mul a_cols b_cols ;;
  let intersection := np_sum rs * np_sum cs in
  let a_size := np_sum a_rows * np_sum a_cols in
  let b_size := np_sum b_rows * np_sum b_cols in
  Ok (true_divide intersection (a_size + b_size - intersection)).

(** The quantities [_jaccard] works with: the number of matrix cells a
    bicluster covers, and the number of rows (or columns) two indicator
    vectors of one length have in common. *)
Definition cells (rows cols : list bool) : Z := np_sum rows * np_sum cols.

Definition common (a b : list bool) : Z := np_sum (zip_with andb a b).

Definition all_false (v : list bool) : bool := forallb negb v.

(** A bicluster without cells: no row, or no column. *)
Definition is_empty (rows cols : list bool) : bool :=
  all_false rows || all_false cols.

(** No index is marked in both vectors. *)
Definition share_none (a b : list bool) : bool := all_false (zip_with andb a b).

(** A set of biclusters: the arrays [rows_] and [columns_], one row of each
    per bicluster.  [array2d] leaves such 2-D arrays as they are. *)
Definition biclusters : Type := (list (list bool) * list (list bool))%type.

(** Modelled from the spec: [check_arrays] of [sklearn.utils.validation],
    which this repository imports but the sources at hand do not hold.  It
    is the shape validation of the two arrays of one bicluster set: both
    must have the same first dimension. *)
Definition check_arrays (rows cols : list (list bool)) : result biclusters :=
  if (length rows =? length cols)%nat then Ok (rows, cols)
  else Raise ValueError.

Definition _check_rows_and_columns (a b : biclusters)
  : result (biclusters * biclusters) :=
  a' <- check_arrays (fst a) (snd a) ;;
  b' <- check_arrays (fst b) (snd b) ;;
  Ok (a', b').

Definition similarity_fn : Type :=
  list bool -> list bool -> list bool -> list bool -> result npfloat.

(** The result is the list of the rows of [result]; with [n_a = 0] numpy
    builds the 1-d array [array([])] from the empty list, which is what
    [consensus_score] then fails to index with two subscripts. *)
Definition _pairwise_similarity (a b : biclusters) (similarity : similarity_fn)
  : result (list (list npfloat)) :=
  ab <- _check_rows_and_columns a b ;;
  let '((a_rows, a_cols), (b_rows, b_cols)) := ab in
  let n_a := length a_rows in
  let n_b := length b_rows in
  mapM (fun i =>
          mapM (fun j => similarity (nth i a_rows []) (nth i a_cols [])
                                    (nth j b_rows []) (nth j b_cols []))
               (seq 0 n_b))
       (seq 0 n_a).

(** [matrix[:, cols]]. *)
Definition take_columns {A} (matrix : list (list A)) (cols : list nat)
  : result (list (list A)) :=
  mapM (fun row => mapM (getitem row) cols) matrix.

(** The main diagonal of a 2-D array, from column [t] on. *)
Fixpoint diagonal {A} (m : list (list A)) (t : nat) : list A :=
  match m with
  | [] => []
  | row :: m' =>
      match nth_error row t with
      | Some x => x :: diagonal m' (S t)
      | None => []
      end
  end.

Definition fsum (l : list npfloat) : npfloat := fold_left fadd l (Fin 0).

Definition np_trace (m : list (list npfloat)) : npfloat := fsum (diagonal m 0).

(** The assignment solver [linear_assignment] is a collaborator: it takes
    the cost matrix and returns the matched (row, column) pairs, or raises. *)
Definition solver : Type := list (list npfloat) -> result (list (nat * nat)).

Definition consensus_score_with (linear_assignment : solver) (a b : biclusters)
  (similarity : similarity_fn) : result npfloat :=
  matrix <- _pairwise_similarity a b similarity ;;
  indices <- linear_assignment (map (map (fsub (Fin 1))) matrix) ;;
  let n_a := length (fst a) in
  let n_b := length (fst b) in
  match matrix with
  | [] => Raise IndexError
  | _ =>
      sel <- take_columns matrix (map snd indices) ;;
      Ok (fdiv_nat (np_trace sel) (Nat.max n_a n_b))
  end.

(** [consensus_score(a, b)] with the default [similarity="jaccard"]. *)
Definition consensus_score (linear_assignment : solver) (a b : biclusters)
  : result npfloat :=
  consensus_score_with linear_assignment a b _jaccard.

(** *** What the solver promises

    One pair per matched row, rows in increasing order, no column used
    twice, [min(rows, cols)] pairs, and no other such matching is cheaper. *)

Definition n_columns {A} (m : list (list A)) : nat := length (hd [] m).

Definition entry (m : list (list npfloat)) (ij : nat * nat) : npfloat :=
  nth (snd ij) (nth (fst ij) m []) NaN.

Record is_assignment (cost : list (list npfloat)) (idx : list (nat * nat)) : Prop :=
  { asg_rows : Forall (fun ij => (fst ij < length cost)%nat) idx;
    asg_cols : Forall (fun ij => (snd ij < n_columns cost)%nat) idx;
    asg_sorted : StronglySorted lt (map fst idx);
    asg_inj : NoDup (map snd idx);
    asg_size : length idx = Nat.min (length cost) (n_columns cost) }.

Definition total (m : list (list npfloat)) (idx : list (nat * nat)) : npfloat :=
  fsum (map (entry m) idx).

Definition is_optimal (cost : list (list npfloat)) (idx : list (nat * nat)) : Prop :=
  forall idx', is_assignment cost idx' ->
               fle (total cost idx) (total cost idx') = true.

Definition solves (linear_assignment : solver) (cost : list (list npfloat))
  (idx : list (nat * nat)) : Prop :=
  linear_assignment cost = Ok idx /\ is_assignment cost idx /\ is_optimal cost idx.

(** *** Vocabulary of the statements *)

(** The cost matrix [1. - matrix] handed to the solver. *)
Definition cost_of (matrix : list (list npfloat)) : list (list npfloat) :=
  map (map (fsub (Fin 1))) matrix.

(** Bicluster [i] of a set. *)
Definition bicluster (s : biclusters) (i : nat) : list bool * list bool :=
  (nth i (fst s) [], nth i (snd s) []).

(** A set of biclusters of one [n_rows] x [n_cols] matrix. *)
Definition over_matrix (n_rows n_cols : nat) (s : biclusters) : Prop :=
  length (fst s) = length (snd s)
  /\ Forall (fun r => length r = n_rows) (fst s)
  /\ Forall (fun c => length c = n_cols) (snd s).

(** No bicluster of [a] is empty together with one of [b]. *)
Definition no_empty_pair (a b : biclusters) : Prop :=
  forall i j, (i < length (fst a))%nat -> (j < length (fst b))%nat ->
    is_empty (fst (bicluster a i)) (snd (bicluster a i))
    && is_empty (fst (bicluster b j)) (snd (bicluster b j)) = false.

Definition all_nonempty (a : biclusters) : Prop :=
  forall i, (i < length (fst a))%nat ->
    is_empty (fst (bicluster a i)) (snd (bicluster a i)) = false.

Definition pairwise_distinct (a : biclusters) : Prop :=
  forall i j, (i < length (fst a))%nat -> (j < length (fst a))%nat ->
    bicluster a i = bicluster a j -> i = j.

(** The biclusters of [s] listed in the order [sigma]:
    [(rows[sigma], columns[sigma])]. *)
Definition reorder (sigma : list nat) (s : biclusters) : biclusters :=
  (map (fun k => nth k (fst s) []) sigma, map (fun k => nth k (snd s) []) sigma).

(** The quotient [_jaccard] returns when its divisor is not zero, and the
    matrix of these quotients for two sets of biclusters. *)
Definition jaccard_q (a_rows a_cols b_rows b_cols : list bool) : Q :=
  inject_Z (common a_rows b_rows * common a_cols b_cols)
  / inject_Z (cells a_rows a_cols + cells b_rows b_cols
              - common a_rows b_rows * common a_cols b_cols).

Definition sim (a b : biclusters) (i j : nat) : Q :=
  jaccard_q (fst (bicluster a i)) (snd (bicluster a i))
            (fst (bicluster b j)) (snd (bicluster b j)).

Definition sim_matrix (a b : biclusters) : list (list npfloat) :=
  map (fun i => map (fun j => Fin (sim a b i j)) (seq 0 (length (fst b))))
      (seq 0 (length (fst a))).

Definition in_unit (x : npfloat) : Prop :=
  match x with
  | Fin q => (0 <= q <= 1)%Q
  | _ => False
  end.

Definition is_one (x : npfloat) : Prop :=
  match x with
  | Fin q => (q == 1)%Q
  | _ => False
  end.

(** Two sets of biclusters of a 2 x 1 matrix: the two rows taken apart,
    bottom row first, and the top row alone. *)
Definition both_rows : biclusters := ([[false; true]; [true; false]], [[true]; [true]]).
Definition top_row : biclusters := ([[true; false]], [[true]]).

(** The top row alone and the two rows together. *)
Definition nested_rows : biclusters := ([[true; false]; [true; true]], [[true]; [true]]).

(** One bicluster without rows and columns. *)
Definition no_cells : biclusters := ([[false]], [[false]]).

(** *** A reference solver

    Modelled from the spec: [linear_assignment] of
    [sklearn.utils.linear_assignment_], a collaborator whose code is not
    among the sources.  The spec asks for a one-to-one matching of
    [min(rows, cols)] pairs of minimal total cost; this one tries them
    all. *)

Fixpoint remove_nat (j : nat) (l : list nat) : list nat :=
  match l with
  | [] => []
  | x :: t => if (x =? j)%nat then remove_nat j t else x :: remove_nat j t
  end.

Fixpoint matchings (rows : list nat) (free : list nat) : list (list (nat * nat)) :=
  match rows with
  | [] => [[]]
  | i :: rs =>
      flat_map (fun j => map (cons (i, j)) (matchings rs (remove_nat j free))) free
      ++ matchings rs free
  end.

Definition all_assignments (cost : list (list npfloat)) : list (list (nat * nat)) :=
  let n := length cost in
  let m := n_columns cost in
  filter (fun idx => (length idx =? Nat.min n m)%nat)
         (matchings (seq 0 n) (seq 0 m)).

Fixpoint cheapest (cost : list (list npfloat)) (best : list (nat * nat))
  (l : list (list (nat * nat))) : list (nat * nat) :=
  match l with
  | [] => best
  | idx :: t =>
      if fle (total cost best) (total cost idx) then cheapest cost best t
      else cheapest cost idx t
  end.

Definition linear_assignment_ref : solver :=
  fun cost =>
    match all_assignments cost with
    | [] => Raise (LibraryError "linear_assignment"%string)
    | idx :: t => Ok (cheapest cost idx t)
    end.

End Metrics.

(** ** Spectral biclustering ([spectral.py]) *)

Module Spectral.

(** *** Numbers and collaborators

    The arrays hold floats.  Their arithmetic is an interface, [Numeric],
    so that the estimator runs on any carrier: the reals give the exact
    arithmetic of the double-centering identity, the rationals a carrier
    that computes. *)

Class Numeric (F : Type) : Type :=
  { zero : F;
    one : F;
    add : F -> F -> F;
    sub : F -> F -> F;
    mul : F -> F -> F;
    div : F -> F -> F;
    ltb : F -> F -> bool;
    of_Z : Z -> F }.

(** What a collaborator hands back: a value, or the name of its failure. *)
Inductive outcome (A : Type) : Type :=
| Done (a : A)
| Failed (why : string).

Arguments Done {A} a.
Arguments Failed {A} why.

(** The library routines the module calls.  [W] is whatever [k_means]
    reads and advances between two calls (the random generator behind
    [random_state=None]); [svds] and the elementwise functions are pure.
    [random_state] is [None] or an integer seed. *)
Class Library (F W : Type) : Type :=
  { np_sqrt : F -> F;
    np_log : F -> F;
    svds : list (list F) -> Z -> option Z ->
           outcome (list (list F) * list F * list (list F));
    k_means : list (list F) -> Z -> option Z -> Z -> W ->
              outcome (list (list F) * list nat * F) * W }.

(** Computations that call [k_means]: the generator state goes in and
    comes out, also next to an exception. *)
Definition M (W A : Type) : Type := W -> result A * W.

Definition ret {W A} (a : A) : M W A := fun w => (Ok a, w).

Definition throw {W A} (e : exn) : M W A := fun w => (Raise e, w).

Definition bind {W A B} (m : M W A) (f : A -> M W B) : M W B :=
  fun w =>
    match m w with
    | (Ok a, w') => f a w'
    | (Raise e, w') => (Raise e, w')
    end.

Definition lift {W A} (r : result A) : M W A := fun w => (r, w).

Definition of_outcome {A} (o : outcome A) : result A :=
  match o with
  | Done a => Ok a
  | Failed why => Raise (LibraryError why)
  end.

Declare Scope M_scope.
Delimit Scope M_scope with M.
Notation "x <~ m ;; k" := (bind m (fun x => k))
  (at level 61, m at next level, right associativity) : M_scope.
Notation "' pat <~ m ;; k" := (bind m (fun x => match x with pat => k end))
  (at level 61, pat pattern, m at next level, right associativity) : M_scope.

Fixpoint mapMW {W A B} (f : A -> M W B) (l : list A) : M W (list B) :=
  match l with
  | [] => ret []
  | x :: l' =>
      bind (f x) (fun y => bind (mapMW f l') (fun ys => ret (y :: ys)))
  end.

(** *** Arrays

    A matrix is the list of its rows.  The elementwise operations pair the
    entries of their arguments by position ([zip_with]); on arrays whose
    shapes differ numpy broadcasts or raises, which the shapes met in this
    module exclude once [svds] and [k_means] return what they promise. *)

Section Arrays.

Context {F : Type} {num : Numeric F}.

Definition vector : Type := list F.
Definition matrix : Type := list vector.

(** An input array; only its number of dimensions matters when it is not
    a matrix. *)
Inductive ndarray : Type :=
| Array0 (x : F)
| Array1 (v : vector)
| Array2 (m : matrix)
| ArrayN (extra_dims : nat).

Definition ndim (X : ndarray) : nat :=
  match X with
  | Array0 _ => 0
  | Array1 _ => 1
  | Array2 _ => 2
  | ArrayN extra => 3 + extra
  end.

Definition shape0 (X : matrix) : nat := length X.
Definition shape1 (X : matrix) : nat := length (hd [] X).

Definition vsum (v : vector) : F := fold_left add v zero.

Definition column (j : nat) (X : matrix) : vector :=
  map (fun row => nth j row zero) X.

(** [X.T] *)
Definition transpose (X : matrix) : matrix :=
  map (fun j => column j X) (seq 0 (shape1 X)).

(** [np.sum(X, axis=1)] and [np.sum(X, axis=0)] *)
Definition sum_axis1 (X : matrix) : vector := map vsum X.
Definition sum_axis0 (X : matrix) : vector := map vsum (transpose X).

Definition mean (v : vector) : F := div (vsum v) (of_Z (Z.of_nat (length v))).

(** [np.mean(X, axis=1)], [np.mean(X, axis=0)] and [np.mean(X)] *)
Definition mean_axis1 (X : matrix) : vector := map mean X.
Definition mean_axis0 (X : matrix) : vector := map mean (transpose X).
Definition mean_all (X : matrix) : F := mean (concat X).

Definition fmin (a b : F) : F := if ltb b a then b else a.

(** [X.min()]: numpy refuses an array without entries. *)
Definition np_min (X : matrix) : result F :=
  match concat X with
  | [] => Raise ValueError
  | x :: t => Ok (fold_left fmin t x)
  end.

Definition dot (u v : vector) : F := vsum (zip_with mul u v).

(** [np.dot(A, B)] *)
Definition np_dot (A B : matrix) : matrix :=
  map (fun row => map (fun col => dot row col) (transpose B)) A.

End Arrays.

Arguments ndarray F : clear implicits.
Arguments vector F : clear implicits.
Arguments matrix F : clear implicits.

(** *** Preprocessing *)

Section Preprocessing.

Context {F W : Type} {num : Numeric F} {lib : Library F W}.

Local Open Scope result_scope.

Definition make_nonnegative (X : matrix F) (min_value : F) : result (matrix F) :=
  min_ <- np_min X ;;
  if ltb min_ min_value
  then Ok (map (map (fun x => add x (sub min_value min_))) X)
  else Ok X.

Definition inv_sqrt (s : F) : F := div one (np_sqrt s).

Definition scale_preprocess (X : matrix F)
  : result (matrix F * vector F * vector F) :=
  X <- make_nonnegative X zero ;;
  let row_diag := map inv_sqrt (sum_axis1 X) in
  let col_diag := map inv_sqrt (sum_axis0 X) in
  let an := zip_with (fun r row => zip_with (fun x c => mul (mul r x) c) row col_diag)
                     row_diag X in
  Ok (an, row_diag, col_diag).

(** [np.linalg.norm] of a vector, and of a matrix (Frobenius). *)
Definition norm (v : vector F) : F := np_sqrt (vsum (map (fun x => mul x x) v)).
Definition norm_fro (X : matrix F) : F := norm (concat X).

Definition msub (A B : matrix F) : matrix F := zip_with (zip_with sub) A B.

(** The [for i in range(maxiter)] loop of [bistochastic_preprocess], with
    [i] counted down. *)
Fixpoint bistochastic_loop (maxiter : nat) (tol : F) (X_scaled : matrix F)
  : result (matrix F) :=
  match maxiter with
  | O => Ok X_scaled
  | S rest =>
      '(X_new, _, _) <- scale_preprocess X_scaled ;;
      let dist := norm_fro (msub X_scaled X_new) in
      if ltb dist tol then Ok X_new else bistochastic_loop rest tol X_new
  end.

Definition bistochastic_preprocess (X : matrix F) (maxiter : nat) (tol : F)
  : result (matrix F) :=
  X <- make_nonnegative X zero ;;
  bistochastic_loop maxiter tol X.

(** The defaults [maxiter=1000, tol=1e-5]. *)
Definition default_maxiter : nat := 1000.
Definition default_tol : F := div one (of_Z 100000).

Definition log_preprocess (X : matrix F) : result (matrix F) :=
  X <- make_nonnegative X one ;;
  let L := map (map np_log) X in
  let row_avg := mean_axis1 L in
  let col_avg := mean_axis0 L in
  let avg := mean_all L in
  Ok (zip_with (fun r row => zip_with (fun x c => add (sub (sub x r) c) avg) row col_avg)
               row_avg L).

End Preprocessing.

(** *** Choosing the best vectors, projecting and clustering *)

Section Selection.

Context {F W : Type} {num : Numeric F} {lib : Library F W}.

Local Open Scope M_scope.

(** A call of [k_means] inside the module. *)
Definition call_k_means (points : matrix F) (n_clusters : Z)
  (random_state : option Z) (n_init : Z)
  : M W (matrix F * list nat * F) :=
  fun w => let '(o, w') := k_means points n_clusters random_state n_init w in
           (of_outcome o, w').

(** [v.reshape(-1, 1)] *)
Definition as_points (v : vector F) : matrix F := map (fun x => [x]) v.

(** The local function [make_piecewise] of [fit_best_piecewise]:
    [centroid[labels].reshape(-1)]. *)
Definition make_piecewise (n_clusters : Z) (random_state : option Z) (n_init : Z)
  (v : vector F) : M W (vector F) :=
  '(centroid, labels, _) <~ call_k_means (as_points v) n_clusters random_state n_init ;;
  picked <~ lift (mapM (getitem centroid) labels) ;;
  ret (concat picked).

(** Stable insertion of an (index, key) pair among pairs sorted by key.
    numpy leaves the order among equal keys open; this is one of them. *)
Fixpoint insert_key (x : nat * F) (l : list (nat * F)) : list (nat * F) :=
  match l with
  | [] => [x]
  | y :: t => if ltb (snd y) (snd x) then y :: insert_key x t else x :: y :: t
  end.

(** [np.argsort(d)] *)
Definition argsort (d : vector F) : list nat :=
  map fst (fold_right insert_key [] (combine (seq 0 (length d)) d)).

(** [l[:k]], also for a negative [k]. *)
Definition slice_to {A} (k : Z) (l : list A) : list A :=
  if (k <? 0)%Z then firstn (length l - Z.to_nat (- k)) l
  else firstn (Z.to_nat k) l.

(** The array [dists] of [fit_best_piecewise].  [np.apply_along_axis]
    indexes the first row to learn the output shape, so a batch without
    rows raises. *)
Definition piecewise_dists (vectors : matrix F) (n_clusters : Z)
  (random_state : option Z) (n_init : Z) : M W (vector F) :=
  match vectors with
  | [] => throw IndexError
  | _ =>
      piecewise_vectors <~ mapMW (make_piecewise n_clusters random_state n_init) vectors ;;
      ret (map norm (msub vectors piecewise_vectors))
  end.

Definition fit_best_piecewise (vectors : matrix F) (k : Z) (n_clusters : Z)
  (random_state : option Z) (n_init : Z) : M W (matrix F) :=
  dists <~ piecewise_dists vectors n_clusters random_state n_init ;;
  ret (map (fun i => nth i vectors []) (slice_to k (argsort dists))).

Definition project_and_cluster (data vectors : matrix F) (n_clusters : Z)
  (random_state : option Z) (n_init : Z) : M W (list nat) :=
  let projected := np_dot data vectors in
  '(_, labels, _) <~ call_k_means projected n_clusters random_state n_init ;;
  ret labels.

End Selection.

(** *** The estimator *)

(** [n_clusters]: an integer, or a tuple of integers. *)
Inductive n_clusters_t : Type :=
| NInt (k : Z)
| NTuple (t : list Z).

(** The attributes of a [SpectralBiclustering] object.  The four fitted
    attributes do not exist before [fit] has set them. *)
Record estimator : Type := Estimator
  { n_clusters : n_clusters_t;
    method : string;
    n_singular_vectors : Z;
    n_best_vectors : Z;
    maxiter : option Z;
    n_init : Z;
    random_state : option Z;
    rows_ : option (list (list bool));
    columns_ : option (list (list bool));
    row_labels_ : option (list nat);
    column_labels_ : option (list nat) }.

Definition set_rows_columns (self : estimator) (rows cols : list (list bool))
  : estimator :=
  Estimator (n_clusters self) (method self) (n_singular_vectors self)
            (n_best_vectors self) (maxiter self) (n_init self) (random_state self)
            (Some rows) (Some cols) (row_labels_ self) (column_labels_ self).

Definition set_labels (self : estimator) (row_labels col_labels : list nat)
  : estimator :=
  Estimator (n_clusters self) (method self) (n_singular_vectors self)
            (n_best_vectors self) (maxiter self) (n_init self) (random_state self)
            (rows_ self) (columns_ self) (Some row_labels) (Some col_labels).

(** Assignment to [self.method] between two fits. *)
Definition set_method (self : estimator) (m : string) : estimator :=
  Estimator (n_clusters self) m (n_singular_vectors self)
            (n_best_vectors self) (maxiter self) (n_init self) (random_state self)
            (rows_ self) (columns_ self) (row_labels_ self) (column_labels_ self).

Definition methods : list string :=
  ["dhillon"; "bistochastic"; "scale"; "log"]%string.

Definition is_tuple (n : n_clusters_t) : bool :=
  match n with
  | NTuple _ => true
  | NInt _ => false
  end.

Definition tuple_len (n : n_clusters_t) : nat :=
  match n with
  | NTuple t => length t
  | NInt _ => 0
  end.

Definition __init__ (n_clusters : n_clusters_t) (method : string)
  (n_singular_vectors n_best_vectors : Z) (maxiter : option Z) (n_init : Z)
  (random_state : option Z) : result estimator :=
  if negb (existsb (String.eqb method) methods) then
    Raise (Exception ("unknown method: " ++ method))
  else if is_tuple n_clusters && String.eqb method "dhillon" then
    Raise (Exception "different number of clusters not supported when method=='dhillon'")
  else if is_tuple n_clusters && negb (tuple_len n_clusters =? 2)%nat then
    Raise (Exception "unsupported number of clusters")
  else if (n_best_vectors >? n_singular_vectors)%Z then
    Raise (Exception "n_best_vectors > n_singular_vectors")
  else
    Ok (Estimator n_clusters method n_singular_vectors n_best_vectors maxiter
                  n_init random_state None None None None).

(** The four configurations [__init__] refuses. *)
Definition refused (n_clusters : n_clusters_t) (method : string)
  (n_singular_vectors n_best_vectors : Z) : Prop :=
  ~ In method methods
  \/ (is_tuple n_clusters = true /\ method = "dhillon"%string)
  \/ (is_tuple n_clusters = true /\ tuple_len n_clusters <> 2%nat)
  \/ (n_best_vectors > n_singular_vectors)%Z.

(** [np.vstack] of a sequence of equally long 1-d arrays. *)
Definition np_vstack {A} (arrays : list (list A)) : result (list (list A)) :=
  match arrays with
  | [] => Raise ValueError
  | _ => Ok arrays
  end.

(** [labels == c] *)
Definition labels_eq (labels : list nat) (c : nat) : list bool :=
  map (fun l => Nat.eqb l c) labels.

(** [range(n)] *)
Definition range (n : Z) : list nat := seq 0 (Z.to_nat n).

Fixpoint insert_unique (x : nat) (l : list nat) : list nat :=
  match l with
  | [] => [x]
  | y :: t =>
      if (x <? y)%nat then x :: l
      else if (x =? y)%nat then l
      else y :: insert_unique x t
  end.

Fixpoint index_of (x : nat) (l : list nat) : nat :=
  match l with
  | [] => 0
  | y :: t => if (x =? y)%nat then 0 else S (index_of x t)
  end.

(** The second result of [np.unique(v, return_inverse=True)]. *)
Definition unique_inverse (v : list nat) : list nat :=
  let values := fold_right insert_unique [] v in
  map (fun x => index_of x values) v.

Section Estimator.

Context {F W : Type} {num : Numeric F} {lib : Library F W}.

Local Open Scope M_scope.

(** [self.n_clusters] where the code needs one integer.  A tuple reaches
    [np.log2] as an array that [int()] refuses; one of length one passes
    [int()], to be refused by [k_means] or by [range] further down. *)
Definition scalar_clusters (n : n_clusters_t) : result Z :=
  match n with
  | NInt k => Ok k
  | NTuple _ => Raise TypeError
  end.

(** [1 + int(np.ceil(np.log2(k)))]: the logarithm of zero is minus
    infinity and that of a negative number NaN, neither of which [int()]
    converts. *)
Definition n_singular_vals (k : Z) : result Z :=
  if (k =? 0)%Z then Raise OverflowError
  else if (k <? 0)%Z then Raise ValueError
  else Ok (1 + Z.log2_up k)%Z.

Definition scale_tail (d : F) (row : vector F) : vector F := map (mul d) (tl row).

Definition _dhillon (self : estimator) (X : matrix F) : M W estimator :=
  '(normalized_data, row_diag, col_diag) <~ lift (scale_preprocess X) ;;
  k <~ lift (scalar_clusters (n_clusters self)) ;;
  n_sv <~ lift (n_singular_vals k) ;;
  '(u, s, vt) <~ lift (of_outcome (svds normalized_data n_sv (maxiter self))) ;;
  let z := zip_with scale_tail row_diag u
           ++ zip_with scale_tail col_diag (transpose vt) in
  '(_, labels, _) <~ call_k_means z k (random_state self) (n_init self) ;;
  let n_rows := shape0 X in
  let row_labels := firstn n_rows labels in
  let col_labels := skipn n_rows labels in
  rows <~ lift (np_vstack (map (labels_eq row_labels) (range k))) ;;
  cols <~ lift (np_vstack (map (labels_eq col_labels) (range k))) ;;
  ret (set_rows_columns self rows cols).

(** The cluster counts of the two axes: [n_clusters] itself, or its two
    components; a tuple of another length does not unpack. *)
Definition cluster_counts (n : n_clusters_t) : result (Z * Z) :=
  match n with
  | NInt k => Ok (k, k)
  | NTuple [p; q] => Ok (p, q)
  | NTuple _ => Raise ValueError
  end.

Definition _kluger (self : estimator) (X : matrix F) : M W estimator :=
  let n_sv := n_singular_vectors self in
  '(normalized_data, n_sv) <~ lift (
      if String.eqb (method self) "bistochastic" then
        (nd <- bistochastic_preprocess X default_maxiter default_tol ;;
         Ok (nd, n_sv + 1)%Z)%result
      else if String.eqb (method self) "scale" then
        ('(nd, _, _) <- scale_preprocess X ;; Ok (nd, n_sv + 1)%Z)%result
      else if String.eqb (method self) "log" then
        (nd <- log_preprocess X ;; Ok (nd, n_sv))%result
      else Raise UnboundLocalError) ;;
  '(u, s, vt) <~ lift (of_outcome (svds normalized_data n_sv (maxiter self))) ;;
  let ut := transpose u in
  let '(ut, vt) := if negb (String.eqb (method self) "log")
                   then (tl ut, tl vt) else (ut, vt) in
  '(n_row_clusters, n_col_clusters) <~ lift (cluster_counts (n_clusters self)) ;;
  best_ut <~ fit_best_piecewise ut (n_best_vectors self) n_row_clusters
                                (random_state self) (n_init self) ;;
  best_vt <~ fit_best_piecewise vt (n_best_vectors self) n_col_clusters
                                (random_state self) (n_init self) ;;
  row_vector <~ project_and_cluster normalized_data (transpose best_vt)
                                    n_row_clusters (random_state self) (n_init self) ;;
  col_vector <~ project_and_cluster (transpose normalized_data) (transpose best_ut)
                                    n_col_clusters (random_state self) (n_init self) ;;
  let row_labels := unique_inverse row_vector in
  let col_labels := unique_inverse col_vector in
  let rows := flat_map (fun row_label =>
                          map (fun col_label => labels_eq row_labels row_label)
                              (range n_col_clusters))
                       (range n_row_clusters) in
  let cols := flat_map (fun row_label =>
                          map (fun col_label => labels_eq col_labels col_label)
                              (range n_col_clusters))
                       (range n_row_clusters) in
  rows <~ lift (np_vstack rows) ;;
  cols <~ lift (np_vstack cols) ;;
  ret (set_labels (set_rows_columns self rows cols) row_labels col_labels).

Definition as_matrix (X : ndarray F) : matrix F :=
  match X with
  | Array2 m => m
  | _ => []
  end.

Definition fit (self : estimator) (X : ndarray F) : M W estimator :=
  if negb (ndim X =? 2)%nat then
    throw (Exception "data array must be 2 dimensional")
  else if String.eqb (method self) "dhillon" then _dhillon self (as_matrix X)
  else _kluger self (as_matrix X).

End Estimator.

(** *** Vocabulary of the statements *)

(** An exception that is not one of the [Exception(...)] the module
    raises itself. *)
Definition foreign (e : exn) : Prop :=
  match e with
  | Exception _ => False
  | _ => True
  end.

(** Computations that raise foreign exceptions only. *)
Definition rraises {A} (r : result A) : Prop :=
  forall e, r = Raise e -> foreign e.

Definition raises {W A} (m : M W A) : Prop :=
  forall w e w', m w = (Raise e, w') -> foreign e.

(** What the collaborators promise (their contracts in the library
    documentation): [k_means] labels every point with a cluster index
    below [n_clusters]; [svds] returns [u] with one row per row of the
    matrix and [vt] with [k] rows as long as the rows of the matrix. *)
Definition k_means_ok {F W} (lib : Library F W) : Prop :=
  forall points n_clusters random_state n_init w centroid labels inertia w',
    k_means points n_clusters random_state n_init w
    = (Done (centroid, labels, inertia), w') ->
    length labels = length points
    /\ Forall (fun l => (Z.of_nat l < n_clusters)%Z) labels.

Definition svds_ok {F W} (lib : Library F W) : Prop :=
  forall (X : matrix F) k maxiter u s vt,
    svds X k maxiter = Done (u, s, vt) ->
    length u = length X
    /\ length vt = Z.to_nat k
    /\ Forall (fun row => length row = length (hd [] X)) vt.

(** The configuration of an estimator, as opposed to what [fit] stores. *)
Definition same_configuration (s1 s2 : estimator) : Prop :=
  n_clusters s1 = n_clusters s2
  /\ method s1 = method s2
  /\ n_singular_vectors s1 = n_singular_vectors s2
  /\ n_best_vectors s1 = n_best_vectors s2
  /\ maxiter s1 = maxiter s2
  /\ n_init s1 = n_init s2
  /\ random_state s1 = random_state s2.

(** Two runs of a fit that differ in the fitted attributes of the
    estimator only. *)
Definition agree {W} (dhillon : bool) (s1 s2 : estimator)
  (r1 r2 : result estimator * W) : Prop :=
  match r1, r2 with
  | (Ok a, w1), (Ok b, w2) =>
      w1 = w2
      /\ rows_ a = rows_ b /\ columns_ a = columns_ b
      /\ rows_ a <> None /\ columns_ a <> None
      /\ same_configuration s1 a
      /\ (if dhillon
          then row_labels_ a = row_labels_ s1
               /\ column_labels_ a = column_labels_ s1
               /\ row_labels_ b = row_labels_ s2
               /\ column_labels_ b = column_labels_ s2
          else row_labels_ a = row_labels_ b
               /\ column_labels_ a = column_labels_ b
               /\ row_labels_ a <> None /\ column_labels_ a <> None)
  | (Raise e1, w1), (Raise e2, w2) => e1 = e2 /\ w1 = w2
  | _, _ => False
  end.

(** The order [argsort] needs of the comparison of the carrier: [<] is
    asymmetric, and "not greater" is transitive. *)
Definition order_laws {F} (num : Numeric F) : Prop :=
  (forall x y : F, ltb x y = true -> ltb y x = false)
  /\ (forall x y z : F, ltb y x = false -> ltb z y = false -> ltb z x = false).

(** [d[i] <= d[j]] *)
Definition not_greater {F} {num : Numeric F} (d : vector F) (i j : nat) : Prop :=
  ltb (nth j d zero) (nth i d zero) = false.

(** (index, key) pairs in the order of their keys. *)
Definition key_le {F} {num : Numeric F} (p q : nat * F) : Prop :=
  ltb (snd q) (snd p) = false.

Definition checkerboard_methods : list string :=
  ["bistochastic"; "scale"; "log"]%string.

(** *** Carriers

    The reals, for exact arithmetic; the order test is decided
    classically. *)

#[export] Instance R_numeric : Numeric R :=
  { zero := 0%R;
    one := 1%R;
    add := Rplus;
    sub := Rminus;
    mul := Rmult;
    div := Rdiv;
    ltb := fun x y => if Rlt_dec x y then true else false;
    of_Z := IZR }.

(** The rationals, which compute. *)
#[export] Instance Q_numeric : Numeric Q :=
  { zero := 0%Q;
    one := 1%Q;
    add := Qplus;
    sub := Qminus;
    mul := Qmult;
    div := Qdiv;
    ltb := fun x y => negb (Qle_bool y x);
    of_Z := inject_Z }.

(** *** A library to run the estimator on

    Deterministic stand-ins for the collaborators, over the rationals,
    that let the estimator be evaluated: [svds] returns factors of the
    right shapes whose entries count up from the position, [k_means]
    deals the labels round-robin and counts its calls.  The theorems
    below hold for every library; this one shows their hypotheses can be
    met. *)

Definition demo_svds (X : matrix Q) (k : Z) (maxiter : option Z)
  : outcome (matrix Q * vector Q * matrix Q) :=
  if (k <=? 0)%Z then Failed "svds"
  else
    let kn := Z.to_nat k in
    let cell i j := inject_Z (Z.of_nat (i + 2 * j)) in
    Done (map (fun i => map (cell i) (seq 0 kn)) (seq 0 (shape0 X)),
          map (fun j => inject_Z (Z.of_nat (kn - j))) (seq 0 kn),
          map (fun i => map (cell i) (seq 0 (shape1 X))) (seq 0 kn)).

Definition demo_k_means (points : matrix Q) (n_clusters : Z)
  (random_state : option Z) (n_init : Z) (calls : nat)
  : outcome (matrix Q * list nat * Q) * nat :=
  if (n_clusters <=? 0)%Z then (Failed "k_means", S calls)
  else
    let k := Z.to_nat n_clusters in
    (Done (map (fun c => map (fun _ => inject_Z (Z.of_nat c)) (seq 0 (shape1 points)))
               (seq 0 k),
           map (fun i => (i + calls) mod k) (seq 0 (length points)),
           0%Q),
     S calls).

Definition demo_library : Library Q nat :=
  {| np_sqrt := fun x => x;
     np_log := fun x => x;
     svds := demo_svds;
     k_means := demo_k_means |}.

(** The elementwise functions over the reals, next to collaborators that
    always fail: enough to run the preprocessing in exact arithmetic. *)
Definition real_library : Library R unit :=
  {| np_sqrt := sqrt;
     np_log := ln;
     svds := fun _ _ _ => Failed "svds";
     k_means := fun _ _ _ _ w => (Failed "k_means", w) |}.

(** A 2 x 3 matrix and two estimators, as [__init__] returns them. *)
Definition demo_matrix : matrix Q := [[1; 2; 3]; [4; 5; 6]]%Q.

Definition demo_dhillon : estimator :=
  Estimator (NInt 2) "dhillon" 6 3 None 10 None None None None None.

Definition demo_log : estimator :=
  Estimator (NInt 2) "log" 6 3 None 10 None None None None None.

(** The two estimators after a fit of [demo_matrix]. *)
Definition demo_dhillon_fitted : estimator :=
  Estimator (NInt 2) "dhillon" 6 3 None 10 None
            (Some [[true; false]; [false; true]])
            (Some [[true; false; true]; [false; true; false]])
            None None.

Definition demo_log_fitted : estimator :=
  Estimator (NInt 2) "log" 6 3 None 10 None
            (Some [[true; false]; [true; false]; [false; true]; [false; true]])
            (Some [[false; true; false]; [true; false; true];
                   [false; true; false]; [true; false; true]])
            (Some [0; 1]%nat) (Some [1; 0; 1]%nat).

End Spectral.

(** * Properties of the consensus score *)

Import Metrics.

Section CountFacts.

Lemma count_common_le_l (a b : list bool) :
  (count_true (zip_with andb a b) <= count_true a)%nat.
Proof.
  revert b; induction a as [|x a IH]; intros [|y b]; simpl; try lia.
  specialize (IH b). destruct x, y; simpl; lia.
Qed.

Lemma count_common_le_r (a b : list bool) :
  (count_true (zip_with andb a b) <= count_true b)%nat.
Proof.
  revert b; induction a as [|x a IH]; intros [|y b]; simpl; try lia.
  specialize (IH b). destruct x, y; simpl; lia.
Qed.

Lemma count_common_full (a b : list bool) :
  length a = length b ->
  count_true (zip_with andb a b) = count_true a ->
  count_true (zip_with andb a b) = count_true b ->
  a = b.
Proof.
  revert b; induction a as [|x a IH]; intros [|y b] Hlen Ha Hb;
    simpl in *; try discriminate; auto.
  injection Hlen as Hlen.
  pose proof (count_common_le_l a b) as Hl.
  pose proof (count_common_le_r a b) as Hr.
  destruct x, y; simpl in *; try lia; f_equal; apply IH; lia.
Qed.

Lemma count_common_same (a : list bool) :
  count_true (zip_with andb a a) = count_true a.
Proof.
  induction a as [|[] a IH]; simpl; lia.
Qed.

Lemma count_true_zero (v : list bool) :
  count_true v = O <-> all_false v = true.
Proof.
  unfold all_false.
  induction v as [|[] v IH]; simpl; split; intros H; auto; try discriminate.
  - apply IH, H.
  - apply IH, H.
Qed.

Lemma np_mul_same_length (a b : list bool) :
  length a = length b -> np_mul a b = Ok (zip_with andb a b).
Proof.
  intros H. unfold np_mul. now rewrite H, Nat.eqb_refl.
Qed.

End CountFacts.

(** ** The Jaccard coefficient *)

Section Ratio.

Local Open Scope Z_scope.

(** An integer ratio with a positive divisor, as a rational. *)
Lemma ratio_pos (x d : Z) :
  0 < d -> exists p, d = Zpos p /\ (inject_Z x / inject_Z d == x # p)%Q.
Proof.
  intros Hd. destruct d as [|p|p]; try lia.
  exists p. split; [reflexivity | symmetry; apply Qmake_Qdiv].
Qed.

Lemma ratio_range (x d : Z) :
  0 <= x <= d -> 0 < d -> (0 <= inject_Z x / inject_Z d <= 1)%Q.
Proof.
  intros Hx Hd. destruct (ratio_pos x Hd) as (p & -> & E).
  rewrite E. unfold Qle; simpl. lia.
Qed.

Lemma ratio_one (x d : Z) :
  0 < d -> (inject_Z x / inject_Z d == 1)%Q <-> x = d.
Proof.
  intros Hd. destruct (ratio_pos x Hd) as (p & -> & E).
  rewrite E. unfold Qeq; simpl. lia.
Qed.

Lemma ratio_zero (x d : Z) :
  0 < d -> (inject_Z x / inject_Z d == 0)%Q <-> x = 0.
Proof.
  intros Hd. destruct (ratio_pos x Hd) as (p & -> & E).
  rewrite E. unfold Qeq; simpl. lia.
Qed.

Lemma true_divide_pos (x d : Z) :
  0 < d -> true_divide x d = Fin (inject_Z x / inject_Z d).
Proof.
  intros Hd. unfold true_divide.
  destruct (Z.eqb_spec d 0); [lia | reflexivity].
Qed.

End Ratio.

Section CellFacts.

Local Open Scope Z_scope.

Lemma common_bounds (a b : list bool) :
  0 <= common a b /\ common a b <= np_sum a /\ common a b <= np_sum b.
Proof.
  unfold common, np_sum.
  pose proof (count_common_le_l a b). pose proof (count_common_le_r a b). lia.
Qed.

Lemma np_sum_nonneg (v : list bool) : 0 <= np_sum v.
Proof. unfold np_sum. lia. Qed.

Lemma is_empty_cells (rows cols : list bool) :
  is_empty rows cols = true <-> cells rows cols = 0.
Proof.
  unfold is_empty, cells, np_sum. rewrite orb_true_iff, <- !count_true_zero.
  split.
  - intros [-> | ->]; lia.
  - intros H. apply Z.mul_eq_0 in H. lia.
Qed.

Lemma share_none_common (a b : list bool) :
  share_none a b = true <-> common a b = 0.
Proof.
  unfold share_none, common, np_sum. rewrite <- count_true_zero. lia.
Qed.

Lemma product_full (x y p q : Z) :
  0 <= x <= p -> 0 <= y <= q -> 0 < p * q -> x * y = p * q -> x = p /\ y = q.
Proof.
  intros Hx Hy Hpq E.
  assert (0 < p) by nia. assert (0 < q) by nia.
  assert (Hle : x * y <= p * y) by (apply Z.mul_le_mono_nonneg_r; lia).
  assert (Hle' : p * y <= p * q) by (apply Z.mul_le_mono_nonneg_l; lia).
  split.
  - destruct (Z.eq_dec x p) as [|Hn]; [assumption|].
    assert (x * y <= (p - 1) * q) by (apply Z.mul_le_mono_nonneg; lia). lia.
  - destruct (Z.eq_dec y q) as [|Hn]; [assumption|].
    assert (x * y <= p * (q - 1)) by (apply Z.mul_le_mono_nonneg; lia). lia.
Qed.

End CellFacts.

Section Jaccard.

Local Open Scope Z_scope.

Variables a_rows a_cols b_rows b_cols : list bool.
Hypothesis same_rows : length a_rows = length b_rows.
Hypothesis same_cols : length a_cols = length b_cols.

Let intersection := common a_rows b_rows * common a_cols b_cols.
Let a_size := cells a_rows a_cols.
Let b_size := cells b_rows b_cols.
Let denominator := a_size + b_size - intersection.

Lemma jaccard_unfold :
  _jaccard a_rows a_cols b_rows b_cols = Ok (true_divide intersection denominator).
Proof.
  unfold _jaccard.
  rewrite (np_mul_same_length _ _ same_rows), (np_mul_same_length _ _ same_cols).
  reflexivity.
Qed.

Lemma intersection_bounds :
  0 <= intersection /\ intersection <= a_size /\ intersection <= b_size.
Proof.
  subst intersection a_size b_size. unfold cells.
  pose proof (common_bounds a_rows b_rows) as (? & ? & ?).
  pose proof (common_bounds a_cols b_cols) as (? & ? & ?).
  repeat split; nia.
Qed.

Lemma denominator_zero :
  denominator = 0 <->
  is_empty a_rows a_cols = true /\ is_empty b_rows b_cols = true.
Proof.
  rewrite !is_empty_cells. fold a_size b_size.
  pose proof intersection_bounds. subst denominator. lia.
Qed.

Lemma denominator_pos :
  is_empty a_rows a_cols && is_empty b_rows b_cols = false -> 0 < denominator.
Proof.
  intros H. pose proof intersection_bounds.
  assert (denominator <> 0).
  { rewrite denominator_zero. intros [E1 E2]. now rewrite E1, E2 in H. }
  subst denominator. lia.
Qed.

(** C10.  For two biclusters over the same matrix, the denominator
    [a_size + b_size - intersection] of [_jaccard] is at least
    [max(a_size, b_size)]; it is zero exactly when both biclusters cover no
    cell (each has an all-False row indicator or an all-False column
    indicator).  When at least one of them covers a cell the denominator is
    positive and the division yields the ordinary quotient; when both are
    empty the division is 0/0. *)
Theorem jaccard_denominator :
  _jaccard a_rows a_cols b_rows b_cols = Ok (true_divide intersection denominator)
  /\ Z.max a_size b_size <= denominator
  /\ (denominator = 0 <->
      is_empty a_rows a_cols = true /\ is_empty b_rows b_cols = true)
  /\ (is_empty a_rows a_cols && is_empty b_rows b_cols = false ->
      0 < denominator /\
      _jaccard a_rows a_cols b_rows b_cols
      = Ok (Fin (inject_Z intersection / inject_Z denominator)))
  /\ (is_empty a_rows a_cols && is_empty b_rows b_cols = true ->
      intersection = 0 /\ denominator = 0 /\
      _jaccard a_rows a_cols b_rows b_cols = Ok NaN).
Proof.
  pose proof intersection_bounds as (Hi0 & Hia & Hib).
  split; [apply jaccard_unfold|].
  split; [subst denominator; lia|].
  split; [apply denominator_zero|].
  split.
  - intros H. pose proof (denominator_pos H) as Hd.
    split; [exact Hd|]. rewrite jaccard_unfold. now rewrite true_divide_pos.
  - intros H. apply andb_true_iff in H.
    pose proof (proj2 denominator_zero H) as Hd.
    assert (Hi : intersection = 0) by (subst denominator; lia).
    repeat split; auto. rewrite jaccard_unfold, Hd, Hi. reflexivity.
Qed.

Lemma identical_iff :
  0 < denominator ->
  intersection = denominator <-> a_rows = b_rows /\ a_cols = b_cols.
Proof.
  intros Hd. pose proof intersection_bounds as (Hi0 & Hia & Hib).
  split.
  - intros E.
    assert (Ea : intersection = a_size) by (subst denominator; lia).
    assert (Eb : intersection = b_size) by (subst denominator; lia).
    assert (Hpos : 0 < a_size) by (subst denominator; lia).
    pose proof (common_bounds a_rows b_rows) as (? & ? & ?).
    pose proof (common_bounds a_cols b_cols) as (? & ? & ?).
    destruct (@product_full (common a_rows b_rows) (common a_cols b_cols)
                (np_sum a_rows) (np_sum a_cols)) as [R1 C1]; try lia.
    { exact Hpos. } { exact Ea. }
    destruct (@product_full (common a_rows b_rows) (common a_cols b_cols)
                (np_sum b_rows) (np_sum b_cols)) as [R2 C2]; try lia.
    { fold (cells b_rows b_cols). fold b_size. lia. } { exact Eb. }
    unfold common, np_sum in R1, R2, C1, C2.
    split; apply count_common_full; auto; lia.
  - intros [Er Ec]. subst denominator intersection a_size b_size.
    rewrite <- Er, <- Ec. unfold common, cells, np_sum.
    rewrite !count_common_same. lia.
Qed.

(** C5, for two biclusters over the same matrix of which at least one
    covers a cell: the Jaccard similarity is a number in [0, 1]; it is 1
    exactly when the two biclusters have the same row and the same column
    indicator vector, and 0 exactly when they share no row or share no
    column. *)
Theorem jaccard_similarity :
  is_empty a_rows a_cols && is_empty b_rows b_cols = false ->
  exists q,
    _jaccard a_rows a_cols b_rows b_cols = Ok (Fin q)
    /\ (0 <= q <= 1)%Q
    /\ ((q == 1)%Q <-> a_rows = b_rows /\ a_cols = b_cols)
    /\ ((q == 0)%Q <->
        share_none a_rows b_rows = true \/ share_none a_cols b_cols = true).
Proof.
  intros H. pose proof (denominator_pos H) as Hd.
  pose proof intersection_bounds as (Hi0 & Hia & Hib).
  exists (inject_Z intersection / inject_Z denominator)%Q.
  split; [rewrite jaccard_unfold; now rewrite true_divide_pos|].
  split; [apply ratio_range; [subst denominator; lia | exact Hd]|].
  split.
  - rewrite (ratio_one _ Hd). now apply identical_iff.
  - rewrite (ratio_zero _ Hd), !share_none_common.
    subst intersection. split.
    + intros E. apply Z.mul_eq_0 in E. exact E.
    + intros [-> | ->]; lia.
Qed.

End Jaccard.

(** Two biclusters without cells, with the same indicator vectors and
    sharing no row: the similarity is neither 1 nor 0 nor any number, it
    is the NaN of 0/0. *)
Lemma jaccard_similarity_both_empty :
  let rows := [true; false] in
  let cols := [false; false] in
  _jaccard rows cols rows cols = Ok NaN
  /\ share_none cols cols = true
  /\ ~ (exists q, _jaccard rows cols rows cols = Ok (Fin q) /\ (0 <= q <= 1)%Q).
Proof.
  cbv zeta. split; [reflexivity|]. split; [reflexivity|].
  intros (q & E & _). discriminate E.
Qed.

Lemma jaccard_denominator_witness :
  _jaccard [true; false] [true] [true; true] [true]
  = Ok (Fin (inject_Z 1 / inject_Z 2)).
Proof.
  apply (@jaccard_denominator [true; false] [true] [true; true] [true]
           eq_refl eq_refl).
  reflexivity.
Defined.

Lemma jaccard_similarity_witness :
  exists q, _jaccard [true; false] [true] [true; true] [true] = Ok (Fin q)
            /\ (0 <= q <= 1)%Q.
Proof.
  destruct (@jaccard_similarity [true; false] [true] [true; true] [true]
              eq_refl eq_refl eq_refl) as (q & E & Hq & _).
  exists q. split; [exact E | exact Hq].
Defined.

(** ** The consensus score *)

Section ListFacts.

Local Open Scope nat_scope.

Lemma mapM_ok_map {A B} (f : A -> result B) (g : A -> B) (l : list A) :
  (forall x, In x l -> f x = Ok (g x)) -> mapM f l = Ok (map g l).
Proof.
  induction l as [|x l IH]; intros H; simpl; [reflexivity|].
  rewrite (H x (or_introl eq_refl)), IH; [reflexivity|].
  intros y Hy. apply H. now right.
Qed.

Lemma mapM_length {A B} (f : A -> result B) (l : list A) (ys : list B) :
  mapM f l = Ok ys -> length ys = length l.
Proof.
  revert ys; induction l as [|x l IH]; intros ys; simpl.
  - intros [= <-]. reflexivity.
  - destruct (f x); [|discriminate].
    destruct (mapM f l); [|discriminate].
    intros [= <-]. simpl. f_equal. now apply IH.
Qed.

(** A strictly increasing list above [lo] and below [hi] has at most
    [hi - lo] elements. *)
Lemma sorted_between_length (l : list nat) (lo hi : nat) :
  StronglySorted lt l ->
  Forall (fun z => lo <= z < hi) l ->
  length l <= hi - lo.
Proof.
  intros Hs; revert lo; induction Hs as [|x l Hs IH Hx]; intros lo Hb; simpl.
  - lia.
  - inversion Hb as [|? ? Hx0 Hb']; subst.
    assert (Hl : Forall (fun z => S x <= z < hi) l).
    { rewrite Forall_forall in *. intros z Hz.
      specialize (Hx z Hz). specialize (Hb' z Hz). lia. }
    specialize (IH (S x) Hl). lia.
Qed.

(** A strictly increasing list that fills its range is the range. *)
Lemma sorted_full_range (l : list nat) (lo : nat) :
  StronglySorted lt l ->
  Forall (fun z => lo <= z < lo + length l) l ->
  l = seq lo (length l).
Proof.
  intros Hs; revert lo; induction Hs as [|x l Hs IH Hx]; intros lo Hb; simpl.
  - reflexivity.
  - inversion Hb as [|? ? Hx0 Hb']; subst. simpl in *.
    assert (Hl : Forall (fun z => S x <= z < lo + S (length l)) l).
    { rewrite Forall_forall in *. intros z Hz.
      specialize (Hx z Hz). specialize (Hb' z Hz). lia. }
    pose proof (sorted_between_length Hs Hl) as Hlen.
    assert (x = lo) by lia. subst x. f_equal.
    apply IH. rewrite Forall_forall in *. intros z Hz.
    specialize (Hl z Hz). lia.
Qed.

(** Distinct numbers below [n], [n] of them: every number below [n]. *)
Lemma nodup_full (l : list nat) (n : nat) :
  NoDup l -> Forall (fun z => z < n) l -> length l = n ->
  forall j, j < n -> In j l.
Proof.
  intros Hnd Hb Hlen j Hj.
  apply (@NoDup_length_incl nat l (seq 0 n)); auto.
  - rewrite length_seq. lia.
  - intros z Hz. rewrite Forall_forall in Hb. apply in_seq.
    specialize (Hb z Hz). lia.
  - apply in_seq. lia.
Qed.

End ListFacts.

Section RationalSums.

Local Open Scope Q_scope.

Lemma inject_succ (n : nat) :
  inject_Z (Z.of_nat (S n)) == 1 + inject_Z (Z.of_nat n).
Proof.
  rewrite Nat2Z.inj_succ. unfold Z.succ. rewrite inject_Z_plus. ring.
Qed.

Lemma fold_nonneg (l : list Q) (acc : Q) :
  (forall x, In x l -> 0 <= x) -> acc <= fold_left Qplus l acc.
Proof.
  revert acc; induction l as [|x l IH]; intros acc H; simpl.
  - apply Qle_refl.
  - assert (0 <= x) by (apply H; now left).
    apply Qle_trans with (acc + x); [Lqa.lra|].
    apply IH. intros y Hy. apply H. now right.
Qed.

(** A sum of non-negative terms that does not grow has only zero terms. *)
Lemma fold_no_growth (l : list Q) (acc : Q) :
  (forall x, In x l -> 0 <= x) ->
  fold_left Qplus l acc <= acc ->
  forall x, In x l -> x == 0.
Proof.
  revert acc; induction l as [|y l IH]; intros acc H Hle x Hx; simpl in *.
  - contradiction.
  - assert (Hy : 0 <= y) by (apply H; now left).
    assert (Ht : forall z, In z l -> 0 <= z) by (intros z Hz; apply H; now right).
    pose proof (fold_nonneg l (acc + y) Ht) as Hge.
    destruct Hx as [<- | Hx].
    + Lqa.lra.
    + apply (IH (acc + y)); auto. Lqa.lra.
Qed.

Lemma fold_nonpos (l : list Q) (acc : Q) :
  (forall x, In x l -> x <= 0) -> fold_left Qplus l acc <= acc.
Proof.
  revert acc; induction l as [|x l IH]; intros acc H; simpl.
  - apply Qle_refl.
  - assert (x <= 0) by (apply H; now left).
    apply Qle_trans with (acc + x); [|Lqa.lra].
    apply IH. intros y Hy. apply H. now right.
Qed.

Lemma fold_unit_bounds (l : list Q) (acc : Q) :
  (forall x, In x l -> 0 <= x <= 1) ->
  acc <= fold_left Qplus l acc <= acc + inject_Z (Z.of_nat (length l)).
Proof.
  revert acc; induction l as [|x l IH]; intros acc H.
  - simpl. change (inject_Z 0) with 0. Lqa.lra.
  - assert (0 <= x <= 1) by (apply H; now left).
    assert (Ht : forall z, In z l -> 0 <= z <= 1) by (intros z Hz; apply H; now right).
    specialize (IH (acc + x) Ht).
    change (fold_left Qplus (x :: l) acc) with (fold_left Qplus l (acc + x)).
    change (length (x :: l)) with (S (length l)).
    rewrite inject_succ. Lqa.lra.
Qed.

(** A sum of terms of the unit interval that reaches the number of terms
    has only ones. *)
Lemma fold_unit_full (l : list Q) (acc : Q) :
  (forall x, In x l -> 0 <= x <= 1) ->
  acc + inject_Z (Z.of_nat (length l)) <= fold_left Qplus l acc ->
  forall x, In x l -> x == 1.
Proof.
  revert acc; induction l as [|y l IH]; intros acc H Hle x Hx.
  - contradiction.
  - assert (Hy : 0 <= y <= 1) by (apply H; now left).
    assert (Ht : forall z, In z l -> 0 <= z <= 1) by (intros z Hz; apply H; now right).
    pose proof (fold_unit_bounds l (acc + y) Ht) as Hb.
    change (fold_left Qplus (y :: l) acc) with (fold_left Qplus l (acc + y)) in Hle.
    change (length (y :: l)) with (S (length l)) in Hle.
    rewrite inject_succ in Hle.
    destruct Hx as [<- | Hx].
    + Lqa.lra.
    + apply (IH (acc + y)); auto. Lqa.lra.
Qed.

Lemma fold_all_ones (l : list Q) (acc : Q) :
  (forall x, In x l -> x == 1) ->
  fold_left Qplus l acc == acc + inject_Z (Z.of_nat (length l)).
Proof.
  revert acc; induction l as [|y l IH]; intros acc H.
  - simpl. change (inject_Z 0) with 0. ring.
  - assert (Hy : y == 1) by (apply H; now left).
    change (fold_left Qplus (y :: l) acc) with (fold_left Qplus l (acc + y)).
    change (length (y :: l)) with (S (length l)).
    rewrite inject_succ, IH by (intros z Hz; apply H; now right).
    rewrite Hy. ring.
Qed.

Lemma fsum_Fin (l : list Q) (acc : Q) :
  fold_left fadd (map Fin l) (Fin acc) = Fin (fold_left Qplus l acc).
Proof.
  revert acc; induction l as [|x l IH]; intros acc; simpl; [reflexivity|].
  apply IH.
Qed.

Lemma inject_nat_le (n m : nat) :
  (n <= m)%nat -> inject_Z (Z.of_nat n) <= inject_Z (Z.of_nat m).
Proof. intros H. rewrite <- Zle_Qle. lia. Qed.

Lemma inject_nat_pos (n : nat) :
  (1 <= n)%nat -> 0 < inject_Z (Z.of_nat n).
Proof.
  intros H. change 0 with (inject_Z 0). rewrite <- Zlt_Qlt. lia.
Qed.

Lemma inject_nat_inj (n m : nat) :
  inject_Z (Z.of_nat n) == inject_Z (Z.of_nat m) -> n = m.
Proof. intros H. apply (proj1 (inject_Z_injective _ _)) in H. lia. Qed.

Lemma unit_ratio (s d : Q) :
  0 < d -> 0 <= s <= d -> 0 <= s / d <= 1.
Proof.
  intros Hd Hs. split.
  - apply Qle_shift_div_l; [exact Hd | Lqa.lra].
  - apply Qle_shift_div_r; [exact Hd | Lqa.lra].
Qed.

Lemma ratio_is_one (s d : Q) :
  0 < d -> s / d == 1 -> s == d.
Proof.
  intros Hd H.
  assert (E : s == (s / d) * d) by (field; Lqa.lra).
  rewrite E, H. ring.
Qed.

End RationalSums.

Lemma jaccard_value (a_rows a_cols b_rows b_cols : list bool) :
  length a_rows = length b_rows ->
  length a_cols = length b_cols ->
  is_empty a_rows a_cols && is_empty b_rows b_cols = false ->
  _jaccard a_rows a_cols b_rows b_cols
  = Ok (Fin (jaccard_q a_rows a_cols b_rows b_cols))
  /\ (0 <= jaccard_q a_rows a_cols b_rows b_cols <= 1)%Q
  /\ ((jaccard_q a_rows a_cols b_rows b_cols == 1)%Q <->
      a_rows = b_rows /\ a_cols = b_cols).
Proof.
  intros Hr Hc He. unfold jaccard_q.
  pose proof (@denominator_pos _ _ _ _ Hr Hc He) as Hd.
  pose proof (@intersection_bounds _ _ _ _ Hr Hc) as (Hi0 & Hia & Hib).
  split; [rewrite (@jaccard_unfold _ _ _ _ Hr Hc); now rewrite true_divide_pos|].
  split; [apply ratio_range; [lia | exact Hd]|].
  rewrite (ratio_one _ Hd). now apply identical_iff.
Qed.

Section SimilarityMatrix.

Local Open Scope nat_scope.

Variables (n_rows n_cols : nat) (a b : biclusters).
Hypothesis a_shape : over_matrix n_rows n_cols a.
Hypothesis b_shape : over_matrix n_rows n_cols b.
Hypothesis some_cell : no_empty_pair a b.

Lemma bicluster_lengths (s : biclusters) (i : nat) :
  over_matrix n_rows n_cols s -> i < length (fst s) ->
  length (fst (bicluster s i)) = n_rows /\ length (snd (bicluster s i)) = n_cols.
Proof.
  intros (Hlen & Hr & Hc) Hi. unfold bicluster; simpl. split.
  - rewrite Forall_forall in Hr. apply Hr, nth_In, Hi.
  - rewrite Forall_forall in Hc. apply Hc, nth_In. lia.
Qed.

Lemma sim_value (i j : nat) :
  i < length (fst a) -> j < length (fst b) ->
  _jaccard (fst (bicluster a i)) (snd (bicluster a i))
           (fst (bicluster b j)) (snd (bicluster b j)) = Ok (Fin (sim a b i j))
  /\ (0 <= sim a b i j <= 1)%Q
  /\ ((sim a b i j == 1)%Q <-> bicluster a i = bicluster b j).
Proof.
  intros Hi Hj.
  destruct (bicluster_lengths a_shape Hi) as [Ra Ca].
  destruct (bicluster_lengths b_shape Hj) as [Rb Cb].
  destruct (@jaccard_value (fst (bicluster a i)) (snd (bicluster a i))
              (fst (bicluster b j)) (snd (bicluster b j))) as (E & Hq & H1);
    try congruence.
  { now apply some_cell. }
  split; [exact E|]. split; [exact Hq|].
  unfold sim. rewrite H1.
  destruct (bicluster a i), (bicluster b j); simpl. split.
  - intros [-> ->]. reflexivity.
  - intros [= -> ->]. auto.
Qed.

Lemma pairwise_similarity_value :
  _pairwise_similarity a b _jaccard = Ok (sim_matrix a b).
Proof.
  unfold _pairwise_similarity, _check_rows_and_columns, check_arrays.
  destruct a_shape as (La & _ & _), b_shape as (Lb & _ & _).
  rewrite La, Lb, !Nat.eqb_refl. simpl.
  unfold sim_matrix.
  apply mapM_ok_map. intros i Hi. apply in_seq in Hi.
  apply mapM_ok_map. intros j Hj. apply in_seq in Hj.
  apply (@sim_value i j); lia.
Qed.

Lemma sim_matrix_length : length (sim_matrix a b) = length (fst a).
Proof. unfold sim_matrix. now rewrite length_map, length_seq. Qed.

Lemma sim_matrix_row (i : nat) :
  i < length (fst a) ->
  nth i (sim_matrix a b) []
  = map (fun j => Fin (sim a b i j)) (seq 0 (length (fst b))).
Proof.
  intros Hi. unfold sim_matrix.
  rewrite (nth_indep _ [] (map (fun j => Fin (sim a b 0 j)) (seq 0 (length (fst b)))))
    by (rewrite length_map, length_seq; exact Hi).
  rewrite (map_nth (fun i => map (fun j => Fin (sim a b i j)) (seq 0 (length (fst b))))).
  now rewrite seq_nth.
Qed.

Lemma sim_matrix_entry (i j : nat) :
  i < length (fst a) -> j < length (fst b) ->
  entry (sim_matrix a b) (i, j) = Fin (sim a b i j).
Proof.
  intros Hi Hj. unfold entry; simpl. rewrite (sim_matrix_row Hi).
  rewrite (nth_indep _ NaN (Fin (sim a b i 0)))
    by (rewrite length_map, length_seq; exact Hj).
  rewrite (map_nth (fun j => Fin (sim a b i j))).
  now rewrite seq_nth.
Qed.

Lemma sim_matrix_n_cols :
  1 <= length (fst a) -> n_columns (sim_matrix a b) = length (fst b).
Proof.
  intros Hn. unfold n_columns, sim_matrix.
  destruct (length (fst a)) as [|n]; [lia|].
  simpl. now rewrite length_map, length_seq.
Qed.

End SimilarityMatrix.

Section Trace.

Local Open Scope nat_scope.

Lemma getitem_ok {A} (row : list A) (j : nat) (d : A) :
  j < length row -> getitem row j = Ok (nth j row d).
Proof.
  intros Hj. unfold getitem. now rewrite (nth_error_nth' row d Hj).
Qed.

Variable g : nat -> nat -> npfloat.

Lemma take_columns_value (na nb : nat) (cols : list nat) :
  Forall (fun j => j < nb) cols ->
  take_columns (map (fun i => map (g i) (seq 0 nb)) (seq 0 na)) cols
  = Ok (map (fun i => map (g i) cols) (seq 0 na)).
Proof.
  intros Hc. unfold take_columns.
  rewrite (@mapM_ok_map _ _ _ (fun row => map (fun j => nth j row NaN) cols)).
  - f_equal. rewrite map_map. apply map_ext. intros i.
    apply map_ext_in. intros j Hj.
    rewrite Forall_forall in Hc. specialize (Hc j Hj).
    rewrite (nth_indep _ NaN (g i 0)) by (now rewrite length_map, length_seq).
    rewrite (map_nth (g i)). now rewrite seq_nth.
  - intros row Hrow. apply in_map_iff in Hrow as (i & <- & _).
    apply mapM_ok_map. intros j Hj.
    rewrite Forall_forall in Hc. specialize (Hc j Hj).
    apply getitem_ok. now rewrite length_map, length_seq.
Qed.

Lemma diagonal_value (n s : nat) (pre rest : list nat) :
  length pre = s ->
  diagonal (map (fun i => map (g i) (pre ++ rest)) (seq s n)) s
  = map (fun ij => g (fst ij) (snd ij)) (combine (seq s n) rest).
Proof.
  revert s pre rest; induction n as [|n IH]; intros s pre rest Hs; simpl.
  - reflexivity.
  - destruct rest as [|j rest].
    + rewrite app_nil_r.
      assert (E : nth_error (map (g s) pre) s = None).
      { apply nth_error_None. rewrite length_map. lia. }
      now rewrite E.
    + assert (E : nth_error (map (g s) (pre ++ j :: rest)) s = Some (g s j)).
      { rewrite nth_error_map, nth_error_app2 by lia.
        replace (s - length pre) with 0 by lia. reflexivity. }
      rewrite E. simpl. f_equal.
      replace (pre ++ j :: rest) with ((pre ++ [j]) ++ rest)
        by (now rewrite <- app_assoc).
      apply IH. rewrite length_app. simpl. lia.
Qed.

Lemma trace_value (na : nat) (cols : list nat) :
  np_trace (map (fun i => map (g i) cols) (seq 0 na))
  = fsum (map (fun ij => g (fst ij) (snd ij)) (combine (seq 0 na) cols)).
Proof.
  unfold np_trace. f_equal. apply (@diagonal_value na 0 [] cols). reflexivity.
Qed.

End Trace.

Lemma match_nonempty {A B} (l : list A) (x y : B) :
  l <> [] -> match l with [] => x | _ :: _ => y end = y.
Proof. destruct l; [congruence | reflexivity]. Qed.

Lemma combine_fst_snd {A B} (l : list (A * B)) :
  combine (map fst l) (map snd l) = l.
Proof.
  induction l as [|[x y] l IH]; simpl; [reflexivity | now rewrite IH].
Qed.

Lemma sorted_seq (n s : nat) : StronglySorted lt (seq s n).
Proof.
  revert s; induction n as [|n IH]; intros s; simpl; constructor.
  - apply IH.
  - apply Forall_forall. intros z Hz. apply in_seq in Hz. lia.
Qed.

Section Score.

Local Open Scope nat_scope.

Variables (linear_assignment : solver) (n_rows n_cols : nat) (a b : biclusters).
Variable idx : list (nat * nat).
Hypothesis a_shape : over_matrix n_rows n_cols a.
Hypothesis b_shape : over_matrix n_rows n_cols b.
Hypothesis some_cell : no_empty_pair a b.
Hypothesis a_inhabited : 1 <= length (fst a).
Hypothesis solved : linear_assignment (cost_of (sim_matrix a b)) = Ok idx.
Hypothesis assigned : is_assignment (cost_of (sim_matrix a b)) idx.

Local Abbreviation n_a := (length (fst a)).
Local Abbreviation n_b := (length (fst b)).
Local Abbreviation sim_at := (fun ij : nat * nat => sim a b (fst ij) (snd ij)).
(** The positions [np.trace] reads: row [t] with the [t]-th matched column. *)
Local Abbreviation read := (combine (seq 0 n_a) (map snd idx)).
Local Abbreviation read_sum := (fold_left Qplus (map sim_at read) 0%Q).

Lemma cost_length : length (cost_of (sim_matrix a b)) = n_a.
Proof. unfold cost_of. rewrite length_map. apply sim_matrix_length. Qed.

Lemma cost_columns : n_columns (cost_of (sim_matrix a b)) = n_b.
Proof.
  clear solved assigned.
  rewrite <- (sim_matrix_n_cols a b a_inhabited).
  unfold n_columns, cost_of.
  destruct (sim_matrix a b); simpl; [reflexivity | apply length_map].
Qed.

Lemma idx_rows : Forall (fun i => i < n_a) (map fst idx).
Proof.
  rewrite Forall_map. rewrite <- cost_length. apply assigned.
Qed.

Lemma idx_cols : Forall (fun j => j < n_b) (map snd idx).
Proof.
  rewrite Forall_map. rewrite <- cost_columns. apply assigned.
Qed.

Lemma idx_length : length idx = Nat.min n_a n_b.
Proof. rewrite (asg_size assigned), cost_length, cost_columns. reflexivity. Qed.

Lemma score_value :
  consensus_score linear_assignment a b
  = Ok (Fin (read_sum / inject_Z (Z.of_nat (Nat.max n_a n_b)))).
Proof.
  unfold consensus_score, consensus_score_with.
  rewrite (pairwise_similarity_value a_shape b_shape some_cell). simpl.
  fold (cost_of (sim_matrix a b)). rewrite solved. simpl.
  rewrite match_nonempty
    by (intros E; pose proof (sim_matrix_length a b) as Hlen;
        rewrite E in Hlen; simpl in Hlen; lia).
  unfold sim_matrix at 1.
  rewrite (take_columns_value (fun i j => Fin (sim a b i j)) n_a idx_cols). simpl.
  rewrite trace_value. unfold fsum.
  rewrite <- (map_map sim_at Fin), fsum_Fin.
  destruct (Nat.max n_a n_b) eqn:Em; [lia | reflexivity].
Qed.

Lemma read_in_range (ij : nat * nat) :
  In ij read -> fst ij < n_a /\ snd ij < n_b.
Proof.
  destruct ij as [i j]. intros H. simpl. split.
  - apply in_combine_l in H. apply in_seq in H. lia.
  - apply in_combine_r in H. pose proof idx_cols as Hc.
    rewrite Forall_forall in Hc. now apply Hc.
Qed.

Lemma read_length : length read = Nat.min n_a n_b.
Proof.
  rewrite length_combine, length_seq, length_map, idx_length. lia.
Qed.

Lemma read_terms_unit (x : Q) :
  In x (map sim_at read) -> (0 <= x <= 1)%Q.
Proof.
  intros H. apply in_map_iff in H as (ij & <- & Hij).
  destruct (read_in_range _ Hij) as [Hi Hj].
  apply (sim_value a_shape b_shape some_cell Hi Hj).
Qed.

Lemma read_sum_bounds :
  (0 <= read_sum <= inject_Z (Z.of_nat (Nat.min n_a n_b)))%Q.
Proof.
  pose proof (fold_unit_bounds (map sim_at read) 0 read_terms_unit) as H.
  rewrite length_map, read_length in H. Lqa.lra.
Qed.

Lemma max_positive : (0 < inject_Z (Z.of_nat (Nat.max n_a n_b)))%Q.
Proof. apply inject_nat_pos. lia. Qed.

Lemma score_unit :
  (0 <= read_sum / inject_Z (Z.of_nat (Nat.max n_a n_b)) <= 1)%Q.
Proof.
  apply unit_ratio; [apply max_positive|].
  pose proof read_sum_bounds as H.
  pose proof (@inject_nat_le (Nat.min n_a n_b) (Nat.max n_a n_b)) as Hm.
  assert (Nat.min n_a n_b <= Nat.max n_a n_b) as Hle by lia.
  specialize (Hm Hle). Lqa.lra.
Qed.

(** With no more rows than columns every row is matched, in order, and the
    trace reads the matched positions. *)
Lemma idx_rows_full : n_a <= n_b -> map fst idx = seq 0 n_a.
Proof.
  intros Hle.
  assert (L : length (map fst idx) = n_a)
    by (rewrite length_map, idx_length; lia).
  rewrite <- L.
  apply sorted_full_range; [apply assigned|].
  rewrite L. pose proof idx_rows as Hr.
  rewrite Forall_forall in Hr. apply Forall_forall.
  intros z Hz. specialize (Hr z Hz). lia.
Qed.

Lemma read_matched : n_a <= n_b -> read = idx.
Proof.
  intros Hle. rewrite <- (idx_rows_full Hle). apply combine_fst_snd.
Qed.

Lemma total_value (l : list (nat * nat)) :
  (forall ij, In ij l -> fst ij < n_a /\ snd ij < n_b) ->
  total (sim_matrix a b) l = Fin (fold_left Qplus (map sim_at l) 0%Q).
Proof.
  intros H. unfold total, fsum.
  rewrite <- fsum_Fin, map_map. f_equal.
  apply map_ext_in. intros [i j] Hij. destruct (H _ Hij) as [Hi Hj].
  now apply sim_matrix_entry.
Qed.

Lemma score_matched :
  n_a <= n_b ->
  consensus_score linear_assignment a b
  = Ok (fdiv_nat (total (sim_matrix a b) idx) (Nat.max n_a n_b)).
Proof.
  intros Hle. rewrite score_value.
  rewrite total_value.
  - rewrite (read_matched Hle).
    destruct (Nat.max n_a n_b) eqn:Em; [lia | reflexivity].
  - intros ij Hij. apply read_in_range. now rewrite (read_matched Hle).
Qed.

Lemma score_one :
  (read_sum / inject_Z (Z.of_nat (Nat.max n_a n_b)) == 1)%Q ->
  n_a = n_b
  /\ (forall i, i < n_a -> exists j, j < n_b /\ (sim a b i j == 1)%Q)
  /\ (forall j, j < n_b -> exists i, i < n_a /\ (sim a b i j == 1)%Q).
Proof.
  intros H1. apply (ratio_is_one max_positive) in H1.
  pose proof read_sum_bounds as Hb.
  assert (Hmm : Nat.min n_a n_b = Nat.max n_a n_b).
  { destruct (Nat.eq_dec (Nat.min n_a n_b) (Nat.max n_a n_b)) as [E|Hne]; [exact E|].
    assert (Hlt : S (Nat.min n_a n_b) <= Nat.max n_a n_b) by lia.
    apply inject_nat_le in Hlt. rewrite inject_succ in Hlt. Lqa.lra. }
  assert (Hab : n_a = n_b) by lia.
  assert (Hones : forall x, In x (map sim_at read) -> (x == 1)%Q).
  { apply fold_unit_full with (acc := 0%Q); [apply read_terms_unit|].
    rewrite length_map, read_length, Hmm. Lqa.lra. }
  assert (Hcl : length (map snd idx) = n_a)
    by (rewrite length_map, idx_length; lia).
  assert (Hat : forall t, t < n_a ->
            (sim a b t (nth t (map snd idx) 0%nat) == 1)%Q).
  { intros t Ht. apply Hones.
    apply in_map_iff. exists (t, nth t (map snd idx) 0). split; [reflexivity|].
    replace (t, nth t (map snd idx) 0)
      with (nth t read (0, 0)).
    - apply nth_In. rewrite read_length. lia.
    - rewrite combine_nth by (rewrite length_seq; lia).
      now rewrite seq_nth. }
  split; [exact Hab|]. split.
  - intros i Hi. exists (nth i (map snd idx) 0). split; [|now apply Hat].
    pose proof idx_cols as Hc. rewrite Forall_forall in Hc.
    apply Hc, nth_In. lia.
  - intros j Hj.
    assert (Hin : In j (map snd idx)).
    { apply (@nodup_full (map snd idx) n_b); auto.
      - apply assigned.
      - apply idx_cols.
      - lia. }
    apply (In_nth _ _ 0) in Hin as (t & Ht & E).
    exists t. split; [lia|]. rewrite <- E. apply Hat. lia.
Qed.

End Score.

Section SelfScore.

Local Open Scope nat_scope.

Variables (linear_assignment : solver) (n_rows n_cols : nat) (a : biclusters).
Variable idx : list (nat * nat).
Hypothesis a_shape : over_matrix n_rows n_cols a.
Hypothesis a_cells : all_nonempty a.
Hypothesis a_distinct : pairwise_distinct a.
Hypothesis a_inhabited : 1 <= length (fst a).
Hypothesis solved : linear_assignment (cost_of (sim_matrix a a)) = Ok idx.
Hypothesis assigned : is_assignment (cost_of (sim_matrix a a)) idx.
Hypothesis optimal : is_optimal (cost_of (sim_matrix a a)) idx.

Local Abbreviation n := (length (fst a)).
Local Abbreviation cost_at := (fun ij : nat * nat => (1 + - sim a a (fst ij) (snd ij))%Q).
Local Abbreviation identity := (map (fun t : nat => (t, t)) (seq 0 n)).

Lemma self_pairs : no_empty_pair a a.
Proof.
  intros i j Hi Hj. now rewrite (a_cells Hi).
Qed.

Lemma self_sim (i j : nat) :
  i < n -> j < n -> (sim a a i j == 1)%Q <-> i = j.
Proof.
  intros Hi Hj.
  destruct (sim_value a_shape a_shape self_pairs Hi Hj) as (_ & _ & H1).
  rewrite H1. split; [now apply a_distinct | now intros ->].
Qed.

Lemma cost_entry (i j : nat) :
  i < n -> j < n ->
  entry (cost_of (sim_matrix a a)) (i, j) = Fin (cost_at (i, j)).
Proof.
  intros Hi Hj. unfold entry, cost_of; simpl.
  rewrite (nth_indep _ [] (map (fsub (Fin 1)) []))
    by (rewrite length_map, sim_matrix_length; exact Hi).
  rewrite (map_nth (map (fsub (Fin 1)))).
  rewrite (sim_matrix_row a a Hi).
  rewrite (nth_indep _ NaN (fsub (Fin 1) (Fin (sim a a i 0))))
    by (rewrite !length_map, length_seq; exact Hj).
  rewrite map_map.
  rewrite (map_nth (fun x => fsub (Fin 1) (Fin (sim a a i x)))).
  now rewrite seq_nth.
Qed.

Lemma cost_total (l : list (nat * nat)) :
  (forall ij, In ij l -> fst ij < n /\ snd ij < n) ->
  total (cost_of (sim_matrix a a)) l = Fin (fold_left Qplus (map cost_at l) 0%Q).
Proof.
  intros H. unfold total, fsum.
  rewrite <- fsum_Fin, map_map. f_equal.
  apply map_ext_in. intros [i j] Hij. destruct (H _ Hij) as [Hi Hj].
  now apply cost_entry.
Qed.

Lemma identity_assignment : is_assignment (cost_of (sim_matrix a a)) identity.
Proof.
  pose proof (cost_length a a) as Hl.
  pose proof (cost_columns a a a_inhabited) as Hc.
  constructor.
  - rewrite Hl. apply Forall_forall. intros ij Hij.
    apply in_map_iff in Hij as (t & <- & Ht). apply in_seq in Ht. simpl. lia.
  - rewrite Hc. apply Forall_forall. intros ij Hij.
    apply in_map_iff in Hij as (t & <- & Ht). apply in_seq in Ht. simpl. lia.
  - rewrite map_map. simpl. rewrite map_id. apply sorted_seq.
  - rewrite map_map. simpl. rewrite map_id. apply seq_NoDup.
  - rewrite Hl, Hc, length_map, length_seq. lia.
Qed.

Lemma idx_in_range (ij : nat * nat) :
  In ij idx -> fst ij < n /\ snd ij < n.
Proof.
  intros H. split.
  - pose proof (idx_rows a a assigned) as Hr. rewrite Forall_forall in Hr.
    apply Hr. now apply in_map.
  - pose proof (idx_cols a a a_inhabited assigned) as Hc. rewrite Forall_forall in Hc.
    apply Hc. now apply in_map.
Qed.

(** The optimal matching of a set with itself pairs every bicluster with
    itself. *)
Lemma optimal_is_identity : map snd idx = seq 0 n.
Proof.
  assert (Hid : forall ij, In ij identity -> fst ij < n /\ snd ij < n).
  { intros ij Hij. apply in_map_iff in Hij as (t & <- & Ht).
    apply in_seq in Ht. simpl. lia. }
  pose proof (optimal identity_assignment) as Hle.
  rewrite (cost_total _ idx_in_range), (cost_total _ Hid) in Hle. simpl in Hle.
  apply Qle_bool_iff in Hle.
  assert (Hzero : (fold_left Qplus (map cost_at identity) 0 <= 0)%Q).
  { apply fold_nonpos. intros x Hx.
    apply in_map_iff in Hx as (ij & <- & Hij).
    apply in_map_iff in Hij as (t & <- & Ht). apply in_seq in Ht. simpl.
    assert (E : (sim a a t t == 1)%Q) by (apply self_sim; lia).
    rewrite E. Lqa.lra. }
  assert (Hterms : forall x, In x (map cost_at idx) -> (x == 0)%Q).
  { apply fold_no_growth with (acc := 0%Q); [|Lqa.lra].
    intros x Hx. apply in_map_iff in Hx as (ij & <- & Hij).
    destruct (idx_in_range _ Hij) as [Hi Hj].
    destruct (sim_value a_shape a_shape self_pairs Hi Hj) as (_ & Hq & _).
    Lqa.lra. }
  rewrite <- (idx_rows_full a a a_inhabited assigned (Nat.le_refl _)).
  apply map_ext_in. intros [i j] Hij. simpl.
  destruct (idx_in_range _ Hij) as [Hi Hj]. simpl in Hi, Hj.
  symmetry. apply (self_sim Hi Hj).
  specialize (Hterms (cost_at (i, j)) (in_map cost_at _ _ Hij)).
  simpl in Hterms. Lqa.lra.
Qed.

Lemma self_score :
  exists q, consensus_score linear_assignment a a = Ok (Fin q) /\ (q == 1)%Q.
Proof.
  eexists. split.
  - apply (score_value linear_assignment a_shape a_shape self_pairs a_inhabited solved assigned).
  - rewrite optimal_is_identity, Nat.max_id.
    rewrite fold_all_ones.
    + rewrite length_map, length_combine, !length_seq, Nat.min_id.
      field. pose proof (inject_nat_pos a_inhabited). Lqa.lra.
    + intros x Hx. apply in_map_iff in Hx as (ij & <- & Hij).
      destruct ij as [i j]. pose proof (in_combine_l _ _ _ _ Hij) as Hi.
      apply in_seq in Hi. simpl.
      assert (E : i = j).
      { clear Hi. revert Hij. generalize 0 at 1 2. generalize n.
        intros m; induction m as [|m IH]; intros s; simpl; [tauto|].
        intros [[= <- <-] | H]; [reflexivity | now apply (IH (S s))]. }
      subst j. apply self_sim; lia.
Qed.

End SelfScore.

Section SmallAssignments.

Local Open Scope nat_scope.

(** A matching of a cost matrix with a single row or a single column is
    one pair. *)
Lemma single_assignment (cost : list (list npfloat)) (idx : list (nat * nat)) :
  is_assignment cost idx ->
  Nat.min (length cost) (n_columns cost) = 1 ->
  exists i j, idx = [(i, j)] /\ i < length cost /\ j < n_columns cost.
Proof.
  intros H Hmin. pose proof (asg_size H) as Hlen. rewrite Hmin in Hlen.
  destruct idx as [|[i j] [|? ?]]; try discriminate.
  exists i, j. split; [reflexivity|].
  pose proof (asg_rows H) as Hr. pose proof (asg_cols H) as Hc.
  inversion Hr; inversion Hc; subst. simpl in *. lia.
Qed.

Lemma single_is_assignment (cost : list (list npfloat)) (i j : nat) :
  Nat.min (length cost) (n_columns cost) = 1 ->
  i < length cost -> j < n_columns cost ->
  is_assignment cost [(i, j)].
Proof.
  intros Hmin Hi Hj. constructor; simpl.
  - repeat constructor. exact Hi.
  - repeat constructor. exact Hj.
  - repeat constructor.
  - repeat constructor. intros [].
  - now rewrite Hmin.
Qed.

End SmallAssignments.

(** C4, as the code has it.  (1) For a set [a] that is not empty, whose
    biclusters are pairwise distinct and not empty, and an optimal matching,
    [consensus_score(a, a)] is 1.  (2) For two sets of biclusters of one
    matrix, [a] not empty and no bicluster of [a] empty together with one of
    [b], the score is a number of [0, 1]; when [a] has no more biclusters
    than [b] it is the sum of the similarities at the matched positions
    divided by [max(n_a, n_b)]; and it is 1 only when the two sets have the
    same size and every bicluster of one has a counterpart of similarity 1
    in the other. *)
Theorem consensus_score_matching :
  (forall (linear_assignment : solver) (n_rows n_cols : nat) (a : biclusters)
          (m : list (list npfloat)) (idx : list (nat * nat)),
      over_matrix n_rows n_cols a ->
      all_nonempty a ->
      pairwise_distinct a ->
      (1 <= length (fst a))%nat ->
      _pairwise_similarity a a _jaccard = Ok m ->
      solves linear_assignment (cost_of m) idx ->
      exists score,
        consensus_score linear_assignment a a = Ok score /\ is_one score)
  /\
  (forall (linear_assignment : solver) (n_rows n_cols : nat) (a b : biclusters)
          (m : list (list npfloat)) (idx : list (nat * nat)),
      over_matrix n_rows n_cols a ->
      over_matrix n_rows n_cols b ->
      no_empty_pair a b ->
      (1 <= length (fst a))%nat ->
      _pairwise_similarity a b _jaccard = Ok m ->
      linear_assignment (cost_of m) = Ok idx ->
      is_assignment (cost_of m) idx ->
      exists score,
        consensus_score linear_assignment a b = Ok score
        /\ in_unit score
        /\ ((length (fst a) <= length (fst b))%nat ->
            score = fdiv_nat (total m idx)
                             (Nat.max (length (fst a)) (length (fst b))))
        /\ (is_one score ->
            length (fst a) = length (fst b)
            /\ (forall i, (i < length (fst a))%nat ->
                  exists j, (j < length (fst b))%nat /\ is_one (entry m (i, j)))
            /\ (forall j, (j < length (fst b))%nat ->
                  exists i, (i < length (fst a))%nat /\ is_one (entry m (i, j))))).
Proof.
  split.
  - intros la n_rows n_cols a m idx Ha Hcells Hdist Hn Hm (Hs & Hasg & Hopt).
    assert (Hpairs : no_empty_pair a a) by (now apply self_pairs).
    rewrite (pairwise_similarity_value Ha Ha Hpairs) in Hm.
    injection Hm as <-.
    destruct (self_score la Ha Hcells Hdist Hn Hs Hasg Hopt) as (q & E & Hq).
    exists (Fin q). split; [exact E | exact Hq].
  - intros la n_rows n_cols a b m idx Ha Hb Hpairs Hn Hm Hs Hasg.
    rewrite (pairwise_similarity_value Ha Hb Hpairs) in Hm.
    injection Hm as <-.
    eexists. split; [apply (score_value la Ha Hb Hpairs Hn Hs Hasg)|].
    split; [apply (score_unit Ha Hb Hpairs Hn Hasg)|].
    split.
    + intros Hle.
      pose proof (score_matched la Ha Hb Hpairs Hn Hs Hasg Hle) as E.
      rewrite (score_value la Ha Hb Hpairs Hn Hs Hasg) in E.
      now injection E.
    + intros H1. simpl in H1.
      destruct (score_one Ha Hb Hpairs Hn Hasg H1) as (Hab & Hl & Hr).
      split; [exact Hab|]. split.
      * intros i Hi. destruct (Hl i Hi) as (j & Hj & E).
        exists j. split; [exact Hj|].
        rewrite (sim_matrix_entry a b Hi Hj). exact E.
      * intros j Hj. destruct (Hr j Hj) as (i & Hi & E).
        exists i. split; [exact Hi|].
        rewrite (sim_matrix_entry a b Hi Hj). exact E.
Qed.

(** A pair of biclusters that are both empty makes the similarity, and
    with it the score, the NaN of 0/0, whatever matching the solver
    returns. *)
Lemma consensus_score_not_a_number :
  (forall (linear_assignment : solver) (idx : list (nat * nat)),
      linear_assignment (cost_of [[NaN]]) = Ok idx ->
      is_assignment (cost_of [[NaN]]) idx ->
      consensus_score linear_assignment no_cells no_cells = Ok NaN)
  /\ _pairwise_similarity no_cells no_cells _jaccard = Ok [[NaN]]
  /\ consensus_score linear_assignment_ref no_cells no_cells = Ok NaN
  /\ ~ in_unit NaN.
Proof.
  split; [|split; [reflexivity | split; [reflexivity | intros []]]].
  intros la idx Hs Hasg.
  destruct (single_assignment Hasg eq_refl) as (i & j & -> & Hi & Hj).
  unfold cost_of, n_columns in Hi, Hj. simpl in Hi, Hj.
  assert (i = 0%nat) by lia. assert (j = 0%nat) by lia. subst.
  unfold consensus_score, consensus_score_with.
  change (_pairwise_similarity no_cells no_cells _jaccard) with (Ok [[NaN]]).
  unfold rbind at 1. fold (cost_of [[NaN]]). rewrite Hs. reflexivity.
Qed.

Ltac small_index H :=
  unfold cost_of, n_columns in H; simpl in H.

Ltac small_goal :=
  unfold cost_of, n_columns; simpl; lia.

(** The reference solver meets its contract on a cost matrix with one row
    or one column, given that it does on each candidate pair. *)
Ltac single_pair_cases :=
  let idx' := fresh "idx'" in
  let H := fresh "H" in
  let i := fresh "i" in
  let j := fresh "j" in
  let Hi := fresh "Hi" in
  let Hj := fresh "Hj" in
  intros idx' H;
  destruct (single_assignment H eq_refl) as (i & j & -> & Hi & Hj);
  small_index Hi; small_index Hj;
  repeat (destruct i as [|i]; try lia);
  repeat (destruct j as [|j]; try lia);
  reflexivity.

Lemma consensus_score_matching_witness :
  (exists score,
      consensus_score linear_assignment_ref top_row top_row = Ok score
      /\ is_one score)
  /\ (exists score,
         consensus_score linear_assignment_ref top_row both_rows = Ok score
         /\ in_unit score).
Proof.
  split.
  - apply (proj1 consensus_score_matching linear_assignment_ref 2%nat 1%nat
             top_row [[Fin (inject_Z 1 / inject_Z 1)]] [(0%nat, 0%nat)]).
    + repeat split; repeat constructor.
    + intros i Hi. unfold top_row in Hi; simpl in Hi. assert (i = 0%nat) by lia. subst. reflexivity.
    + intros i j Hi Hj _. unfold top_row in Hi, Hj; simpl in Hi, Hj. lia.
    + unfold top_row; simpl. lia.
    + reflexivity.
    + split; [reflexivity|]. split.
      * apply single_is_assignment; [reflexivity | small_goal | small_goal].
      * single_pair_cases.
  - destruct (proj2 consensus_score_matching linear_assignment_ref 2%nat 1%nat
                top_row both_rows
                [[Fin (inject_Z 0 / inject_Z 2); Fin (inject_Z 1 / inject_Z 1)]]
                [(0%nat, 1%nat)]) as (score & E & Hu & _).
    + repeat split; repeat constructor.
    + repeat split; repeat constructor.
    + intros i j Hi Hj. unfold top_row in Hi; simpl in Hi.
      assert (i = 0%nat) by lia. subst. reflexivity.
    + unfold top_row; simpl. lia.
    + reflexivity.
    + reflexivity.
    + apply single_is_assignment; [reflexivity | small_goal | small_goal].
    + exists score. split; [exact E | exact Hu].
Defined.

(** C3 at [both_rows] against [top_row].  The only optimal matching pairs
    the second bicluster of [both_rows] with the bicluster of [top_row],
    similarity 1.  With [both_rows] first the trace reads row 0 of the
    matrix, not the matched row 1, and the score is 0; with [top_row] first
    it is 1/2.  The two orders of the arguments give different scores. *)
Theorem consensus_score_asymmetric :
  forall (linear_assignment : solver) (m_ab m_ba : list (list npfloat))
         (idx_ab idx_ba : list (nat * nat)),
    _pairwise_similarity both_rows top_row _jaccard = Ok m_ab ->
    _pairwise_similarity top_row both_rows _jaccard = Ok m_ba ->
    solves linear_assignment (cost_of m_ab) idx_ab ->
    solves linear_assignment (cost_of m_ba) idx_ba ->
    idx_ab = [(1%nat, 0%nat)]
    /\ idx_ba = [(0%nat, 1%nat)]
    /\ is_one (entry m_ab (1%nat, 0%nat))
    /\ exists s_ab s_ba,
        consensus_score linear_assignment both_rows top_row = Ok (Fin s_ab)
        /\ consensus_score linear_assignment top_row both_rows = Ok (Fin s_ba)
        /\ (s_ab == 0)%Q
        /\ (s_ba == 1 # 2)%Q.
Proof.
  intros la m_ab m_ba idx_ab idx_ba Hab Hba (Sab & Aab & Oab) (Sba & Aba & Oba).
  pose proof Hab as Hab'. vm_compute in Hab'. injection Hab' as <-.
  pose proof Hba as Hba'. vm_compute in Hba'. injection Hba' as <-.
  assert (Eab : idx_ab = [(1%nat, 0%nat)]).
  { destruct (single_assignment Aab eq_refl) as (i & j & -> & Hi & Hj).
    small_index Hi. small_index Hj.
    assert (j = 0%nat) by lia. subst j.
    destruct i as [|[|i]]; [|reflexivity|lia].
    assert (Hc : is_assignment
                   (cost_of [[Fin (0 # 2)]; [Fin (1 # 1)]]) [(1%nat, 0%nat)]).
    { apply single_is_assignment; [reflexivity | small_goal | small_goal]. }
    specialize (Oab _ Hc). vm_compute in Oab. discriminate Oab. }
  assert (Eba : idx_ba = [(0%nat, 1%nat)]).
  { destruct (single_assignment Aba eq_refl) as (i & j & -> & Hi & Hj).
    small_index Hi. small_index Hj.
    assert (i = 0%nat) by lia. subst i.
    destruct j as [|[|j]]; [|reflexivity|lia].
    assert (Hc : is_assignment
                   (cost_of [[Fin (0 # 2); Fin (1 # 1)]]) [(0%nat, 1%nat)]).
    { apply single_is_assignment; [reflexivity | small_goal | small_goal]. }
    specialize (Oba _ Hc). vm_compute in Oba. discriminate Oba. }
  subst idx_ab idx_ba.
  split; [reflexivity|]. split; [reflexivity|]. split; [reflexivity|].
  exists (0 # 4)%Q, (1 # 2)%Q.
  unfold consensus_score, consensus_score_with.
  rewrite Hab, Hba. cbn [rbind].
  unfold cost_of in Sab, Sba. rewrite Sab, Sba.
  split; [reflexivity|]. split; [reflexivity|]. split; reflexivity.
Qed.

Lemma consensus_score_asymmetric_witness :
  exists s_ab s_ba,
    consensus_score linear_assignment_ref both_rows top_row = Ok (Fin s_ab)
    /\ consensus_score linear_assignment_ref top_row both_rows = Ok (Fin s_ba)
    /\ (s_ab == 0)%Q
    /\ (s_ba == 1 # 2)%Q.
Proof.
  apply (@consensus_score_asymmetric linear_assignment_ref
           [[Fin (0 # 2)]; [Fin (1 # 1)]] [[Fin (0 # 2); Fin (1 # 1)]]
           [(1%nat, 0%nat)] [(0%nat, 1%nat)]).
  - reflexivity.
  - reflexivity.
  - split; [reflexivity|]. split.
    + apply single_is_assignment; [reflexivity | small_goal | small_goal].
    + single_pair_cases.
  - split; [reflexivity|]. split.
    + apply single_is_assignment; [reflexivity | small_goal | small_goal].
    + single_pair_cases.
Defined.

(** * Properties of the estimator *)

Import Spectral.

(** ** Validation *)

Section Validation.

Lemma known_method (m : string) :
  existsb (String.eqb m) methods = true <-> In m methods.
Proof.
  rewrite existsb_exists. split.
  - intros (x & Hx & E). apply String.eqb_eq in E. now subst.
  - intros H. exists m. split; [exact H | apply String.eqb_refl].
Qed.

Lemma init_refuses (n_clusters : n_clusters_t) (method : string)
  (n_sv n_bv : Z) (maxiter : option Z) (n_init : Z) (random_state : option Z) :
  refused n_clusters method n_sv n_bv ->
  exists msg,
    __init__ n_clusters method n_sv n_bv maxiter n_init random_state
    = Raise (Exception msg).
Proof.
  unfold refused, __init__. intros H.
  destruct (existsb (String.eqb method) methods) eqn:E1; simpl; [|eauto].
  apply known_method in E1.
  destruct (is_tuple n_clusters && String.eqb method "dhillon") eqn:E2; [eauto|].
  destruct (is_tuple n_clusters && negb (tuple_len n_clusters =? 2)%nat) eqn:E3;
    [eauto|].
  destruct (n_bv >? n_sv)%Z eqn:E4; [eauto|].
  exfalso. destruct H as [H | [[Ht Hm] | [[Ht Hl] | H]]].
  - now apply H.
  - subst method. now rewrite Ht in E2.
  - rewrite Ht in E3. simpl in E3. apply negb_false_iff, Nat.eqb_eq in E3.
    now apply Hl.
  - rewrite Z.gtb_ltb in E4. apply Z.ltb_ge in E4. lia.
Qed.

Lemma init_accepts (n_clusters : n_clusters_t) (method : string)
  (n_sv n_bv : Z) (maxiter : option Z) (n_init : Z) (random_state : option Z) :
  ~ refused n_clusters method n_sv n_bv ->
  __init__ n_clusters method n_sv n_bv maxiter n_init random_state
  = Ok (Estimator n_clusters method n_sv n_bv maxiter n_init random_state
                  None None None None).
Proof.
  unfold refused, __init__. intros H.
  destruct (existsb (String.eqb method) methods) eqn:E1; simpl.
  2:{ exfalso. apply H. left. intros Hin. apply known_method in Hin. congruence. }
  destruct (is_tuple n_clusters) eqn:Et; simpl.
  - destruct (String.eqb_spec method "dhillon") as [Em | Em].
    { exfalso. apply H. right. left. auto. }
    destruct (Nat.eqb_spec (tuple_len n_clusters) 2) as [El | El]; simpl.
    2:{ exfalso. apply H. right. right. left. auto. }
    destruct (n_bv >? n_sv)%Z eqn:E4; [|reflexivity].
    exfalso. apply H. right. right. right. now apply Z.gtb_gt.
  - destruct (n_bv >? n_sv)%Z eqn:E4; [|reflexivity].
    exfalso. apply H. right. right. right. now apply Z.gtb_gt.
Qed.

End Validation.

(** ** Where exceptions come from *)

Section Raising.

Context {W : Type}.

Lemma rraises_ok {A} (a : A) : rraises (Ok a).
Proof. intros e H. discriminate H. Qed.

Lemma rraises_raise {A} (e : exn) : foreign e -> rraises (@Raise A e).
Proof. intros He e' [= <-]. exact He. Qed.

Lemma rraises_rbind {A B} (r : result A) (f : A -> result B) :
  rraises r -> (forall a, rraises (f a)) -> rraises (rbind r f).
Proof.
  intros Hr Hf e. destruct r as [a | e0]; simpl.
  - apply Hf.
  - intros [= <-]. now apply Hr.
Qed.

Lemma rraises_mapM {A B} (f : A -> result B) (l : list A) :
  (forall x, rraises (f x)) -> rraises (mapM f l).
Proof.
  intros Hf. induction l as [|x l IH]; simpl.
  - apply rraises_ok.
  - intros e. specialize (Hf x).
    destruct (f x) as [y | e0]; [|intros [= <-]; now apply Hf].
    destruct (mapM f l) as [ys | e0]; [discriminate|].
    intros [= <-]. now apply IH.
Qed.

Lemma rraises_getitem {A} (row : list A) (j : nat) : rraises (getitem row j).
Proof.
  unfold getitem. destruct (nth_error row j);
    [apply rraises_ok | now apply rraises_raise].
Qed.

Lemma rraises_of_outcome {A} (o : outcome A) : rraises (of_outcome o).
Proof.
  destruct o; [apply rraises_ok | now apply rraises_raise].
Qed.

Lemma rraises_vstack {A} (l : list (list A)) : rraises (np_vstack l).
Proof.
  destruct l; [now apply rraises_raise | apply rraises_ok].
Qed.

Lemma raises_ret {A} (a : A) : raises (@ret W A a).
Proof. intros w e w' H. discriminate H. Qed.

Lemma raises_throw {A} (e : exn) : foreign e -> raises (@throw W A e).
Proof. intros He w e' w' [= <- _]. exact He. Qed.

Lemma raises_lift {A} (r : result A) : rraises r -> raises (@lift W A r).
Proof. intros Hr w e w' [= E _]. now apply Hr. Qed.

Lemma raises_bind {A B} (m : M W A) (f : A -> M W B) :
  raises m -> (forall a, raises (f a)) -> raises (bind m f).
Proof.
  intros Hm Hf w e w'. unfold bind.
  destruct (m w) as [[a | e0] w0] eqn:E.
  - apply Hf.
  - intros [= <- _]. now apply (Hm w e0 w0).
Qed.

Lemma raises_mapMW {A B} (f : A -> M W B) (l : list A) :
  (forall x, raises (f x)) -> raises (mapMW f l).
Proof.
  intros Hf. induction l as [|x l IH]; simpl.
  - apply raises_ret.
  - apply raises_bind; [apply Hf|]. intros y.
    apply raises_bind; [apply IH|]. intros ys. apply raises_ret.
Qed.

End Raising.

Create HintDb foreign.

#[export] Hint Resolve rraises_ok rraises_getitem rraises_of_outcome
  rraises_vstack raises_ret raises_lift : foreign.
#[export] Hint Extern 1 (foreign _) => exact I : foreign.

Ltac raising :=
  repeat
    match goal with
    | |- raises (bind _ _) => apply raises_bind; [|intros ?]
    | |- raises (ret _) => apply raises_ret
    | |- raises (throw _) => apply raises_throw; exact I
    | |- raises (lift _) => apply raises_lift
    | |- raises (mapMW _ _) => apply raises_mapMW; intros ?
    | |- rraises (rbind _ _) => apply rraises_rbind; [|intros ?]
    | |- rraises (Ok _) => apply rraises_ok
    | |- rraises (Raise _) => apply rraises_raise; exact I
    | |- rraises (mapM _ _) => apply rraises_mapM; intros ?
    | |- rraises (match ?x with (_, _) => _ end) => destruct x
    | |- raises (match ?x with (_, _) => _ end) => destruct x
    | |- rraises (if ?c then _ else _) => destruct c
    | |- raises (if ?c then _ else _) => destruct c
    end;
  auto with foreign.

Section RaisingOfTheModule.

Context {F W : Type} {num : Numeric F} {lib : Library F W}.

Lemma rraises_np_min (X : matrix F) : rraises (np_min X).
Proof. unfold np_min. destruct (concat X); raising. Qed.

Lemma rraises_make_nonnegative (X : matrix F) (m : F) :
  rraises (make_nonnegative X m).
Proof. unfold make_nonnegative. raising. apply rraises_np_min. Qed.

Lemma rraises_scale_preprocess (X : matrix F) : rraises (scale_preprocess X).
Proof. unfold scale_preprocess. raising. apply rraises_make_nonnegative. Qed.

Lemma rraises_bistochastic_loop (n : nat) (tol : F) (X : matrix F) :
  rraises (bistochastic_loop n tol X).
Proof.
  revert X; induction n as [|n IH]; intros X; simpl; raising.
  apply rraises_scale_preprocess.
Qed.

Lemma rraises_bistochastic_preprocess (X : matrix F) (n : nat) (tol : F) :
  rraises (bistochastic_preprocess X n tol).
Proof.
  unfold bistochastic_preprocess. raising;
    [apply rraises_make_nonnegative | apply rraises_bistochastic_loop].
Qed.

Lemma rraises_log_preprocess (X : matrix F) : rraises (log_preprocess X).
Proof. unfold log_preprocess. raising. apply rraises_make_nonnegative. Qed.

Lemma raises_call_k_means (points : matrix F) (k : Z) (rs : option Z) (n : Z) :
  raises (call_k_means points k rs n).
Proof.
  intros w e w'. unfold call_k_means.
  destruct (k_means points k rs n w) as [o w0]. intros [= E _].
  now apply (rraises_of_outcome o).
Qed.

Lemma raises_make_piecewise (k : Z) (rs : option Z) (n : Z) (v : vector F) :
  raises (make_piecewise k rs n v).
Proof. unfold make_piecewise. raising. apply raises_call_k_means. Qed.

Lemma raises_piecewise_dists (vectors : matrix F) (k : Z) (rs : option Z) (n : Z) :
  raises (piecewise_dists vectors k rs n).
Proof.
  unfold piecewise_dists. destruct vectors; raising.
  apply raises_make_piecewise.
Qed.

Lemma raises_fit_best_piecewise (vectors : matrix F) (k c : Z) (rs : option Z)
  (n : Z) : raises (fit_best_piecewise vectors k c rs n).
Proof. unfold fit_best_piecewise. raising. apply raises_piecewise_dists. Qed.

Lemma raises_project_and_cluster (data vectors : matrix F) (k : Z)
  (rs : option Z) (n : Z) : raises (project_and_cluster data vectors k rs n).
Proof. unfold project_and_cluster. raising. apply raises_call_k_means. Qed.

Lemma rraises_scalar_clusters (n : n_clusters_t) : rraises (scalar_clusters n).
Proof. unfold scalar_clusters. destruct n; raising. Qed.

Lemma rraises_n_singular_vals (k : Z) : rraises (n_singular_vals k).
Proof. unfold n_singular_vals. raising. Qed.

Lemma rraises_cluster_counts (n : n_clusters_t) : rraises (cluster_counts n).
Proof.
  unfold cluster_counts. destruct n as [k | [|p [|q [|r t]]]]; raising.
Qed.

Lemma raises_dhillon (self : estimator) (X : matrix F) : raises (_dhillon self X).
Proof.
  unfold _dhillon. raising.
  - apply rraises_scale_preprocess.
  - apply rraises_scalar_clusters.
  - apply rraises_n_singular_vals.
  - apply raises_call_k_means.
Qed.

Lemma raises_kluger (self : estimator) (X : matrix F) : raises (_kluger self X).
Proof.
  unfold _kluger. raising;
    try apply rraises_bistochastic_preprocess;
    try apply rraises_scale_preprocess;
    try apply rraises_log_preprocess;
    try apply rraises_cluster_counts;
    try apply raises_fit_best_piecewise;
    try apply raises_project_and_cluster.
Qed.

End RaisingOfTheModule.

Lemma init_raised (n_clusters : n_clusters_t) (method : string)
  (n_sv n_bv : Z) (maxiter : option Z) (n_init : Z) (random_state : option Z)
  (e : exn) :
  __init__ n_clusters method n_sv n_bv maxiter n_init random_state = Raise e ->
  refused n_clusters method n_sv n_bv /\ exists msg, e = Exception msg.
Proof.
  unfold refused, __init__.
  destruct (existsb (String.eqb method) methods) eqn:E1; simpl.
  2:{ intros [= <-]. split; [|eauto]. left. intros Hin.
      apply known_method in Hin. congruence. }
  destruct (is_tuple n_clusters) eqn:Et; simpl.
  - destruct (String.eqb_spec method "dhillon") as [Em | Em].
    { intros [= <-]. split; [|eauto]. right. left. auto. }
    destruct (Nat.eqb_spec (tuple_len n_clusters) 2) as [El | El]; simpl.
    2:{ intros [= <-]. split; [|eauto]. right. right. left. auto. }
    destruct (n_bv >? n_sv)%Z eqn:E4; [|discriminate].
    intros [= <-]. split; [|eauto]. right. right. right. now apply Z.gtb_gt.
  - destruct (n_bv >? n_sv)%Z eqn:E4; [|discriminate].
    intros [= <-]. split; [|eauto]. right. right. right. now apply Z.gtb_gt.
Qed.

(** C8.  [__init__] raises exactly when the method is none of the four,
    or [n_clusters] is a tuple and the method is dhillon, or [n_clusters]
    is a tuple whose length is not 2, or [n_best_vectors >
    n_singular_vectors]; what it raises is one of its own configuration
    errors; otherwise it returns the estimator holding the configuration
    and no fitted attribute.  [fit] raises one of the module's own
    exceptions exactly when the array is not 2-dimensional; it is then the
    shape error, raised before any collaborator has run. *)
Theorem validation_is_eager :
  (forall (n_clusters : n_clusters_t) (method : string) (n_sv n_bv : Z)
          (maxiter : option Z) (n_init : Z) (random_state : option Z),
      ((exists e,
           __init__ n_clusters method n_sv n_bv maxiter n_init random_state
           = Raise e)
       <-> refused n_clusters method n_sv n_bv)
      /\ (forall e,
             __init__ n_clusters method n_sv n_bv maxiter n_init random_state
             = Raise e -> exists msg, e = Exception msg)
      /\ (~ refused n_clusters method n_sv n_bv ->
          __init__ n_clusters method n_sv n_bv maxiter n_init random_state
          = Ok (Estimator n_clusters method n_sv n_bv maxiter n_init
                          random_state None None None None)))
  /\
  (forall (F W : Type) (num : Numeric F) (lib : Library F W)
          (self : estimator) (X : ndarray F) (w : W),
      ((exists msg w', fit self X w = (Raise (Exception msg), w'))
       <-> ndim X <> 2%nat)
      /\ (ndim X <> 2%nat ->
          fit self X w
          = (Raise (Exception "data array must be 2 dimensional"), w))).
Proof.
  split.
  - intros n_clusters method n_sv n_bv maxiter n_init random_state.
    split; [split|split].
    + intros (e & E). now apply (init_raised _ _ _ _ _ _ _ E).
    + intros H.
      destruct (init_refuses maxiter n_init random_state H) as (msg & E).
      eauto.
    + intros e E. now apply (init_raised _ _ _ _ _ _ _ E).
    + apply init_accepts.
  - intros F W num lib self X w.
    assert (Hbad : ndim X <> 2%nat ->
                   fit self X w
                   = (Raise (Exception "data array must be 2 dimensional"), w)).
    { intros Hn. unfold fit.
      destruct (Nat.eqb_spec (ndim X) 2) as [E | E]; [contradiction|].
      reflexivity. }
    split; [split|exact Hbad].
    + intros (msg & w' & E) Hn.
      unfold fit in E. rewrite Hn in E. simpl in E.
      destruct (String.eqb (method self) "dhillon").
      * apply (raises_dhillon self (as_matrix X)) in E. exact E.
      * apply (raises_kluger self (as_matrix X)) in E. exact E.
    + intros Hn. rewrite (Hbad Hn). eauto.
Qed.

Lemma validation_is_eager_witness :
  (exists e, __init__ (NTuple [2; 3]%Z) "dhillon" 6 3 None 10 None = Raise e)
  /\ __init__ (NInt 3) "bistochastic" 6 3 None 10 None
     = Ok (Estimator (NInt 3) "bistochastic" 6 3 None 10 None None None None None)
  /\ @fit Q nat Q_numeric demo_library
          (Estimator (NInt 3) "bistochastic" 6 3 None 10 None None None None None)
          (Array1 [1%Q; 2%Q]) 0%nat
     = (Raise (Exception "data array must be 2 dimensional"), 0%nat).
Proof.
  split; [|split].
  - apply (proj1 validation_is_eager (NTuple [2; 3]%Z) "dhillon"%string
             6%Z 3%Z None 10%Z None).
    right. left. split; reflexivity.
  - apply (proj1 validation_is_eager (NInt 3) "bistochastic"%string
             6%Z 3%Z None 10%Z None).
    intros [H | [[H _] | [[H _] | H]]].
    + apply H. simpl. tauto.
    + discriminate H.
    + discriminate H.
    + lia.
  - apply (proj2 validation_is_eager Q nat Q_numeric demo_library).
    simpl. lia.
Defined.

(** ** Running a computation to its result *)

Section Inversion.

Context {W : Type}.

Lemma bind_ok {A B} (m : M W A) (f : A -> M W B) (w w' : W) (b : B) :
  bind m f w = (Ok b, w') ->
  exists a w1, m w = (Ok a, w1) /\ f a w1 = (Ok b, w').
Proof.
  unfold bind. destruct (m w) as [[a | e] w1]; [eauto | discriminate].
Qed.

Lemma lift_ok {A} (r : result A) (w w' : W) (a : A) :
  lift r w = (Ok a, w') -> r = Ok a /\ w' = w.
Proof. unfold lift. intros [= -> ->]. auto. Qed.

Lemma ret_ok {A} (a b : A) (w w' : W) :
  ret a w = (Ok b, w') -> b = a /\ w' = w.
Proof. unfold ret. intros [= -> ->]. auto. Qed.

Lemma rbind_ok {A B} (r : result A) (f : A -> result B) (b : B) :
  rbind r f = Ok b -> exists a, r = Ok a /\ f a = Ok b.
Proof. destruct r as [a | e]; simpl; [eauto | discriminate]. Qed.

Lemma vstack_ok {A} (l rows : list (list A)) :
  np_vstack l = Ok rows -> rows = l /\ l <> [].
Proof.
  destruct l; [discriminate|]. intros [= <-]. split; [reflexivity | discriminate].
Qed.

End Inversion.

(** Take a successful run apart, one statement at a time. *)
Ltac run H :=
  repeat
    match type of H with
    | bind _ _ _ = (Ok _, _) =>
        let a := fresh "v" in
        let w := fresh "w" in
        let E := fresh "E" in
        apply bind_ok in H; destruct H as (a & w & E & H)
    | (match ?x with (_, _) => _ end) _ = (Ok _, _) => destruct x
    | (let (_, _) := ?x in _) _ = (Ok _, _) => destruct x
    end.

Section Grid.

Local Open Scope nat_scope.

Variables (A : Type) (f : nat -> nat -> A) (d : A).

Lemma grid_length (p q s : nat) :
  length (flat_map (fun r => map (f r) (seq 0 q)) (seq s p)) = p * q.
Proof.
  revert s; induction p as [|p IH]; intros s; simpl; [reflexivity|].
  now rewrite length_app, length_map, length_seq, IH.
Qed.

Lemma grid_nth (p q s r c : nat) :
  r < p -> c < q ->
  nth (r * q + c) (flat_map (fun r => map (f r) (seq 0 q)) (seq s p)) d
  = f (s + r) c.
Proof.
  revert s r; induction p as [|p IH]; intros s r Hr Hc; [lia|]. simpl.
  destruct r as [|r].
  - simpl. rewrite app_nth1 by (now rewrite length_map, length_seq).
    rewrite (nth_indep _ d (f s 0)) by (now rewrite length_map, length_seq).
    rewrite (map_nth (f s)), seq_nth by exact Hc.
    now rewrite Nat.add_0_r.
  - rewrite app_nth2 by (rewrite length_map, length_seq; simpl; lia).
    rewrite length_map, length_seq.
    replace (S r * q + c - q) with (r * q + c) by (simpl; lia).
    rewrite IH by lia. f_equal. lia.
Qed.

End Grid.

(** ** The checkerboard of the Kluger methods *)

Section Checkerboard.

Context {F W : Type} {num : Numeric F} {lib : Library F W}.

Lemma checkerboard_not_dhillon (m : string) :
  In m checkerboard_methods -> String.eqb m "dhillon" = false.
Proof.
  intros [<- | [<- | [<- | []]]]; reflexivity.
Qed.

Lemma kluger_result (self self' : estimator) (X : matrix F) (w w' : W) :
  _kluger self X w = (Ok self', w') ->
  exists p q row_vector col_vector,
    cluster_counts (n_clusters self) = Ok (p, q)
    /\ rows_ self'
       = Some (flat_map (fun r => map (fun c => labels_eq (unique_inverse row_vector) r)
                                      (range q)) (range p))
    /\ columns_ self'
       = Some (flat_map (fun r => map (fun c => labels_eq (unique_inverse col_vector) c)
                                      (range q)) (range p))
    /\ row_labels_ self' = Some (unique_inverse row_vector)
    /\ column_labels_ self' = Some (unique_inverse col_vector)
    /\ flat_map (fun r => map (fun c => labels_eq (unique_inverse row_vector) r)
                              (range q)) (range p) <> []
    /\ same_configuration self self'.
Proof.
  intros H. unfold _kluger in H. run H.
  apply lift_ok in E1 as [E1 _].
  apply lift_ok in E6 as [E6 _]. apply vstack_ok in E6 as [-> Hne].
  apply lift_ok in E7 as [E7 _]. apply vstack_ok in E7 as [-> _].
  apply ret_ok in H as [-> _].
  do 4 eexists. split; [exact E1|].
  repeat (split; [reflexivity|]).
  split; [exact Hne|]. repeat split.
Qed.

(** C2.  After a successful fit with one of the checkerboard methods and
    cluster counts [(p, q)], [rows_] and [columns_] have [p * q] rows each,
    and for [r < p] and [c < q] the bicluster at position [r * q + c] has
    the row indicator [row_labels_ == r] and the column indicator
    [column_labels_ == c]. *)
Theorem kluger_checkerboard (self self' : estimator) (X : matrix F) (w w' : W)
  (p q : Z) :
  In (method self) checkerboard_methods ->
  cluster_counts (n_clusters self) = Ok (p, q) ->
  fit self (Array2 X) w = (Ok self', w') ->
  exists rows cols row_labels col_labels,
    rows_ self' = Some rows
    /\ columns_ self' = Some cols
    /\ row_labels_ self' = Some row_labels
    /\ column_labels_ self' = Some col_labels
    /\ Z.of_nat (length rows) = (p * q)%Z
    /\ Z.of_nat (length cols) = (p * q)%Z
    /\ forall r c, (Z.of_nat r < p)%Z -> (Z.of_nat c < q)%Z ->
         nth (r * Z.to_nat q + c) rows [] = labels_eq row_labels r
         /\ nth (r * Z.to_nat q + c) cols [] = labels_eq col_labels c.
Proof.
  intros Hm Hpq Hfit. unfold fit in Hfit. simpl in Hfit.
  rewrite (checkerboard_not_dhillon Hm) in Hfit.
  apply kluger_result in Hfit
    as (p' & q' & rv & cv & Hc & Hr & Hcol & Hrl & Hcl & Hne & _).
  rewrite Hpq in Hc. injection Hc as <- <-.
  do 4 eexists.
  split; [exact Hr|]. split; [exact Hcol|].
  split; [exact Hrl|]. split; [exact Hcl|].
  unfold range in *.
  assert (Hlen : (length (flat_map
                    (fun r => map (fun _ : nat => labels_eq (unique_inverse rv) r)
                                  (seq 0 (Z.to_nat q))) (seq 0 (Z.to_nat p)))
                  = Z.to_nat p * Z.to_nat q)%nat) by apply grid_length.
  assert (Hpos : (0 < Z.to_nat p * Z.to_nat q)%nat).
  { destruct (Nat.eq_dec (Z.to_nat p * Z.to_nat q) 0) as [E|]; [|lia].
    exfalso. apply Hne. apply length_zero_iff_nil. now rewrite Hlen. }
  assert (Hp : (0 < p)%Z) by nia. assert (Hq : (0 < q)%Z) by nia.
  split; [rewrite Hlen; nia|].
  split; [rewrite grid_length; nia|].
  intros r c Hr' Hc'. split.
  - apply (grid_nth (fun r _ => labels_eq (unique_inverse rv) r)); lia.
  - apply (grid_nth (fun _ c => labels_eq (unique_inverse cv) c)); lia.
Qed.

End Checkerboard.

(** ** The partition of the Dhillon method *)

Section Shapes.

Context {F W : Type} {num : Numeric F} {lib : Library F W}.

Local Open Scope nat_scope.

Lemma zip_with_length {A B C} (f : A -> B -> C) (l : list A) (l' : list B) :
  length (zip_with f l l') = Nat.min (length l) (length l').
Proof.
  revert l'; induction l as [|x l IH]; intros [|y l']; simpl; auto.
Qed.

Lemma transpose_length (X : matrix F) : length (transpose X) = shape1 X.
Proof. unfold transpose. now rewrite length_map, length_seq. Qed.

Lemma make_nonnegative_shape (X Xn : matrix F) (m : F) :
  make_nonnegative X m = Ok Xn ->
  length Xn = length X /\ shape1 Xn = shape1 X /\ X <> [].
Proof.
  unfold make_nonnegative, np_min. intros H.
  assert (Hne : X <> []) by (intros ->; discriminate H).
  destruct (concat X); [discriminate|]. simpl in H.
  destruct (ltb _ m); injection H as <-.
  - rewrite length_map. unfold shape1.
    destruct X; [contradiction|]. simpl. now rewrite length_map.
  - auto.
Qed.

Lemma scale_preprocess_shape (X an : matrix F) (row_diag col_diag : vector F) :
  scale_preprocess X = Ok (an, row_diag, col_diag) ->
  length row_diag = length X
  /\ length col_diag = shape1 X
  /\ length an = length X
  /\ shape1 an = shape1 X.
Proof.
  unfold scale_preprocess. intros H.
  apply rbind_ok in H as (Xn & Hn & H). injection H as <- <- <-.
  apply make_nonnegative_shape in Hn as (Hl & Hs & Hne).
  unfold sum_axis1, sum_axis0.
  rewrite !length_map, transpose_length, zip_with_length, !length_map.
  rewrite Nat.min_id.
  repeat split; try assumption.
  unfold shape1 in *. destruct Xn as [|x Xn]; [destruct X; simpl in *; congruence|].
  simpl. rewrite zip_with_length, !length_map, transpose_length.
  unfold shape1. simpl. simpl in Hs. lia.
Qed.

Lemma n_singular_vals_positive (k n : Z) :
  n_singular_vals k = Ok n -> (0 < k)%Z /\ (1 <= n)%Z.
Proof.
  unfold n_singular_vals.
  destruct (Z.eqb_spec k 0); [discriminate|].
  destruct (Z.ltb_spec k 0); [discriminate|].
  intros E. assert (En : n = (1 + Z.log2_up k)%Z) by congruence.
  pose proof (Z.log2_up_nonneg k). split; lia.
Qed.

Lemma labels_eq_nth (labels : list nat) (c i : nat) :
  i < length labels ->
  nth i (labels_eq labels c) false = (nth i labels 0 =? c).
Proof.
  intros Hi. unfold labels_eq.
  rewrite (nth_indep _ false ((fun l => l =? c) 0)) by (now rewrite length_map).
  now rewrite (map_nth (fun l => l =? c)).
Qed.

Lemma indicators_nth (labels : list nat) (k : Z) (c : nat) :
  c < Z.to_nat k ->
  nth c (map (labels_eq labels) (range k)) [] = labels_eq labels c.
Proof.
  intros Hc. unfold range.
  rewrite (nth_indep _ [] (labels_eq labels 0))
    by (now rewrite length_map, length_seq).
  now rewrite (map_nth (labels_eq labels)), seq_nth.
Qed.

(** The indicator rows of labels below [k] mark every index exactly once. *)
Lemma indicators_partition (labels : list nat) (k : Z) (i : nat) :
  Forall (fun l => (Z.of_nat l < k)%Z) labels ->
  i < length labels ->
  exists! c, c < length (map (labels_eq labels) (range k))
             /\ nth i (nth c (map (labels_eq labels) (range k)) []) false = true.
Proof.
  intros Hk Hi.
  assert (Hlen : length (map (labels_eq labels) (range k)) = Z.to_nat k)
    by (unfold range; now rewrite length_map, length_seq).
  rewrite Hlen.
  assert (Hl : nth i labels 0 < Z.to_nat k).
  { rewrite Forall_forall in Hk. specialize (Hk _ (nth_In labels 0 Hi)). lia. }
  exists (nth i labels 0). split.
  - split; [exact Hl|].
    rewrite (indicators_nth labels k Hl), (labels_eq_nth labels _ Hi).
    apply Nat.eqb_refl.
  - intros c [Hc E].
    rewrite (indicators_nth labels k Hc), (labels_eq_nth labels _ Hi) in E.
    now apply Nat.eqb_eq in E.
Qed.

End Shapes.

Lemma Forall_take {A} (P : A -> Prop) (n : nat) (l : list A) :
  Forall P l -> Forall P (firstn n l).
Proof.
  intros H; revert n; induction H as [|x l Hx H IH]; intros [|n]; simpl;
    constructor; auto.
Qed.

Lemma Forall_drop {A} (P : A -> Prop) (n : nat) (l : list A) :
  Forall P l -> Forall P (skipn n l).
Proof.
  intros H; revert n; induction H as [|x l Hx H IH]; intros [|n]; simpl;
    auto.
Qed.

Section Partition.

Context {F W : Type} {num : Numeric F} {lib : Library F W}.
Hypothesis clusters : k_means_ok lib.
Hypothesis factors : svds_ok lib.

Local Open Scope nat_scope.

Lemma call_k_means_ok (points c : matrix F) (k : Z) (rs : option Z) (n : Z)
  (labels : list nat) (inertia : F) (w w' : W) :
  call_k_means points k rs n w = (Ok (c, labels, inertia), w') ->
  length labels = length points
  /\ Forall (fun l => (Z.of_nat l < k)%Z) labels.
Proof.
  unfold call_k_means.
  destruct (k_means points k rs n w) as [[[[c0 l0] i0] | why] w0] eqn:E;
    simpl; [|discriminate].
  intros [= -> -> -> ->]. exact (clusters _ _ _ _ _ E).
Qed.

Lemma dhillon_result (self self' : estimator) (X : matrix F) (k : Z) (w w' : W) :
  n_clusters self = NInt k ->
  _dhillon self X w = (Ok self', w') ->
  exists labels,
    length labels = length X + shape1 X
    /\ Forall (fun l => (Z.of_nat l < k)%Z) labels
    /\ (0 < k)%Z
    /\ rows_ self' = Some (map (labels_eq (firstn (length X) labels)) (range k))
    /\ columns_ self' = Some (map (labels_eq (skipn (length X) labels)) (range k))
    /\ row_labels_ self' = row_labels_ self
    /\ column_labels_ self' = column_labels_ self
    /\ same_configuration self self'.
Proof.
  intros Hk H. unfold _dhillon in H. rewrite Hk in H. run H.
  apply lift_ok in E as [E _].
  apply scale_preprocess_shape in E as (Hrd & Hcd & Han & Hs1).
  apply lift_ok in E0 as [E0 _]. injection E0 as <-.
  apply lift_ok in E1 as [E1 _].
  apply n_singular_vals_positive in E1 as [Hkpos Hn].
  apply lift_ok in E2 as [E2 _].
  destruct (svds m v2 (maxiter self)) as [[[u s] vt] | why] eqn:Es;
    [|discriminate].
  injection E2 as -> -> ->.
  destruct (factors _ _ _ Es) as (Hu & Hvt & Hrows).
  destruct (call_k_means_ok _ _ _ _ _ E3) as [Hlen Hbelow].
  apply lift_ok in E4 as [E4 _]. apply vstack_ok in E4 as [-> _].
  apply lift_ok in E5 as [E5 _]. apply vstack_ok in E5 as [-> _].
  apply ret_ok in H as [-> _].
  exists l2. split.
  - rewrite Hlen, length_app, !zip_with_length, transpose_length.
    assert (Hvt1 : shape1 l = shape1 X).
    { unfold shape1 in *. destruct l as [|row l]; [simpl in Hvt; lia|].
      inversion Hrows; subst. simpl. congruence. }
    unfold matrix, vector in *. rewrite Hvt1, Hrd, Hcd, Hu, Han, !Nat.min_id.
    reflexivity.
  - split; [exact Hbelow|]. split; [exact Hkpos|].
    repeat split.
Qed.

(** C1.  After a successful fit of a matrix with the method dhillon and
    [n_clusters = k], [rows_] and [columns_] have [k] rows each; for every
    row index of the matrix exactly one of the [k] indicator rows of
    [rows_] is True at that index, and likewise for every column index in
    [columns_]. *)
Theorem dhillon_partition (self self' : estimator) (X : matrix F) (k : Z)
  (w w' : W) :
  method self = "dhillon"%string ->
  n_clusters self = NInt k ->
  fit self (Array2 X) w = (Ok self', w') ->
  exists rows cols,
    rows_ self' = Some rows
    /\ columns_ self' = Some cols
    /\ Z.of_nat (length rows) = k
    /\ Z.of_nat (length cols) = k
    /\ (forall i, i < shape0 X ->
          exists! c, c < length rows /\ nth i (nth c rows []) false = true)
    /\ (forall j, j < shape1 X ->
          exists! c, c < length cols /\ nth j (nth c cols []) false = true).
Proof.
  intros Hm Hk Hfit. unfold fit in Hfit. simpl in Hfit. rewrite Hm in Hfit.
  simpl in Hfit.
  apply (@dhillon_result self self' X k w w' Hk) in Hfit
    as (labels & Hlen & Hbelow & Hkpos & Hr & Hc & _).
  do 2 eexists. split; [exact Hr|]. split; [exact Hc|].
  split; [unfold range; rewrite length_map, length_seq; lia|].
  split; [unfold range; rewrite length_map, length_seq; lia|]. split.
  - intros i Hi. apply indicators_partition.
    + now apply Forall_take.
    + rewrite length_firstn. unfold shape0 in Hi. lia.
  - intros j Hj. apply indicators_partition.
    + now apply Forall_drop.
    + rewrite length_skipn. lia.
Qed.

End Partition.

(** ** What a fit overwrites *)

(** Split on the scrutinee of a [match] of the goal that holds no other
    [match]. *)
Ltac split_match :=
  match goal with
  | |- context [match ?x with _ => _ end] =>
      lazymatch x with
      | context [match _ with _ => _ end] => fail
      | _ => destruct x
      end
  end.

Section Frame.

Context {F W : Type} {num : Numeric F} {lib : Library F W}.

Lemma dhillon_frame (s1 s2 : estimator) (X : matrix F) (w : W) :
  same_configuration s1 s2 ->
  agree true s1 s2 (_dhillon s1 X w) (_dhillon s2 X w).
Proof.
  destruct s1, s2. unfold same_configuration. simpl.
  intros (-> & -> & -> & -> & -> & -> & ->).
  unfold agree, _dhillon, bind, lift, ret, call_k_means, set_rows_columns,
    same_configuration; simpl.
  repeat split_match; simpl; repeat split; auto; discriminate.
Qed.

Lemma kluger_frame (s1 s2 : estimator) (X : matrix F) (w : W) :
  same_configuration s1 s2 ->
  agree false s1 s2 (_kluger s1 X w) (_kluger s2 X w).
Proof.
  destruct s1, s2. unfold same_configuration. simpl.
  intros (-> & -> & -> & -> & -> & -> & ->).
  unfold agree, _kluger, bind, lift, ret, rbind, set_labels, set_rows_columns,
    same_configuration; simpl.
  repeat split_match; simpl; repeat split; auto; discriminate.
Qed.

Lemma fit_frame (s1 s2 : estimator) (X : ndarray F) (w : W) :
  same_configuration s1 s2 ->
  agree (String.eqb (method s1) "dhillon") s1 s2 (fit s1 X w) (fit s2 X w).
Proof.
  intros H. pose proof H as (_ & Hm & _).
  unfold fit. rewrite <- Hm.
  destruct (negb (ndim X =? 2)%nat); [simpl; auto|].
  destruct (String.eqb (method s1) "dhillon");
    [now apply dhillon_frame | now apply kluger_frame].
Qed.

End Frame.

(** C9, as the code has it.  Whatever an estimator held before, a
    successful fit leaves [rows_] and [columns_] as this call computes them
    from the configuration and the data; a fit with a checkerboard method
    does the same for [row_labels_] and [column_labels_]; a fit with the
    method dhillon leaves [row_labels_] and [column_labels_] as they were. *)
Theorem fit_overwrites (F W : Type) (num : Numeric F) (lib : Library F W)
  (s1 s2 s1' : estimator) (X : ndarray F) (w w' : W) :
  same_configuration s1 s2 ->
  fit s1 X w = (Ok s1', w') ->
  exists s2',
    fit s2 X w = (Ok s2', w')
    /\ rows_ s2' = rows_ s1' /\ columns_ s2' = columns_ s1'
    /\ rows_ s1' <> None /\ columns_ s1' <> None
    /\ same_configuration s1 s1'
    /\ (method s1 <> "dhillon"%string ->
        row_labels_ s2' = row_labels_ s1'
        /\ column_labels_ s2' = column_labels_ s1'
        /\ row_labels_ s1' <> None /\ column_labels_ s1' <> None)
    /\ (method s1 = "dhillon"%string ->
        row_labels_ s1' = row_labels_ s1
        /\ column_labels_ s1' = column_labels_ s1).
Proof.
  intros Hc Hfit. pose proof (fit_frame X w Hc) as H.
  rewrite Hfit in H. unfold agree in H.
  destruct (fit s2 X w) as [[s2' | e] w2]; [|contradiction].
  destruct H as (<- & Hr & Hcol & Hrn & Hcn & Hcfg & Hl).
  exists s2'. split; [reflexivity|].
  repeat (split; [solve [auto]|]).
  split.
  - intros Hm. apply String.eqb_neq in Hm. rewrite Hm in Hl.
    destruct Hl as (E1 & E2 & N1 & N2). auto.
  - intros Hm. apply String.eqb_eq in Hm. rewrite Hm in Hl.
    destruct Hl as (E1 & E2 & _). auto.
Qed.

Lemma demo_k_means_ok : k_means_ok demo_library.
Proof.
  intros points k rs n w c labels inertia w'. simpl. unfold demo_k_means.
  destruct (Z.leb_spec k 0) as [Hk | Hk]; [discriminate|].
  intros [= <- <- <- <-]. split.
  - now rewrite length_map, length_seq.
  - apply Forall_forall. intros l Hl. apply in_map_iff in Hl as (i & <- & _).
    assert (Hmod : ((i + w) mod Z.to_nat k < Z.to_nat k)%nat)
      by (apply Nat.mod_upper_bound; lia).
    lia.
Qed.

Lemma demo_svds_ok : svds_ok demo_library.
Proof.
  intros X k mi u s vt. simpl. unfold demo_svds.
  destruct (Z.leb_spec k 0) as [Hk | Hk]; [discriminate|].
  intros [= <- <- <-]. split; [|split].
  - now rewrite length_map, length_seq.
  - now rewrite length_map, length_seq.
  - apply Forall_forall. intros row Hrow.
    apply in_map_iff in Hrow as (i & <- & _).
    now rewrite length_map, length_seq.
Qed.

Lemma demo_fit_dhillon :
  fit (lib := demo_library) demo_dhillon (Array2 demo_matrix) 0%nat
  = (Ok demo_dhillon_fitted, 1%nat).
Proof. vm_compute. reflexivity. Qed.

Lemma demo_fit_log :
  fit (lib := demo_library) demo_log (Array2 demo_matrix) 0%nat
  = (Ok demo_log_fitted, 14%nat).
Proof. vm_compute. reflexivity. Qed.

Lemma dhillon_partition_witness :
  exists rows cols,
    rows_ demo_dhillon_fitted = Some rows
    /\ columns_ demo_dhillon_fitted = Some cols
    /\ Z.of_nat (length rows) = 2%Z
    /\ Z.of_nat (length cols) = 2%Z.
Proof.
  destruct (@dhillon_partition Q nat Q_numeric demo_library
              demo_k_means_ok demo_svds_ok
              demo_dhillon demo_dhillon_fitted demo_matrix 2%Z 0%nat 1%nat
              eq_refl eq_refl demo_fit_dhillon)
    as (rows & cols & Hr & Hc & Lr & Lc & _).
  exists rows, cols. auto.
Defined.

Lemma kluger_checkerboard_witness :
  exists rows cols,
    rows_ demo_log_fitted = Some rows
    /\ columns_ demo_log_fitted = Some cols
    /\ Z.of_nat (length rows) = 4%Z
    /\ Z.of_nat (length cols) = 4%Z.
Proof.
  destruct (@kluger_checkerboard Q nat Q_numeric demo_library
              demo_log demo_log_fitted demo_matrix 0%nat 14%nat 2%Z 2%Z)
    as (rows & cols & rl & cl & Hr & Hc & _ & _ & Lr & Lc & _).
  - simpl. tauto.
  - reflexivity.
  - exact demo_fit_log.
  - exists rows, cols. auto.
Defined.

Lemma fit_overwrites_witness :
  exists s2',
    fit (lib := demo_library) demo_log_fitted (Array2 demo_matrix) 0%nat
    = (Ok s2', 14%nat)
    /\ rows_ s2' = rows_ demo_log_fitted.
Proof.
  destruct (@fit_overwrites Q nat Q_numeric demo_library
              demo_log demo_log_fitted demo_log_fitted
              (Array2 demo_matrix) 0%nat 14%nat)
    as (s2' & E & Hr & _).
  - repeat split.
  - exact demo_fit_log.
  - exists s2'. auto.
Defined.

(** An estimator fitted with the method log and then, its method set to
    dhillon, fitted again keeps the row labels of the first fit; a new
    estimator of the same configuration, fitted on the same data in the
    same state, has none. *)
Lemma stale_labels_survive :
  same_configuration (set_method demo_log_fitted "dhillon") demo_dhillon
  /\ fit (lib := demo_library) demo_log (Array2 demo_matrix) 0%nat
     = (Ok demo_log_fitted, 14%nat)
  /\ exists again fresh,
      fit (lib := demo_library) (set_method demo_log_fitted "dhillon")
          (Array2 demo_matrix) 14%nat = (Ok again, 15%nat)
      /\ fit (lib := demo_library) demo_dhillon (Array2 demo_matrix) 14%nat
         = (Ok fresh, 15%nat)
      /\ row_labels_ again = row_labels_ demo_log_fitted
      /\ column_labels_ again = column_labels_ demo_log_fitted
      /\ row_labels_ again = Some [0; 1]%nat
      /\ row_labels_ fresh = None.
Proof.
  split; [repeat split|]. split; [exact demo_fit_log|].
  do 2 eexists.
  split; [vm_compute; reflexivity|].
  split; [vm_compute; reflexivity|].
  repeat split.
Qed.

(** ** The best piecewise-constant vectors *)

Section Argsort.

Context {F : Type} {num : Numeric F}.
Hypothesis order : order_laws num.

Local Open Scope nat_scope.

Lemma insert_key_perm (x : nat * F) (l : list (nat * F)) :
  Permutation (insert_key x l) (x :: l).
Proof.
  induction l as [|y l IH]; simpl; [reflexivity|].
  destruct (ltb (snd y) (snd x)); [|reflexivity].
  rewrite IH. apply perm_swap.
Qed.

Lemma sort_perm (l : list (nat * F)) :
  Permutation (fold_right insert_key [] l) l.
Proof.
  induction l as [|x l IH]; simpl; [reflexivity|].
  rewrite insert_key_perm. now constructor.
Qed.

Lemma insert_key_sorted (x : nat * F) (l : list (nat * F)) :
  Sorted key_le l -> Sorted key_le (insert_key x l).
Proof.
  destruct order as [asym _].
  induction l as [|y l IH]; intros H; simpl.
  - repeat constructor.
  - destruct (ltb (snd y) (snd x)) eqn:E.
    + inversion H as [|? ? Hs Hh]; subst. constructor; [now apply IH|].
      destruct l as [|z l]; simpl.
      * constructor. unfold key_le. now apply asym.
      * destruct (ltb (snd z) (snd x)).
        -- inversion Hh; subst. now constructor.
        -- constructor. unfold key_le. now apply asym.
    + constructor; [exact H|]. constructor. exact E.
Qed.

Lemma sort_sorted (l : list (nat * F)) :
  StronglySorted key_le (fold_right insert_key [] l).
Proof.
  apply Sorted_StronglySorted.
  - destruct order as [_ trans]. intros p q r Hpq Hqr. unfold key_le in *.
    now apply (trans (snd p) (snd q) (snd r)).
  - induction l as [|x l IH]; simpl; [constructor|].
    now apply insert_key_sorted.
Qed.

Lemma combine_keys (d : vector F) (s : nat) (p : nat * F) :
  In p (combine (seq s (length d)) d) ->
  s <= fst p < s + length d /\ snd p = nth (fst p - s) d zero.
Proof.
  revert s; induction d as [|x d IH]; intros s; simpl; [tauto|].
  intros [<- | H]; simpl.
  - replace (s - s) with 0 by lia. split; [lia | reflexivity].
  - destruct (IH (S s) H) as [Hr Hk]. split; [lia|].
    rewrite Hk. destruct (fst p - s) as [|n] eqn:E; [lia|].
    f_equal. lia.
Qed.

Lemma map_fst_combine_seq (d : vector F) (s : nat) :
  map fst (combine (seq s (length d)) d) = seq s (length d).
Proof.
  revert s; induction d as [|x d IH]; intros s; simpl; [reflexivity|].
  now rewrite IH.
Qed.

Lemma argsort_perm (d : vector F) :
  Permutation (argsort d) (seq 0 (length d)).
Proof.
  unfold argsort.
  pose proof (Permutation_map fst (sort_perm (combine (seq 0 (length d)) d))) as H.
  now rewrite map_fst_combine_seq in H.
Qed.

Lemma sorted_map_fst (d : vector F) (l : list (nat * F)) :
  (forall p, In p l -> snd p = nth (fst p) d zero) ->
  StronglySorted key_le l ->
  StronglySorted (not_greater d) (map fst l).
Proof.
  intros Hk H. induction H as [|p l H IH Hp]; simpl; constructor.
  - apply IH. intros q Hq. apply Hk. now right.
  - apply Forall_forall. intros j Hj. apply in_map_iff in Hj as (q & <- & Hq).
    rewrite Forall_forall in Hp. specialize (Hp q Hq).
    unfold not_greater, key_le in *.
    rewrite <- (Hk p (or_introl eq_refl)), <- (Hk q (or_intror Hq)). exact Hp.
Qed.

Lemma argsort_sorted (d : vector F) :
  StronglySorted (not_greater d) (argsort d).
Proof.
  unfold argsort. apply sorted_map_fst; [|apply sort_sorted].
  intros p Hp.
  apply (Permutation_in _ (sort_perm _)) in Hp.
  destruct (combine_keys d 0 p Hp) as [_ E].
  now rewrite Nat.sub_0_r in E.
Qed.

Lemma sorted_firstn {A} (R : A -> A -> Prop) (n : nat) (l : list A) :
  StronglySorted R l -> StronglySorted R (firstn n l).
Proof.
  intros H; revert n; induction H as [|x l H IH Hx]; intros [|n]; simpl;
    constructor; auto.
  now apply Forall_take.
Qed.

Lemma nodup_firstn {A} (n : nat) (l : list A) :
  NoDup l -> NoDup (firstn n l).
Proof.
  intros H; revert n; induction H as [|x l Hx H IH]; intros [|n]; simpl;
    constructor; auto.
  intros Hin. apply Hx.
  rewrite <- (firstn_skipn n l). apply in_or_app. now left.
Qed.

End Argsort.

Section Selecting.

Context {F W : Type} {num : Numeric F} {lib : Library F W}.
Hypothesis order : order_laws num.

Local Open Scope nat_scope.

Lemma mapMW_length {A B} (f : A -> M W B) (l : list A) (ys : list B) (w w' : W) :
  mapMW f l w = (Ok ys, w') -> length ys = length l.
Proof.
  revert ys w w'; induction l as [|x l IH]; intros ys w w' H; simpl in H.
  - apply ret_ok in H as [-> _]. reflexivity.
  - run H. apply ret_ok in H as [-> _]. simpl. f_equal. eapply IH. eassumption.
Qed.

Lemma piecewise_dists_length (vectors : matrix F) (k : Z) (rs : option Z)
  (n : Z) (dists : vector F) (w w' : W) :
  piecewise_dists vectors k rs n w = (Ok dists, w') ->
  length dists = length vectors.
Proof.
  unfold piecewise_dists. destruct vectors as [|v vs]; [discriminate|].
  intros H. run H. apply ret_ok in H as [-> _].
  apply mapMW_length in E.
  unfold msub, matrix, vector in *.
  rewrite length_map, zip_with_length, E. apply Nat.min_id.
Qed.

(** The run of a loop that calls [k_means]: the states of the generator
    between the iterations, each iteration starting where the one before
    it ended. *)
Lemma mapMW_chain {A B} (f : A -> M W B) (l : list A) (ys : list B)
  (w w' : W) (d : A) (e : B) :
  mapMW f l w = (Ok ys, w') ->
  exists states,
    length states = S (length l)
    /\ nth 0 states w = w
    /\ nth (length l) states w = w'
    /\ forall i, i < length l ->
         f (nth i l d) (nth i states w) = (Ok (nth i ys e), nth (S i) states w).
Proof.
  revert ys w w'; induction l as [|x l IH]; intros ys w w' H; simpl in H.
  - apply ret_ok in H as [-> ->]. exists [w]. simpl.
    repeat split. intros i Hi. lia.
  - run H. apply ret_ok in H as [-> ->].
    destruct (IH _ _ _ E0) as (states & Hlen & H0 & Hn & Hstep).
    exists (w :: states). simpl.
    split; [now rewrite Hlen|]. split; [reflexivity|].
    split.
    { rewrite (nth_indep states w w0) by lia. exact Hn. }
    intros i Hi. destruct i as [|i].
    + rewrite (nth_indep states w w0) by lia. now rewrite H0.
    + rewrite (nth_indep states w w0) by lia.
      rewrite (nth_indep states w w0) by lia.
      apply Hstep. lia.
Qed.

Lemma getitem_all {A} (c : list (list A)) (labels : list nat)
  (picked : list (list A)) :
  mapM (getitem c) labels = Ok picked ->
  Forall (fun l => l < length c) labels
  /\ picked = map (fun l => nth l c []) labels.
Proof.
  revert picked; induction labels as [|l labels IH]; intros picked H;
    simpl in H.
  - injection H as <-. split; [constructor | reflexivity].
  - unfold getitem in H at 1.
    destruct (nth_error c l) as [x|] eqn:E; [|discriminate].
    destruct (mapM (getitem c) labels) as [ps|]; [|discriminate].
    injection H as <-. destruct (IH _ eq_refl) as [Hb ->].
    assert (Hl : l < length c) by (apply nth_error_Some; congruence).
    split; [now constructor|].
    simpl. f_equal. rewrite (nth_error_nth' c [] Hl) in E. congruence.
Qed.

(** What [make_piecewise] does with one vector: one call of [k_means] on
    its entries as points, and every entry replaced by the centroid of its
    label. *)
Lemma make_piecewise_ok (n_clusters : Z) (random_state : option Z) (n_init : Z)
  (v p : vector F) (w1 w2 : W) :
  make_piecewise n_clusters random_state n_init v w1 = (Ok p, w2) ->
  exists centroid labels inertia,
    k_means (as_points v) n_clusters random_state n_init w1
    = (Done (centroid, labels, inertia), w2)
    /\ Forall (fun l => l < length centroid) labels
    /\ p = concat (map (fun l => nth l centroid []) labels).
Proof.
  intros H. unfold make_piecewise in H. run H.
  unfold call_k_means in E.
  destruct (k_means (as_points v) n_clusters random_state n_init w1)
    as [[[[c0 l0] i0] | why] w0'] eqn:Ek; simpl in E; [|discriminate].
  injection E as -> -> -> ->.
  apply lift_ok in E0 as [E0 ->]. apply ret_ok in H as [-> ->].
  apply getitem_all in E0 as [Hb ->].
  exists m, l, f. auto.
Qed.

Lemma zip_with_nth {A B C} (g : A -> B -> C) (l : list A) (l' : list B)
  (i : nat) (da : A) (db : B) (dc : C) :
  i < length l -> i < length l' ->
  nth i (zip_with g l l') dc = g (nth i l da) (nth i l' db).
Proof.
  revert l' i; induction l as [|x l IH]; intros [|y l'] i Hi Hi';
    simpl in *; try lia.
  destruct i as [|i]; [reflexivity|]. apply IH; lia.
Qed.

Lemma sorted_app_cross {A} (R : A -> A -> Prop) (l1 l2 : list A) :
  StronglySorted R (l1 ++ l2) ->
  forall x y, In x l1 -> In y l2 -> R x y.
Proof.
  induction l1 as [|z l1 IH]; intros H x y Hx Hy; simpl in *; [tauto|].
  inversion H as [|? ? Hs Hall]; subst.
  destruct Hx as [-> | Hx]; [|now apply IH].
  rewrite Forall_forall in Hall. apply Hall, in_or_app. now right.
Qed.

(** The distances [fit_best_piecewise] ranks by, one per vector: the
    Euclidean norm of the vector minus its piecewise-constant
    approximation. *)
Lemma piecewise_dists_ok (vectors : matrix F) (n_clusters : Z)
  (random_state : option Z) (n_init : Z) (dists : vector F) (w w' : W) :
  piecewise_dists vectors n_clusters random_state n_init w = (Ok dists, w') ->
  exists piecewise states,
    length piecewise = length vectors
    /\ length dists = length vectors
    /\ length states = S (length vectors)
    /\ nth 0 states w = w
    /\ nth (length vectors) states w = w'
    /\ forall i, i < length vectors ->
         exists centroid labels inertia,
           k_means (as_points (nth i vectors [])) n_clusters random_state n_init
                   (nth i states w)
           = (Done (centroid, labels, inertia), nth (S i) states w)
           /\ Forall (fun l => l < length centroid) labels
           /\ nth i piecewise [] = concat (map (fun l => nth l centroid []) labels)
           /\ nth i dists zero
              = np_sqrt (vsum (map (fun x => mul x x)
                                   (zip_with sub (nth i vectors [])
                                                 (nth i piecewise [])))).
Proof.
  intros H. pose proof (piecewise_dists_length _ _ _ _ _ H) as Hd.
  unfold piecewise_dists in H. destruct vectors as [|v0 vs] eqn:Ev; [discriminate|].
  rewrite <- Ev in *. run H. apply ret_ok in H as [-> ->].
  pose proof (mapMW_length _ _ _ E) as Hp.
  destruct (mapMW_chain _ _ _ [] [] E) as (states & Hlen & H0 & Hn & Hstep).
  exists v, states.
  split; [exact Hp|]. split; [exact Hd|]. split; [exact Hlen|].
  split; [exact H0|]. split; [exact Hn|].
  intros i Hi. specialize (Hstep i Hi).
  apply make_piecewise_ok in Hstep as (c & labels & inertia & Ek & Hb & Ep).
  exists c, labels, inertia.
  split; [exact Ek|]. split; [exact Hb|]. split; [exact Ep|].
  unfold msub.
  rewrite (nth_indep _ zero (norm []))
    by (rewrite length_map, zip_with_length; unfold matrix, vector in *; lia).
  rewrite (map_nth norm).
  rewrite (zip_with_nth (zip_with sub) vectors v [] [] [])
    by (unfold matrix, vector in *; lia).
  reflexivity.
Qed.


End Selecting.

(** ** Double centering, in exact arithmetic *)

Section RealSums.

Local Open Scope R_scope.

Local Abbreviation rsum := (@vsum R R_numeric).

Lemma rsum_acc (v : list R) (a : R) :
  fold_left Rplus v a = a + fold_left Rplus v 0.
Proof.
  revert a; induction v as [|x v IH]; intros a; simpl.
  - lra.
  - rewrite (IH (a + x)), (IH (0 + x)). lra.
Qed.

Lemma rsum_nil : rsum [] = 0.
Proof. reflexivity. Qed.

Lemma rsum_cons (x : R) (v : list R) : rsum (x :: v) = x + rsum v.
Proof.
  unfold vsum; simpl. rewrite rsum_acc. lra.
Qed.

Lemma rsum_app (u v : list R) : rsum (u ++ v) = rsum u + rsum v.
Proof.
  induction u as [|x u IH]; simpl.
  - rewrite rsum_nil. lra.
  - rewrite !rsum_cons, IH. lra.
Qed.

Lemma rsum_concat (L : list (list R)) : rsum (concat L) = rsum (map rsum L).
Proof.
  induction L as [|row L IH]; simpl; [reflexivity|].
  now rewrite rsum_app, rsum_cons, IH.
Qed.

Lemma rsum_map_plus {A} (f g : A -> R) (l : list A) :
  rsum (map (fun x => f x + g x) l) = rsum (map f l) + rsum (map g l).
Proof.
  induction l as [|x l IH]; simpl.
  - rewrite rsum_nil. lra.
  - rewrite !rsum_cons, IH. lra.
Qed.

Lemma rsum_map_scale {A} (f : A -> R) (c : R) (l : list A) :
  rsum (map (fun x => f x * c) l) = rsum (map f l) * c.
Proof.
  induction l as [|x l IH]; simpl.
  - rewrite rsum_nil. lra.
  - rewrite !rsum_cons, IH. lra.
Qed.

Lemma rsum_map_const {A} (c : R) (l : list A) :
  rsum (map (fun _ => c) l) = INR (length l) * c.
Proof.
  induction l as [|x l IH].
  - simpl. rewrite rsum_nil. lra.
  - change (length (x :: l)) with (S (length l)). rewrite S_INR.
    simpl. rewrite rsum_cons, IH. lra.
Qed.

Lemma rsum_ext {A} (f g : A -> R) (l : list A) :
  (forall x, In x l -> f x = g x) -> rsum (map f l) = rsum (map g l).
Proof.
  intros H. f_equal. now apply map_ext_in.
Qed.

Lemma map_nth_seq (row : list R) :
  map (fun j => nth j row 0) (seq 0 (length row)) = row.
Proof.
  induction row as [|x row IH]; simpl; [reflexivity|].
  f_equal. rewrite <- seq_shift, map_map. exact IH.
Qed.

Lemma IZR_nat (n : nat) : IZR (Z.of_nat n) = INR n.
Proof. symmetry. apply INR_IZR_INZ. Qed.

End RealSums.

Section Centering.

Local Open Scope R_scope.

Local Abbreviation rsum := (@vsum R R_numeric).
Local Abbreviation rcolumn := (@column R R_numeric).
Local Abbreviation rmean := (@mean R R_numeric).

Lemma rsum_map_combo {A} (f g h : A -> R) (d : R) (l : list A) :
  rsum (map (fun x => f x - g x - h x + d) l)
  = rsum (map f l) - rsum (map g l) - rsum (map h l) + INR (length l) * d.
Proof.
  induction l as [|x l IH].
  - simpl. rewrite !rsum_nil. lra.
  - change (length (x :: l)) with (S (length l)). rewrite S_INR.
    simpl. rewrite !rsum_cons, IH. lra.
Qed.

Lemma zip_with_maps {A B C D} (g : B -> C -> D) (a : A -> B) (b : A -> C)
  (l : list A) :
  zip_with g (map a l) (map b l) = map (fun x => g (a x) (b x)) l.
Proof.
  induction l as [|x l IH]; simpl; [reflexivity | now rewrite IH].
Qed.

Lemma zip_with_map_l {A B C} (g : B -> A -> C) (h : A -> B) (l : list A) :
  zip_with g (map h l) l = map (fun x => g (h x) x) l.
Proof.
  induction l as [|x l IH]; simpl; [reflexivity | now rewrite IH].
Qed.

(** A matrix with [m] rows of [n] entries, [m] and [n] positive. *)
Variables (L : list (list R)) (m n : nat).
Hypothesis rows_m : length L = m.
Hypothesis rows_n : Forall (fun row => length row = n) L.
Hypothesis m_pos : (1 <= m)%nat.
Hypothesis n_pos : (1 <= n)%nat.

Lemma column_sums (K : list (list R)) :
  Forall (fun row => length row = n) K ->
  rsum (map (fun j => rsum (rcolumn j K)) (seq 0 n)) = rsum (map rsum K).
Proof.
  intros H. induction H as [|row K Hrow H IH]; simpl.
  - rewrite (rsum_map_const 0). rewrite rsum_nil. lra.
  - rewrite rsum_cons, <- IH.
    rewrite (rsum_ext (fun j => rsum (nth j row 0 :: rcolumn j K))
                      (fun j => nth j row 0 + rsum (rcolumn j K)))
      by (intros j _; apply rsum_cons).
    rewrite rsum_map_plus. f_equal.
    rewrite <- Hrow. now rewrite map_nth_seq.
Qed.

Lemma shape1_n : shape1 L = n.
Proof.
  unfold shape1. destruct L as [|row K]; [simpl in rows_m; lia|].
  now inversion rows_n.
Qed.

Lemma concat_length (K : list (list R)) :
  Forall (fun row => length row = n) K ->
  length (concat K) = (length K * n)%nat.
Proof.
  intros H. induction H as [|row K Hrow H IH]; simpl; [reflexivity|].
  rewrite length_app, IH, Hrow. reflexivity.
Qed.

Lemma INR_m : INR m <> 0.
Proof. apply not_0_INR. lia. Qed.

Lemma INR_n : INR n <> 0.
Proof. apply not_0_INR. lia. Qed.

Lemma row_mean (row : list R) :
  In row L -> rmean row = rsum row / INR n.
Proof.
  intros H. unfold mean. simpl. rewrite IZR_nat.
  rewrite Forall_forall in rows_n. now rewrite (rows_n _ H).
Qed.

Lemma column_mean (j : nat) :
  rmean (rcolumn j L) = rsum (rcolumn j L) / INR m.
Proof.
  unfold mean. simpl. rewrite IZR_nat. unfold column.
  now rewrite length_map, rows_m.
Qed.

Lemma grand_mean :
  @mean_all R R_numeric L = rsum (map rsum L) / (INR m * INR n).
Proof.
  unfold mean_all, mean. simpl. rewrite IZR_nat, rsum_concat.
  rewrite (concat_length rows_n), rows_m, mult_INR. reflexivity.
Qed.

(** The entries of the centered matrix. *)
Local Abbreviation centered_entry :=
  (fun (row : list R) (j : nat) =>
     nth j row 0 - rsum row / INR n - rsum (rcolumn j L) / INR m
     + rsum (map rsum L) / (INR m * INR n)).

Local Abbreviation centered :=
  (zip_with
     (fun r row =>
        zip_with (fun x c => add (sub (sub x r) c) (@mean_all R R_numeric L))
                 row (@mean_axis0 R R_numeric L))
     (@mean_axis1 R R_numeric L) L).

Lemma centered_form :
  centered = map (fun row => map (centered_entry row) (seq 0 n)) L.
Proof.
  unfold mean_axis1. rewrite zip_with_map_l.
  apply map_ext_in. intros row Hrow.
  unfold mean_axis0, transpose. rewrite shape1_n, map_map.
  pose proof rows_n as Hn. rewrite Forall_forall in Hn.
  rewrite <- (map_nth_seq row) at 1. rewrite (Hn _ Hrow).
  rewrite zip_with_maps. apply map_ext. intros j. simpl.
  rewrite !IZR_nat, (Hn _ Hrow), rsum_concat, (concat_length rows_n), rows_m,
    mult_INR.
  unfold column. now rewrite length_map, rows_m.
Qed.

Lemma centered_row_sum (row : list R) :
  In row L -> rsum (map (centered_entry row) (seq 0 n)) = 0.
Proof.
  intros Hrow. cbv beta.
  rewrite (rsum_map_combo (fun j => nth j row 0)
             (fun _ : nat => rsum row / INR n)
             (fun j => rsum (rcolumn j L) / INR m)).
  rewrite (rsum_map_const (rsum row / INR n)), length_seq.
  unfold Rdiv at 2. rewrite (rsum_map_scale (fun j => rsum (rcolumn j L))).
  rewrite (column_sums rows_n).
  pose proof rows_n as Hn. rewrite Forall_forall in Hn.
  rewrite <- (Hn _ Hrow) at 1. rewrite map_nth_seq.
  pose proof INR_m. pose proof INR_n. field. auto.
Qed.

Lemma centered_column_sum (j : nat) :
  (j < n)%nat ->
  rsum (rcolumn j (map (fun row => map (centered_entry row) (seq 0 n)) L)) = 0.
Proof.
  intros Hj. unfold column. rewrite map_map.
  rewrite (rsum_ext _ (fun row => centered_entry row j)).
  2:{ intros row _.
      rewrite (nth_indep _ 0 (centered_entry row 0%nat))
        by (now rewrite length_map, length_seq).
      rewrite (map_nth (centered_entry row)). now rewrite seq_nth. }
  cbv beta.
  rewrite (rsum_map_combo (fun row => nth j row 0)
             (fun row => rsum row / INR n)
             (fun _ : list R => rsum (rcolumn j L) / INR m)).
  rewrite (rsum_map_const (rsum (rcolumn j L) / INR m)), rows_m.
  unfold Rdiv at 1. rewrite (rsum_map_scale rsum).
  change (map (fun row : list R => nth j row 0) L) with (rcolumn j L).
  pose proof INR_m. pose proof INR_n. field. auto.
Qed.

End Centering.

Section LogPreprocess.

Local Open Scope R_scope.

Context {W : Type} {lib : Library R W}.

Lemma Ok_inj {A} (a b : A) : Ok a = Ok b -> a = b.
Proof. now intros [= ->]. Qed.

Lemma make_nonnegative_rows (X Xn : matrix R) (v : R) (n : nat) :
  Forall (fun row => length row = n) X ->
  make_nonnegative X v = Ok Xn ->
  Forall (fun row => length row = n) Xn
  /\ length Xn = length X
  /\ concat X <> [].
Proof.
  intros Hrows H. unfold make_nonnegative, np_min in H.
  destruct (concat X) as [|x t] eqn:E; [discriminate|]. simpl in H.
  split; [|split; [|discriminate]].
  - destruct (Rlt_dec _ v); injection H as <-; [|exact Hrows].
    apply Forall_forall. intros row Hrow.
    apply in_map_iff in Hrow as (row0 & <- & Hr).
    rewrite Forall_forall in Hrows. rewrite length_map. now apply Hrows.
  - destruct (Rlt_dec _ v); injection H as <-; [apply length_map | reflexivity].
Qed.

Lemma entries_positive (X : matrix R) (n : nat) :
  Forall (fun row => length row = n) X -> concat X <> [] ->
  (1 <= length X)%nat /\ (1 <= n)%nat.
Proof.
  intros Hrows Hne. split.
  - destruct X; [now contradiction Hne | simpl; lia].
  - destruct n as [|n]; [|lia]. exfalso. apply Hne.
    induction Hrows as [|row X Hrow H IH]; simpl; [reflexivity|].
    apply length_zero_iff_nil in Hrow. subst row. simpl.
    apply IH. intros E. apply Hne. simpl. exact E.
Qed.

Lemma log_preprocess_returns (X : matrix R) :
  concat X <> [] -> exists Y, log_preprocess X = Ok Y.
Proof.
  intros Hne. unfold log_preprocess, make_nonnegative, np_min.
  destruct (concat X) as [|x t]; [contradiction|]. simpl.
  destruct (Rlt_dec _ 1); eexists; reflexivity.
Qed.

(** C7.  In exact arithmetic, for a matrix given as rows of one length:
    [log_preprocess] returns as soon as the matrix has an entry, and its
    result has the shape of the argument, every row mean equal to 0 and
    every column mean equal to 0. *)
Theorem log_preprocess_centered (X : matrix R) (n : nat) :
  Forall (fun row => length row = n) X ->
  (concat X <> [] -> exists Y, log_preprocess X = Ok Y)
  /\ forall Y,
      log_preprocess X = Ok Y ->
      length Y = length X
      /\ Forall (fun row => length row = n) Y
      /\ Forall (fun mu => mu = 0) (mean_axis1 Y)
      /\ Forall (fun mu => mu = 0) (mean_axis0 Y).
Proof.
  intros Hrows. split; [apply log_preprocess_returns|].
  intros Y H. unfold log_preprocess in H.
  apply rbind_ok in H as (Xn & Hn & H). apply Ok_inj in H. subst Y.
  destruct (make_nonnegative_rows _ Hrows Hn) as (Hrn & Hlen & Hne).
  destruct (entries_positive Hrows Hne) as [Hm Hpos].
  set (L := map (map np_log) Xn).
  assert (HLm : length L = length X) by (unfold L; now rewrite length_map).
  assert (HLn : Forall (fun row => length row = n) L).
  { unfold L. apply Forall_forall. intros row Hrow.
    apply in_map_iff in Hrow as (r & <- & Hr).
    rewrite Forall_forall in Hrn. rewrite length_map. now apply Hrn. }
  cbv beta zeta. fold L.
  rewrite (centered_form HLm HLn Hm Hpos).
  split; [now rewrite length_map|].
  split.
  { apply Forall_forall. intros row Hrow.
    apply in_map_iff in Hrow as (r & <- & _).
    now rewrite length_map, length_seq. }
  split.
  - unfold mean_axis1. rewrite map_map.
    apply Forall_forall. intros mu Hmu.
    apply in_map_iff in Hmu as (row & <- & Hrow).
    unfold mean. rewrite (centered_row_sum HLm HLn Hm Hpos _ Hrow).
    simpl. unfold Rdiv. apply Rmult_0_l.
  - unfold mean_axis0, transpose. rewrite map_map.
    assert (Hs : shape1 (map (fun row : list R =>
                   map (fun j : nat =>
                     nth j row 0 - vsum row / INR n
                     - vsum (column j L) / INR (length X)
                     + vsum (map vsum L) / (INR (length X) * INR n))
                     (seq 0 n)) L) = n).
    { unfold shape1. destruct L as [|row K]; [simpl in HLm; lia|].
      simpl. now rewrite length_map, length_seq. }
    rewrite Hs.
    apply Forall_forall. intros mu Hmu.
    apply in_map_iff in Hmu as (j & <- & Hj). apply in_seq in Hj.
    unfold mean. rewrite (centered_column_sum L HLm Hm Hpos).
    + simpl. unfold Rdiv. apply Rmult_0_l.
    + lia.
Qed.

End LogPreprocess.

Lemma Q_order_laws : order_laws Q_numeric.
Proof.
  split; simpl.
  - intros x y H. apply negb_true_iff in H. apply negb_false_iff.
    apply Qle_bool_iff. destruct (Qlt_le_dec y x) as [Hlt | Hle].
    + apply Qlt_le_weak in Hlt. apply Qle_bool_iff in Hlt. congruence.
    + exact Hle.
  - intros x y z Hxy Hyz.
    apply negb_false_iff, Qle_bool_iff in Hxy.
    apply negb_false_iff, Qle_bool_iff in Hyz.
    apply negb_false_iff, Qle_bool_iff. now apply Qle_trans with y.
Qed.


Lemma log_preprocess_centered_witness :
  exists Y,
    log_preprocess (lib := real_library) [[1; 2]; [3; 4]]%R = Ok Y
    /\ Forall (fun mu => mu = 0%R) (mean_axis1 Y)
    /\ Forall (fun mu => mu = 0%R) (mean_axis0 Y).
Proof.
  destruct (@log_preprocess_centered unit real_library [[1; 2]; [3; 4]]%R 2%nat)
    as [Hret Hzero].
  - repeat constructor.
  - destruct Hret as (Y & E); [discriminate|].
    exists Y. split; [exact E|]. now apply Hzero.
Defined.

(** * Further properties of the consensus score *)

(** ** The similarity of two biclusters *)

Section Exchange.

Local Open Scope nat_scope.

Lemma zip_with_comm {A B} (f : A -> A -> B) (l l' : list A) :
  (forall x y, f x y = f y x) -> zip_with f l l' = zip_with f l' l.
Proof.
  intros Hf. revert l'; induction l as [|x l IH]; intros [|y l']; simpl;
    try reflexivity.
  now rewrite Hf, IH.
Qed.

Lemma np_mul_comm (a b : list bool) : np_mul a b = np_mul b a.
Proof.
  unfold np_mul.
  destruct (Nat.eqb_spec (length a) (length b)) as [E | E].
  - rewrite <- E, Nat.eqb_refl. f_equal. apply zip_with_comm, andb_comm.
  - destruct (Nat.eqb_spec (length b) (length a)) as [E' | _]; [congruence|].
    destruct (Nat.eqb_spec (length a) 1) as [Ea | Ea],
             (Nat.eqb_spec (length b) 1) as [Eb | Eb]; try congruence.
    + f_equal. apply map_ext. intros x. apply andb_comm.
    + f_equal. apply map_ext. intros x. apply andb_comm.
Qed.

Lemma jaccard_exchange (a_rows a_cols b_rows b_cols : list bool) :
  _jaccard a_rows a_cols b_rows b_cols = _jaccard b_rows b_cols a_rows a_cols.
Proof.
  unfold _jaccard.
  rewrite (np_mul_comm a_rows b_rows), (np_mul_comm a_cols b_cols).
  destruct (np_mul b_rows a_rows) as [rs|]; simpl; [|reflexivity].
  destruct (np_mul b_cols a_cols) as [cs|]; simpl; [|reflexivity].
  do 2 f_equal. lia.
Qed.

Lemma np_mul_raises (a b : list bool) (e : exn) :
  np_mul a b = Raise e -> e = ValueError.
Proof.
  unfold np_mul.
  destruct (length a =? length b); [discriminate|].
  destruct (length a =? 1); [discriminate|].
  destruct (length b =? 1); [discriminate|].
  now intros [= <-].
Qed.

(** X1.  The Jaccard coefficient does not depend on the order of the two
    biclusters, nor on which of the two axes of the matrix is called rows:
    exchanging the biclusters, or the row indicators with the column
    indicators, gives the same number, or an exception of the same class. *)
Theorem jaccard_symmetric (a_rows a_cols b_rows b_cols : list bool) :
  _jaccard a_rows a_cols b_rows b_cols = _jaccard b_rows b_cols a_rows a_cols
  /\ _jaccard a_rows a_cols b_rows b_cols = _jaccard a_cols a_rows b_cols b_rows.
Proof.
  split; [apply jaccard_exchange|].
  unfold _jaccard.
  destruct (np_mul a_rows b_rows) as [rs | e] eqn:Er,
           (np_mul a_cols b_cols) as [cs | e'] eqn:Ec; simpl.
  - do 2 f_equal; lia.
  - reflexivity.
  - apply np_mul_raises in Er. now subst.
  - apply np_mul_raises in Er. apply np_mul_raises in Ec. now subst.
Qed.

End Exchange.

(** ** The matrix of similarities *)

Section Pairwise.

Local Open Scope nat_scope.

Lemma mapM_nth {A B} (f : A -> result B) (l : list A) (ys : list B)
  (i : nat) (d : A) (e : B) :
  mapM f l = Ok ys -> i < length l -> f (nth i l d) = Ok (nth i ys e).
Proof.
  revert ys i; induction l as [|x l IH]; intros ys i H Hi; simpl in *; [lia|].
  destruct (f x) as [y|] eqn:Ex; [|discriminate].
  destruct (mapM f l) as [ys'|] eqn:El; [|discriminate].
  injection H as <-. destruct i as [|i]; simpl; [exact Ex|].
  apply IH; [reflexivity | lia].
Qed.

Lemma mapM_returns {A B} (f : A -> result B) (l : list A) :
  (forall x, In x l -> exists y, f x = Ok y) -> exists ys, mapM f l = Ok ys.
Proof.
  induction l as [|x l IH]; intros H; simpl; [eauto|].
  destruct (H x (or_introl eq_refl)) as (y & ->).
  destruct IH as (ys & ->); [intros z Hz; apply H; now right|].
  eauto.
Qed.

Lemma pairwise_unfold (a b : biclusters) (similarity : similarity_fn)
  (m : list (list npfloat)) :
  _pairwise_similarity a b similarity = Ok m ->
  length (fst a) = length (snd a) /\ length (fst b) = length (snd b)
  /\ mapM (fun i =>
             mapM (fun j => similarity (fst (bicluster a i)) (snd (bicluster a i))
                                       (fst (bicluster b j)) (snd (bicluster b j)))
                  (seq 0 (length (fst b))))
          (seq 0 (length (fst a))) = Ok m.
Proof.
  unfold _pairwise_similarity, _check_rows_and_columns, check_arrays, bicluster.
  destruct (Nat.eqb_spec (length (fst a)) (length (snd a))) as [Ea|];
    [|discriminate].
  destruct (Nat.eqb_spec (length (fst b)) (length (snd b))) as [Eb|];
    [|discriminate].
  simpl. auto.
Qed.

Lemma pairwise_entry (a b : biclusters) (similarity : similarity_fn)
  (m : list (list npfloat)) (i j : nat) :
  _pairwise_similarity a b similarity = Ok m ->
  i < length (fst a) -> j < length (fst b) ->
  length (nth i m []) = length (fst b)
  /\ similarity (fst (bicluster a i)) (snd (bicluster a i))
                (fst (bicluster b j)) (snd (bicluster b j))
     = Ok (nth j (nth i m []) NaN).
Proof.
  intros H Hi Hj. apply pairwise_unfold in H as (_ & _ & H).
  pose proof (@mapM_nth _ _ _ _ _ i 0 [] H) as Hrow.
  rewrite length_seq in Hrow. specialize (Hrow Hi).
  rewrite seq_nth in Hrow by exact Hi. simpl in Hrow.
  split.
  - apply mapM_length in Hrow. now rewrite length_seq in Hrow.
  - pose proof (@mapM_nth _ _ _ _ _ j 0 NaN Hrow) as He.
    rewrite length_seq in He. specialize (He Hj).
    now rewrite seq_nth in He by exact Hj.
Qed.

(** X2.  When [_pairwise_similarity] returns, its result has one row per
    bicluster of [a] and one column per bicluster of [b], and the entry
    [i, j] is what [similarity] returns for bicluster [i] of [a] and
    bicluster [j] of [b].  It returns as soon as the two arrays of each
    set have the same length and [similarity] returns for every pair. *)
Theorem pairwise_similarity_entries (a b : biclusters) (similarity : similarity_fn) :
  (forall m, _pairwise_similarity a b similarity = Ok m ->
     length m = length (fst a)
     /\ Forall (fun row => length row = length (fst b)) m
     /\ forall i j, i < length (fst a) -> j < length (fst b) ->
          similarity (fst (bicluster a i)) (snd (bicluster a i))
                     (fst (bicluster b j)) (snd (bicluster b j))
          = Ok (nth j (nth i m []) NaN))
  /\ (length (fst a) = length (snd a) ->
      length (fst b) = length (snd b) ->
      (forall i j, i < length (fst a) -> j < length (fst b) ->
         exists x, similarity (fst (bicluster a i)) (snd (bicluster a i))
                              (fst (bicluster b j)) (snd (bicluster b j)) = Ok x) ->
      exists m, _pairwise_similarity a b similarity = Ok m).
Proof.
  split.
  - intros m H.
    assert (Hlen : length m = length (fst a)).
    { apply pairwise_unfold in H as (_ & _ & H).
      apply mapM_length in H. now rewrite length_seq in H. }
    split; [exact Hlen|]. split.
    + apply Forall_forall. intros row Hrow.
      apply (In_nth _ _ []) in Hrow as (i & Hi & <-).
      destruct (length (fst b)) as [|nb] eqn:Eb.
      * apply pairwise_unfold in H as (_ & _ & H). rewrite Eb in H.
        pose proof (@mapM_nth _ _ _ _ _ i 0 [] H) as Hrow.
        rewrite length_seq in Hrow.
        rewrite Hlen in Hi. specialize (Hrow Hi). simpl in Hrow.
        now injection Hrow as <-.
      * rewrite <- Eb. apply (@pairwise_entry a b similarity m i 0 H); lia.
    + intros i j Hi Hj. now apply pairwise_entry.
  - intros Ha Hb Hs.
    unfold _pairwise_similarity, _check_rows_and_columns, check_arrays.
    destruct (Nat.eqb_spec (length (fst a)) (length (snd a))); [|contradiction].
    destruct (Nat.eqb_spec (length (fst b)) (length (snd b))); [|contradiction].
    simpl.
    apply mapM_returns. intros i Hi. apply in_seq in Hi.
    apply mapM_returns. intros j Hj. apply in_seq in Hj.
    apply (Hs i j); lia.
Qed.

(** X3.  For a similarity that does not depend on the order of the two
    biclusters, as [_jaccard], exchanging the two sets transposes the
    matrix: [_pairwise_similarity(b, a)] returns when
    [_pairwise_similarity(a, b)] does, and its entry [j, i] is the entry
    [i, j] of the latter. *)
Theorem pairwise_similarity_transposed (a b : biclusters)
  (similarity : similarity_fn) (m : list (list npfloat)) :
  (forall ar ac br bc, similarity ar ac br bc = similarity br bc ar ac) ->
  _pairwise_similarity a b similarity = Ok m ->
  exists m',
    _pairwise_similarity b a similarity = Ok m'
    /\ length m' = length (fst b)
    /\ forall i j, i < length (fst a) -> j < length (fst b) ->
         nth i (nth j m' []) NaN = nth j (nth i m []) NaN.
Proof.
  intros Hsym H.
  destruct (pairwise_unfold _ _ _ H) as (Ea & Eb & _).
  set (g := fun j => map (fun i => nth j (nth i m []) NaN)
                         (seq 0 (length (fst a)))).
  exists (map g (seq 0 (length (fst b)))).
  split; [|split].
  - unfold _pairwise_similarity, _check_rows_and_columns, check_arrays.
    destruct (Nat.eqb_spec (length (fst b)) (length (snd b))); [|contradiction].
    destruct (Nat.eqb_spec (length (fst a)) (length (snd a))); [|contradiction].
    simpl.
    apply mapM_ok_map. intros j Hj. apply in_seq in Hj.
    apply mapM_ok_map. intros i Hi. apply in_seq in Hi.
    rewrite Hsym. apply (@pairwise_entry a b similarity m i j H); lia.
  - now rewrite length_map, length_seq.
  - intros i j Hi Hj.
    rewrite (nth_indep _ [] (g 0)) by (now rewrite length_map, length_seq).
    rewrite (map_nth g), seq_nth by exact Hj. unfold g.
    rewrite (nth_indep _ NaN ((fun i => nth (0 + j) (nth i m []) NaN) 0))
      by (now rewrite length_map, length_seq).
    rewrite (map_nth (fun i => nth (0 + j) (nth i m []) NaN)).
    now rewrite seq_nth by exact Hi.
Qed.

End Pairwise.

Lemma pairwise_similarity_entries_witness :
  (length [[Fin (0 # 2); Fin (1 # 1)]] = length (fst top_row)
   /\ Forall (fun row => length row = length (fst both_rows))
             [[Fin (0 # 2); Fin (1 # 1)]]
   /\ forall i j, (i < length (fst top_row))%nat ->
                  (j < length (fst both_rows))%nat ->
        _jaccard (fst (bicluster top_row i)) (snd (bicluster top_row i))
                 (fst (bicluster both_rows j)) (snd (bicluster both_rows j))
        = Ok (nth j (nth i [[Fin (0 # 2); Fin (1 # 1)]] []) NaN))
  /\ exists m, _pairwise_similarity top_row both_rows _jaccard = Ok m.
Proof.
  split.
  - apply (proj1 (pairwise_similarity_entries top_row both_rows _jaccard)).
    reflexivity.
  - apply (proj2 (pairwise_similarity_entries top_row both_rows _jaccard)).
    + reflexivity.
    + reflexivity.
    + intros i j Hi Hj. unfold top_row in Hi. unfold both_rows in Hj.
      simpl in Hi, Hj.
      destruct i as [|i]; [|lia].
      destruct j as [|[|j]]; [eexists; reflexivity | eexists; reflexivity | lia].
Defined.

Lemma pairwise_similarity_transposed_witness :
  exists m',
    _pairwise_similarity both_rows top_row _jaccard = Ok m'
    /\ length m' = length (fst both_rows)
    /\ forall i j, (i < length (fst top_row))%nat ->
                   (j < length (fst both_rows))%nat ->
         nth i (nth j m' []) NaN
         = nth j (nth i [[Fin (0 # 2); Fin (1 # 1)]] []) NaN.
Proof.
  apply (@pairwise_similarity_transposed top_row both_rows _jaccard
           [[Fin (0 # 2); Fin (1 # 1)]] jaccard_exchange).
  reflexivity.
Defined.

(** ** Bounds and symmetry of the score *)

Section ScoreBound.

Local Open Scope nat_scope.

(** X4.  For two sets of biclusters of one matrix, [a] not empty and no
    bicluster of [a] empty together with one of [b], and whatever matching
    the solver returns, the score is at least 0 and at most
    [min(n_a, n_b) / max(n_a, n_b)]: sets of different sizes never reach 1,
    and against an empty set [b] the score is 0. *)
Theorem consensus_score_bounded (linear_assignment : solver)
  (n_rows n_cols : nat) (a b : biclusters) (m : list (list npfloat))
  (idx : list (nat * nat)) :
  over_matrix n_rows n_cols a ->
  over_matrix n_rows n_cols b ->
  no_empty_pair a b ->
  1 <= length (fst a) ->
  _pairwise_similarity a b _jaccard = Ok m ->
  linear_assignment (cost_of m) = Ok idx ->
  is_assignment (cost_of m) idx ->
  exists q,
    consensus_score linear_assignment a b = Ok (Fin q)
    /\ (0 <= q)%Q
    /\ (q <= inject_Z (Z.of_nat (Nat.min (length (fst a)) (length (fst b))))
             / inject_Z (Z.of_nat (Nat.max (length (fst a)) (length (fst b)))))%Q.
Proof.
  intros Ha Hb Hpairs Hn Hm Hs Hasg.
  rewrite (pairwise_similarity_value Ha Hb Hpairs) in Hm. injection Hm as <-.
  eexists. split; [apply (score_value linear_assignment Ha Hb Hpairs Hn Hs Hasg)|].
  pose proof (read_sum_bounds Ha Hb Hpairs Hn Hasg) as [H0 H1].
  pose proof (max_positive a b Hn) as Hpos.
  apply Qinv_lt_0_compat in Hpos.
  split.
  - apply Qmult_le_0_compat; [exact H0 | now apply Qlt_le_weak].
  - apply Qmult_le_compat_r; [exact H1 | now apply Qlt_le_weak].
Qed.

End ScoreBound.

Lemma consensus_score_bounded_witness :
  exists q,
    consensus_score linear_assignment_ref both_rows top_row = Ok (Fin q)
    /\ (0 <= q)%Q
    /\ (q <= inject_Z 1 / inject_Z 2)%Q.
Proof.
  apply (@consensus_score_bounded linear_assignment_ref 2%nat 1%nat
           both_rows top_row [[Fin (0 # 2)]; [Fin (1 # 1)]] [(1%nat, 0%nat)]).
  - repeat split; repeat constructor.
  - repeat split; repeat constructor.
  - intros i j Hi Hj. unfold top_row in Hj; simpl in Hj.
    assert (j = 0%nat) by lia. subst. apply andb_false_r.
  - unfold both_rows; simpl. lia.
  - reflexivity.
  - reflexivity.
  - apply single_is_assignment; [reflexivity | small_goal | small_goal].
Defined.

Section Rearranging.

Local Open Scope nat_scope.

Lemma index_of_lt (x : nat) (l : list nat) :
  In x l -> index_of x l < length l.
Proof.
  induction l as [|y l IH]; simpl; [tauto|].
  intros H. destruct (Nat.eqb_spec x y) as [E | E]; [lia|].
  destruct H as [H | H]; [congruence|]. apply IH in H. lia.
Qed.

Lemma index_of_nth (l : list nat) (k : nat) :
  NoDup l -> k < length l -> index_of (nth k l 0) l = k.
Proof.
  revert k; induction l as [|y l IH]; intros k Hnd Hk; simpl in *; [lia|].
  inversion Hnd as [|? ? Hy Hl]; subst.
  destruct k as [|k].
  - now rewrite Nat.eqb_refl.
  - destruct (Nat.eqb_spec (nth k l 0) y) as [E | E].
    + exfalso. apply Hy. rewrite <- E. apply nth_In. lia.
    + f_equal. apply IH; [exact Hl | lia].
Qed.

Lemma map_index_of (l : list nat) :
  NoDup l -> map (fun x => index_of x l) l = seq 0 (length l).
Proof.
  intros Hnd.
  apply (nth_ext _ _ (index_of 0 l) 0).
  - now rewrite length_map, length_seq.
  - intros k Hk. rewrite length_map in Hk.
    rewrite (map_nth (fun x => index_of x l)), seq_nth by exact Hk.
    now apply index_of_nth.
Qed.

Lemma fold_acc_eq (l : list Q) (acc acc' : Q) :
  (acc == acc')%Q -> (fold_left Qplus l acc == fold_left Qplus l acc')%Q.
Proof.
  revert acc acc'; induction l as [|x l IH]; intros acc acc' H; simpl;
    [exact H|].
  apply IH. now rewrite H.
Qed.

Lemma fold_shift (l : list Q) (acc : Q) :
  (fold_left Qplus l acc == acc + fold_left Qplus l 0)%Q.
Proof.
  revert acc; induction l as [|x l IH]; intros acc; simpl; [ring|].
  rewrite (IH (acc + x)%Q), (IH (0 + x)%Q). ring.
Qed.

Lemma fold_perm (l l' : list Q) (acc : Q) :
  Permutation l l' -> (fold_left Qplus l acc == fold_left Qplus l' acc)%Q.
Proof.
  intros H. revert acc; induction H as [|x l l' H IH|x y l|l l' l'' H IH H' IH'];
    intros acc; simpl.
  - reflexivity.
  - apply IH.
  - apply fold_acc_eq. ring.
  - now rewrite IH.
Qed.

Lemma fold_complement (l : list Q) :
  (fold_left Qplus (map (fun x => 1 + - x) l) 0
   == inject_Z (Z.of_nat (length l)) - fold_left Qplus l 0)%Q.
Proof.
  induction l as [|x l IH]; simpl.
  - change (inject_Z 0) with 0%Q. ring.
  - rewrite (fold_shift _ (0 + (1 + - x))%Q), (fold_shift _ (0 + x)%Q), IH.
    change (Z.pos (Pos.of_succ_nat (length l))) with (Z.of_nat (S (length l))).
    rewrite inject_succ. ring.
Qed.

End Rearranging.

Section EqualSizes.

Local Open Scope nat_scope.

Lemma sim_exchange (a b : biclusters) (i j : nat) : sim a b i j = sim b a j i.
Proof.
  unfold sim, jaccard_q, common, cells.
  rewrite (zip_with_comm andb (fst (bicluster a i)) (fst (bicluster b j)) andb_comm).
  rewrite (zip_with_comm andb (snd (bicluster a i)) (snd (bicluster b j)) andb_comm).
  do 2 f_equal. lia.
Qed.

Lemma pairs_exchange (a b : biclusters) : no_empty_pair a b -> no_empty_pair b a.
Proof.
  intros H j i Hj Hi. rewrite andb_comm. now apply H.
Qed.

Lemma cost_entry_at (a b : biclusters) (i j : nat) :
  i < length (fst a) -> j < length (fst b) ->
  entry (cost_of (sim_matrix a b)) (i, j) = Fin (1 + - sim a b i j).
Proof.
  intros Hi Hj. unfold entry, cost_of; simpl.
  rewrite (nth_indep _ [] (map (fsub (Fin 1)) []))
    by (rewrite length_map, sim_matrix_length; exact Hi).
  rewrite (map_nth (map (fsub (Fin 1)))).
  rewrite (sim_matrix_row a b Hi).
  rewrite (nth_indep _ NaN (fsub (Fin 1) (Fin (sim a b i 0))))
    by (rewrite !length_map, length_seq; exact Hj).
  rewrite map_map.
  rewrite (map_nth (fun x => fsub (Fin 1) (Fin (sim a b i x)))).
  now rewrite seq_nth.
Qed.

Lemma cost_total_at (a b : biclusters) (l : list (nat * nat)) :
  (forall ij, In ij l -> fst ij < length (fst a) /\ snd ij < length (fst b)) ->
  total (cost_of (sim_matrix a b)) l
  = Fin (fold_left Qplus (map (fun ij => 1 + - sim a b (fst ij) (snd ij))%Q l) 0%Q).
Proof.
  intros H. unfold total, fsum.
  rewrite <- fsum_Fin, map_map. f_equal.
  apply map_ext_in. intros [i j] Hij. destruct (H _ Hij) as [Hi Hj].
  now apply cost_entry_at.
Qed.

(** A matching of all rows of a square cost matrix, read from the columns:
    it is a matching of the transposed matrix over the same pairs. *)
Lemma exchanged_assignment (n : nat) (cost cost' : list (list npfloat))
  (idx : list (nat * nat)) :
  length cost = n -> n_columns cost = n ->
  length cost' = n -> n_columns cost' = n ->
  is_assignment cost idx ->
  is_assignment cost'
    (map (fun r => (r, index_of r (map snd idx))) (seq 0 n))
  /\ Permutation (map (fun ij => (snd ij, fst ij)) idx)
                 (map (fun r => (r, index_of r (map snd idx))) (seq 0 n)).
Proof.
  intros Hl Hc Hl' Hc' [Hr Hcol Hs Hnd Hlen].
  rewrite Hl in Hr. rewrite Hc in Hcol. rewrite Hl, Hc, Nat.min_id in Hlen.
  set (cols := map snd idx) in *.
  assert (Lc : length cols = n) by (unfold cols; now rewrite length_map).
  assert (Bc : Forall (fun j => j < n) cols)
    by (unfold cols; now rewrite Forall_map).
  assert (Hrows : map fst idx = seq 0 n).
  { assert (L : length (map fst idx) = n) by now rewrite length_map.
    rewrite <- L. apply sorted_full_range; [exact Hs|].
    rewrite L, Forall_map. revert Hr. apply Forall_impl. intros; lia. }
  assert (Hperm : Permutation cols (seq 0 n)).
  { apply NoDup_Permutation_bis; [exact Hnd | rewrite length_seq; lia|].
    intros j Hj. rewrite Forall_forall in Bc. apply in_seq.
    specialize (Bc j Hj). lia. }
  split.
  - constructor.
    + rewrite Hl'. apply Forall_forall. intros ij Hij.
      apply in_map_iff in Hij as (r & <- & Hr'). apply in_seq in Hr'. simpl. lia.
    + rewrite Hc'. apply Forall_forall. intros ij Hij.
      apply in_map_iff in Hij as (r & <- & Hr'). apply in_seq in Hr'. simpl.
      rewrite <- Lc. apply index_of_lt.
      apply (@nodup_full cols n Hnd Bc Lc). lia.
    + rewrite map_map. simpl. rewrite map_id. apply sorted_seq.
    + rewrite map_map. simpl.
      apply (Permutation_NoDup
               (Permutation_map (fun r => index_of r cols) Hperm)).
      rewrite (map_index_of Hnd). apply seq_NoDup.
    + rewrite Hl', Hc', length_map, length_seq. lia.
  - apply Permutation_trans
      with (map (fun r => (r, index_of r cols)) cols);
      [|now apply Permutation_map].
    replace (map (fun ij => (snd ij, fst ij)) idx)
      with (map (fun r => (r, index_of r cols)) cols); [reflexivity|].
    apply (nth_ext _ _ (0, index_of 0 cols) (0, 0)).
    + unfold cols. now rewrite !length_map.
    + intros k Hk. rewrite length_map, Lc in Hk.
      rewrite (map_nth (fun r => (r, index_of r cols))).
      rewrite (index_of_nth Hnd) by lia.
      pose proof (map_nth (fun ij : nat * nat => (snd ij, fst ij)) idx (0, 0) k)
        as E.
      simpl in E. rewrite E.
      rewrite <- (combine_fst_snd idx).
      rewrite combine_nth by (now rewrite !length_map).
      simpl. rewrite Hrows, seq_nth by lia. reflexivity.
Qed.

End EqualSizes.

Section SquareAssignments.

Local Open Scope nat_scope.

(** A matching of a cost matrix with two rows and two columns keeps the
    columns in place or exchanges them. *)
Lemma square_assignment (cost : list (list npfloat)) (idx : list (nat * nat)) :
  is_assignment cost idx ->
  length cost = 2 -> n_columns cost = 2 ->
  idx = [(0, 0); (1, 1)] \/ idx = [(0, 1); (1, 0)].
Proof.
  intros H Hr Hc. pose proof (asg_size H) as Hlen. rewrite Hr, Hc in Hlen.
  destruct idx as [|[i j] [|[i' j'] [|? ?]]]; try discriminate.
  pose proof (asg_rows H) as R. pose proof (asg_cols H) as C.
  pose proof (asg_sorted H) as S. pose proof (asg_inj H) as N.
  rewrite Hr in R. rewrite Hc in C.
  apply Forall_cons_iff in R as [R1 R]. apply Forall_cons_iff in R as [R2 _].
  apply Forall_cons_iff in C as [C1 C]. apply Forall_cons_iff in C as [C2 _].
  simpl in *.
  inversion S as [|? ? _ S1]; subst. apply Forall_cons_iff in S1 as [S1 _].
  inversion N as [|? ? N1 _]; subst.
  assert (Hj : j <> j') by (intros ->; apply N1; now left).
  assert (Hi : i = 0 /\ i' = 1) by lia. destruct Hi as [-> ->].
  assert (Hcase : (j = 0 /\ j' = 1) \/ (j = 1 /\ j' = 0)) by lia.
  destruct Hcase as [[-> ->] | [-> ->]]; [now left | now right].
Qed.

Lemma square_is_assignment (cost : list (list npfloat)) (j j' : nat) :
  length cost = 2 -> n_columns cost = 2 ->
  j < 2 -> j' < 2 -> j <> j' ->
  is_assignment cost [(0, j); (1, j')].
Proof.
  intros Hr Hc Hj Hj' Hne. constructor; simpl.
  - rewrite Hr. repeat constructor.
  - rewrite Hc. constructor; [exact Hj|]. constructor; [exact Hj' | constructor].
  - repeat constructor.
  - constructor; [intros [E | []]; congruence|].
    constructor; [intros [] | constructor].
  - now rewrite Hr, Hc.
Qed.

End SquareAssignments.

(** The reference solver meets its contract on a cost matrix with two rows
    and two columns, given that it does on both matchings. *)
Ltac two_pair_cases :=
  let idx' := fresh "idx'" in
  let H := fresh "H" in
  intros idx' H;
  destruct (square_assignment H eq_refl eq_refl) as [-> | ->];
  reflexivity.

Ltac square_solved :=
  split; [reflexivity|]; split;
  [apply square_is_assignment; [reflexivity | reflexivity | lia | lia | lia]
  | two_pair_cases].

Section Symmetry.

Local Open Scope nat_scope.

Lemma assignment_in_range (a b : biclusters) (idx : list (nat * nat)) :
  1 <= length (fst a) ->
  is_assignment (cost_of (sim_matrix a b)) idx ->
  forall ij, In ij idx -> fst ij < length (fst a) /\ snd ij < length (fst b).
Proof.
  intros Hn H ij Hij. split.
  - pose proof (idx_rows a b H) as Hr. rewrite Forall_forall in Hr.
    apply Hr. now apply in_map.
  - pose proof (idx_cols a b Hn H) as Hc. rewrite Forall_forall in Hc.
    apply Hc. now apply in_map.
Qed.

(** The matching of least cost is the one of largest similarity. *)
Lemma optimal_collects_most (a b : biclusters) (idx idx' : list (nat * nat)) :
  1 <= length (fst a) ->
  is_assignment (cost_of (sim_matrix a b)) idx ->
  is_optimal (cost_of (sim_matrix a b)) idx ->
  is_assignment (cost_of (sim_matrix a b)) idx' ->
  (fold_left Qplus (map (fun ij => sim a b (fst ij) (snd ij)) idx') 0
   <= fold_left Qplus (map (fun ij => sim a b (fst ij) (snd ij)) idx) 0)%Q.
Proof.
  intros Hn Hasg Hopt Hasg'.
  specialize (Hopt _ Hasg').
  rewrite (cost_total_at a b idx (assignment_in_range a b Hn Hasg)) in Hopt.
  rewrite (cost_total_at a b idx' (assignment_in_range a b Hn Hasg')) in Hopt.
  simpl in Hopt. apply Qle_bool_iff in Hopt.
  rewrite <- !(map_map (fun ij : nat * nat => sim a b (fst ij) (snd ij))
                       (fun x => (1 + - x)%Q)) in Hopt.
  rewrite !fold_complement, !length_map in Hopt.
  rewrite (idx_length a b Hn Hasg), (idx_length a b Hn Hasg') in Hopt.
  Lqa.lra.
Qed.

(** Between sets of one size, the best matching of [(a, b)] collects at
    least what any matching of [(b, a)] does. *)
Lemma matched_sum_le (a b : biclusters) (idx idx' : list (nat * nat)) :
  length (fst a) = length (fst b) ->
  1 <= length (fst a) ->
  is_assignment (cost_of (sim_matrix a b)) idx ->
  is_optimal (cost_of (sim_matrix a b)) idx ->
  is_assignment (cost_of (sim_matrix b a)) idx' ->
  (fold_left Qplus (map (fun ij => sim b a (fst ij) (snd ij)) idx') 0
   <= fold_left Qplus (map (fun ij => sim a b (fst ij) (snd ij)) idx) 0)%Q.
Proof.
  intros Hsame Hn Hasg Hopt Hasg'.
  assert (Hn' : 1 <= length (fst b)) by lia.
  destruct (@exchanged_assignment (length (fst a))
              (cost_of (sim_matrix b a)) (cost_of (sim_matrix a b)) idx')
    as [Hinv Hperm].
  { rewrite cost_length. lia. }
  { now rewrite cost_columns. }
  { now rewrite cost_length. }
  { rewrite cost_columns by exact Hn. lia. }
  { exact Hasg'. }
  set (inv := map (fun r => (r, index_of r (map snd idx')))
                  (seq 0 (length (fst a)))) in *.
  pose proof (@optimal_collects_most a b idx inv Hn Hasg Hopt Hinv) as Hle.
  assert (E : (fold_left Qplus
                 (map (fun ij => sim a b (fst ij) (snd ij)) inv) 0
               == fold_left Qplus
                    (map (fun ij => sim b a (fst ij) (snd ij)) idx') 0)%Q).
  { rewrite <- (fold_perm 0
       (Permutation_map (fun ij : nat * nat => sim a b (fst ij) (snd ij)) Hperm)).
    rewrite map_map. simpl.
    erewrite map_ext; [reflexivity|].
    intros [i j]. simpl. apply sim_exchange. }
  rewrite <- E. exact Hle.
Qed.

(** X5.  In exact arithmetic, between two sets of the same size the
    consensus score is symmetric: for sets of biclusters of one matrix with
    [n_a = n_b >= 1], no bicluster of one empty together with one of the
    other, and a solver that returns optimal matchings,
    [consensus_score(a, b)] and [consensus_score(b, a)] are the same
    number.  Exact arithmetic: the similarities are rationals, and
    [1. - matrix], the sum of [np.trace] and the division are computed
    without rounding; in float64 [np.trace] adds the matched similarities
    in the order of the rows of its first argument, and the two sums can
    differ by the rounding. *)
Theorem consensus_score_symmetric_for_equal_sizes
  (linear_assignment : solver) (n_rows n_cols : nat) (a b : biclusters)
  (m_ab m_ba : list (list npfloat)) (idx_ab idx_ba : list (nat * nat)) :
  over_matrix n_rows n_cols a ->
  over_matrix n_rows n_cols b ->
  no_empty_pair a b ->
  length (fst a) = length (fst b) ->
  1 <= length (fst a) ->
  _pairwise_similarity a b _jaccard = Ok m_ab ->
  _pairwise_similarity b a _jaccard = Ok m_ba ->
  solves linear_assignment (cost_of m_ab) idx_ab ->
  solves linear_assignment (cost_of m_ba) idx_ba ->
  exists s_ab s_ba,
    consensus_score linear_assignment a b = Ok (Fin s_ab)
    /\ consensus_score linear_assignment b a = Ok (Fin s_ba)
    /\ (s_ab == s_ba)%Q.
Proof.
  intros Ha Hb Hpairs Hsame Hn Hab Hba (Sab & Aab & Oab) (Sba & Aba & Oba).
  pose proof (pairs_exchange Hpairs) as Hpairs'.
  assert (Hn' : 1 <= length (fst b)) by lia.
  rewrite (pairwise_similarity_value Ha Hb Hpairs) in Hab. injection Hab as <-.
  rewrite (pairwise_similarity_value Hb Ha Hpairs') in Hba. injection Hba as <-.
  do 2 eexists.
  split; [apply (score_value linear_assignment Ha Hb Hpairs Hn Sab Aab)|].
  split; [apply (score_value linear_assignment Hb Ha Hpairs' Hn' Sba Aba)|].
  rewrite (read_matched a b Hn Aab) by lia.
  rewrite (read_matched b a Hn' Aba) by lia.
  rewrite (Nat.max_comm (length (fst b))).
  assert (E : (fold_left Qplus (map (fun ij => sim a b (fst ij) (snd ij)) idx_ab) 0
               == fold_left Qplus (map (fun ij => sim b a (fst ij) (snd ij)) idx_ba) 0)%Q).
  { apply Qle_antisym.
    - apply matched_sum_le; auto; lia.
    - apply matched_sum_le; auto; lia. }
  now rewrite E.
Qed.

End Symmetry.

Lemma consensus_score_symmetric_for_equal_sizes_witness :
  exists s_ab s_ba,
    consensus_score linear_assignment_ref both_rows nested_rows = Ok (Fin s_ab)
    /\ consensus_score linear_assignment_ref nested_rows both_rows = Ok (Fin s_ba)
    /\ (s_ab == s_ba)%Q.
Proof.
  apply (@consensus_score_symmetric_for_equal_sizes linear_assignment_ref
           2%nat 1%nat both_rows nested_rows
           [[Fin (inject_Z 0 / inject_Z 2); Fin (inject_Z 1 / inject_Z 2)];
            [Fin (inject_Z 1 / inject_Z 1); Fin (inject_Z 1 / inject_Z 2)]]
           [[Fin (inject_Z 0 / inject_Z 2); Fin (inject_Z 1 / inject_Z 1)];
            [Fin (inject_Z 1 / inject_Z 2); Fin (inject_Z 1 / inject_Z 2)]]
           [(0%nat, 1%nat); (1%nat, 0%nat)] [(0%nat, 1%nat); (1%nat, 0%nat)]).
  - repeat split; repeat constructor.
  - repeat split; repeat constructor.
  - intros i j Hi Hj. unfold both_rows in Hi; unfold nested_rows in Hj.
    simpl in Hi, Hj.
    destruct i as [|[|i]]; [| |lia]; (destruct j as [|[|j]]; [| |lia]);
      reflexivity.
  - reflexivity.
  - unfold both_rows; simpl. lia.
  - reflexivity.
  - reflexivity.
  - square_solved.
  - square_solved.
Defined.

Section BestMatching.

Local Open Scope nat_scope.

(** X6.  In exact arithmetic, the matching of least cost
    [1 - similarity] is the one of the largest similarity: for
    [1 <= n_a <= n_b] and a solver that returns an optimal matching, no
    one-to-one matching of the biclusters of [a] with biclusters of [b]
    has a larger sum of similarities, divided by [max(n_a, n_b)], than the
    score.  Exact arithmetic: the similarities are rationals, and
    [1. - matrix], the sums and the division are computed without
    rounding; in float64 the order of two sums of rounded costs need not
    be the reverse of the order of the sums of the similarities. *)
Theorem consensus_score_is_best_matching (linear_assignment : solver)
  (n_rows n_cols : nat) (a b : biclusters) (m : list (list npfloat))
  (idx : list (nat * nat)) :
  over_matrix n_rows n_cols a ->
  over_matrix n_rows n_cols b ->
  no_empty_pair a b ->
  1 <= length (fst a) <= length (fst b) ->
  _pairwise_similarity a b _jaccard = Ok m ->
  solves linear_assignment (cost_of m) idx ->
  exists q,
    consensus_score linear_assignment a b = Ok (Fin q)
    /\ forall idx', is_assignment (cost_of m) idx' ->
         exists q',
           fdiv_nat (total m idx') (Nat.max (length (fst a)) (length (fst b)))
           = Fin q'
           /\ (q' <= q)%Q.
Proof.
  intros Ha Hb Hpairs [Hn Hle] Hm (Hs & Hasg & Hopt).
  rewrite (pairwise_similarity_value Ha Hb Hpairs) in Hm. injection Hm as <-.
  eexists. split; [apply (score_value linear_assignment Ha Hb Hpairs Hn Hs Hasg)|].
  intros idx' Hasg'.
  rewrite (total_value a b idx' (assignment_in_range a b Hn Hasg')).
  rewrite (read_matched a b Hn Hasg Hle).
  pose proof (max_positive a b Hn) as Hpos.
  destruct (Nat.max (length (fst a)) (length (fst b))) as [|k] eqn:Ek; [lia|].
  eexists. split; [reflexivity|].
  apply Qmult_le_compat_r.
  - now apply optimal_collects_most.
  - apply Qlt_le_weak, Qinv_lt_0_compat, Hpos.
Qed.

End BestMatching.

Lemma consensus_score_is_best_matching_witness :
  exists q,
    consensus_score linear_assignment_ref both_rows nested_rows = Ok (Fin q)
    /\ forall idx',
         is_assignment
           (cost_of [[Fin (inject_Z 0 / inject_Z 2); Fin (inject_Z 1 / inject_Z 2)];
                     [Fin (inject_Z 1 / inject_Z 1); Fin (inject_Z 1 / inject_Z 2)]])
           idx' ->
         exists q',
           fdiv_nat
             (total [[Fin (inject_Z 0 / inject_Z 2); Fin (inject_Z 1 / inject_Z 2)];
                     [Fin (inject_Z 1 / inject_Z 1); Fin (inject_Z 1 / inject_Z 2)]]
                    idx') 2
           = Fin q'
           /\ (q' <= q)%Q.
Proof.
  apply (@consensus_score_is_best_matching linear_assignment_ref 2%nat 1%nat
           both_rows nested_rows
           [[Fin (inject_Z 0 / inject_Z 2); Fin (inject_Z 1 / inject_Z 2)];
            [Fin (inject_Z 1 / inject_Z 1); Fin (inject_Z 1 / inject_Z 2)]]
           [(0%nat, 1%nat); (1%nat, 0%nat)]).
  - repeat split; repeat constructor.
  - repeat split; repeat constructor.
  - intros i j Hi Hj. unfold both_rows in Hi; unfold nested_rows in Hj.
    simpl in Hi, Hj.
    destruct i as [|[|i]]; [| |lia]; (destruct j as [|[|j]]; [| |lia]);
      reflexivity.
  - unfold both_rows, nested_rows; simpl. lia.
  - reflexivity.
  - square_solved.
Defined.

(** ** The order of the biclusters *)

Section Injections.

Local Open Scope nat_scope.

Lemma nodup_map_on {A B} (f : A -> B) (l : list A) :
  (forall x y, In x l -> In y l -> f x = f y -> x = y) ->
  NoDup l -> NoDup (map f l).
Proof.
  intros Hf H. induction H as [|x l Hx H IH]; simpl; constructor.
  - intros Hin. apply in_map_iff in Hin as (y & E & Hy).
    apply Hf in E; [|now right|now left]. now subst.
  - apply IH. intros y z Hy Hz. apply Hf; now right.
Qed.

Lemma nth_index_of (x : nat) (l : list nat) :
  In x l -> nth (index_of x l) l 0 = x.
Proof.
  induction l as [|y l IH]; simpl; [tauto|].
  intros H. destruct (Nat.eqb_spec x y) as [E | E]; [now subst|].
  destruct H as [H | H]; [congruence | now apply IH].
Qed.

End Injections.

Section Reordering.

Local Open Scope nat_scope.

Variables (n_rows n_cols : nat) (a b : biclusters) (sigma : list nat).
Hypothesis a_shape : over_matrix n_rows n_cols a.
Hypothesis b_shape : over_matrix n_rows n_cols b.
Hypothesis some_cell : no_empty_pair a b.
Hypothesis listed : Permutation sigma (seq 0 (length (fst b))).
Hypothesis a_inhabited : 1 <= length (fst a).

Lemma sigma_length : length sigma = length (fst b).
Proof. now rewrite (Permutation_length listed), length_seq. Qed.

Lemma sigma_nodup : NoDup sigma.
Proof.
  apply (Permutation_NoDup (Permutation_sym listed)), seq_NoDup.
Qed.

Lemma sigma_in (j : nat) : In j sigma <-> j < length (fst b).
Proof.
  split.
  - intros H. apply (Permutation_in _ listed), in_seq in H. lia.
  - intros H. apply (Permutation_in _ (Permutation_sym listed)), in_seq. lia.
Qed.

Lemma sigma_below (j : nat) :
  j < length (fst b) -> nth j sigma 0 < length (fst b).
Proof.
  intros Hj. apply sigma_in, nth_In. now rewrite sigma_length.
Qed.

Lemma reorder_length : length (fst (reorder sigma b)) = length (fst b).
Proof. unfold reorder; simpl. now rewrite length_map, sigma_length. Qed.

Lemma reorder_bicluster (j : nat) :
  j < length (fst b) ->
  bicluster (reorder sigma b) j = bicluster b (nth j sigma 0).
Proof.
  intros Hj. unfold bicluster, reorder; simpl.
  rewrite (nth_indep (map (fun k => nth k (fst b) []) sigma) []
             ((fun k => nth k (fst b) []) 0))
    by (now rewrite length_map, sigma_length).
  rewrite (nth_indep (map (fun k => nth k (snd b) []) sigma) []
             ((fun k => nth k (snd b) []) 0))
    by (now rewrite length_map, sigma_length).
  now rewrite (map_nth (fun k => nth k (fst b) [])),
              (map_nth (fun k => nth k (snd b) [])).
Qed.

Lemma reorder_shape : over_matrix n_rows n_cols (reorder sigma b).
Proof.
  destruct b_shape as (Hl & Hr & Hc). unfold reorder. split; [|split]; simpl.
  - now rewrite !length_map.
  - apply Forall_forall. intros r Hin. apply in_map_iff in Hin as (k & <- & Hk).
    rewrite Forall_forall in Hr. apply Hr, nth_In. now apply sigma_in.
  - apply Forall_forall. intros c Hin. apply in_map_iff in Hin as (k & <- & Hk).
    rewrite Forall_forall in Hc. apply Hc, nth_In. rewrite <- Hl.
    now apply sigma_in.
Qed.

Lemma reorder_pairs : no_empty_pair a (reorder sigma b).
Proof.
  intros i j Hi Hj. rewrite reorder_length in Hj.
  rewrite (reorder_bicluster Hj). apply some_cell; [exact Hi|].
  now apply sigma_below.
Qed.

Lemma reorder_sim (i j : nat) :
  j < length (fst b) -> sim a (reorder sigma b) i j = sim a b i (nth j sigma 0).
Proof.
  intros Hj. unfold sim. now rewrite (reorder_bicluster Hj).
Qed.

Local Abbreviation sim_at := (fun ij : nat * nat => sim a b (fst ij) (snd ij)).
Local Abbreviation sim_at' :=
  (fun ij : nat * nat => sim a (reorder sigma b) (fst ij) (snd ij)).

(** A matching with the reordered set is a matching with the set itself,
    and the other way round, over the same pairs of biclusters. *)
Lemma matching_of_reordered (idx' : list (nat * nat)) :
  is_assignment (cost_of (sim_matrix a (reorder sigma b))) idx' ->
  is_assignment (cost_of (sim_matrix a b))
                (map (fun ij => (fst ij, nth (snd ij) sigma 0)) idx')
  /\ map sim_at (map (fun ij => (fst ij, nth (snd ij) sigma 0)) idx')
     = map sim_at' idx'.
Proof.
  intros H.
  pose proof (assignment_in_range a (reorder sigma b) a_inhabited H) as Hin.
  destruct H as [Hr Hc Hs Hnd Hlen].
  rewrite cost_length in Hr, Hlen.
  rewrite (cost_columns a (reorder sigma b) a_inhabited), reorder_length in Hc, Hlen.
  split.
  - constructor.
    + rewrite cost_length, Forall_map. exact Hr.
    + rewrite (cost_columns a b a_inhabited), Forall_map.
      revert Hc. apply Forall_impl. intros ij Hij. simpl.
      now apply sigma_below.
    + now rewrite map_map.
    + rewrite map_map. simpl.
      rewrite <- (map_map snd (fun j => nth j sigma 0)).
      apply nodup_map_on; [|exact Hnd].
      intros x y Hx Hy E.
      apply (proj1 (NoDup_nth sigma 0) sigma_nodup); auto;
        rewrite sigma_length.
      * apply in_map_iff in Hx as (ij & <- & Hij).
        rewrite Forall_forall in Hc. now apply Hc.
      * apply in_map_iff in Hy as (ij & <- & Hij).
        rewrite Forall_forall in Hc. now apply Hc.
    + now rewrite length_map, cost_length, (cost_columns a b a_inhabited).
  - rewrite map_map. apply map_ext_in. intros [i j] Hij. simpl.
    symmetry. apply reorder_sim.
    destruct (Hin _ Hij) as [_ Hj]. rewrite reorder_length in Hj. exact Hj.
Qed.

Lemma matching_with_reordered (idx : list (nat * nat)) :
  is_assignment (cost_of (sim_matrix a b)) idx ->
  is_assignment (cost_of (sim_matrix a (reorder sigma b)))
                (map (fun ij => (fst ij, index_of (snd ij) sigma)) idx)
  /\ map sim_at' (map (fun ij => (fst ij, index_of (snd ij) sigma)) idx)
     = map sim_at idx.
Proof.
  intros H.
  pose proof (assignment_in_range a b a_inhabited H) as Hin.
  destruct H as [Hr Hc Hs Hnd Hlen].
  rewrite cost_length in Hr, Hlen.
  rewrite (cost_columns a b a_inhabited) in Hc, Hlen.
  split.
  - constructor.
    + rewrite cost_length, Forall_map. exact Hr.
    + rewrite (cost_columns a (reorder sigma b) a_inhabited), reorder_length,
        Forall_map.
      revert Hc. apply Forall_impl. intros ij Hij. simpl.
      rewrite <- sigma_length. apply index_of_lt. now apply sigma_in.
    + now rewrite map_map.
    + rewrite map_map. simpl.
      rewrite <- (map_map snd (fun j => index_of j sigma)).
      apply nodup_map_on; [|exact Hnd].
      intros x y Hx Hy E.
      assert (Ix : In x sigma).
      { apply in_map_iff in Hx as (ij & <- & Hij). apply sigma_in.
        rewrite Forall_forall in Hc. now apply Hc. }
      assert (Iy : In y sigma).
      { apply in_map_iff in Hy as (ij & <- & Hij). apply sigma_in.
        rewrite Forall_forall in Hc. now apply Hc. }
      rewrite <- (nth_index_of _ _ Ix), <- (nth_index_of _ _ Iy). now rewrite E.
    + now rewrite length_map, cost_length,
        (cost_columns a (reorder sigma b) a_inhabited), reorder_length.
  - rewrite map_map. apply map_ext_in. intros [i j] Hij. simpl.
    destruct (Hin _ Hij) as [_ Hj]. simpl in Hj.
    rewrite reorder_sim
      by (rewrite <- sigma_length; apply index_of_lt; now apply sigma_in).
    rewrite nth_index_of by (now apply sigma_in). reflexivity.
Qed.

End Reordering.

Section OrderOfTheSecondSet.

Local Open Scope nat_scope.

(** X16.  In exact arithmetic, for [1 <= n_a <= n_b] and a solver that
    returns optimal matchings, the score does not depend on the order in
    which the biclusters of [b] are listed: [consensus_score(a, b)] and
    [consensus_score(a, (b_rows[sigma], b_cols[sigma]))] are the same
    number for every permutation [sigma] of the biclusters of [b].  Exact
    arithmetic: the similarities are rationals, and [1. - matrix], the sum
    of [np.trace] and the division are computed without rounding; in
    float64 two optimal matchings of equal cost can give sums that differ
    by the rounding. *)
Theorem consensus_score_ignores_order (linear_assignment : solver)
  (n_rows n_cols : nat) (a b : biclusters) (sigma : list nat)
  (m m' : list (list npfloat)) (idx idx' : list (nat * nat)) :
  over_matrix n_rows n_cols a ->
  over_matrix n_rows n_cols b ->
  no_empty_pair a b ->
  1 <= length (fst a) <= length (fst b) ->
  Permutation sigma (seq 0 (length (fst b))) ->
  _pairwise_similarity a b _jaccard = Ok m ->
  _pairwise_similarity a (reorder sigma b) _jaccard = Ok m' ->
  solves linear_assignment (cost_of m) idx ->
  solves linear_assignment (cost_of m') idx' ->
  exists s s',
    consensus_score linear_assignment a b = Ok (Fin s)
    /\ consensus_score linear_assignment a (reorder sigma b) = Ok (Fin s')
    /\ (s == s')%Q.
Proof.
  intros Ha Hb Hpairs [Hn Hle] Hsigma Hm Hm' (Hs & Hasg & Hopt) (Hs' & Hasg' & Hopt').
  pose proof (reorder_shape a Hb Hsigma Hn) as Hb'.
  pose proof (reorder_pairs Hpairs Hsigma Hn) as Hpairs'.
  pose proof (reorder_length b Hsigma) as Lb'.
  rewrite (pairwise_similarity_value Ha Hb Hpairs) in Hm. injection Hm as <-.
  rewrite (pairwise_similarity_value Ha Hb' Hpairs') in Hm'. injection Hm' as <-.
  do 2 eexists.
  split; [apply (score_value linear_assignment Ha Hb Hpairs Hn Hs Hasg)|].
  split; [apply (score_value linear_assignment Ha Hb' Hpairs' Hn Hs' Hasg')|].
  rewrite (read_matched a b Hn Hasg Hle).
  rewrite (read_matched a (reorder sigma b) Hn Hasg') by (rewrite Lb'; exact Hle).
  rewrite Lb'.
  destruct (matching_of_reordered a b Hsigma Hn Hasg') as [Hfwd Efwd].
  destruct (matching_with_reordered a b Hsigma Hn Hasg) as [Hbwd Ebwd].
  pose proof (optimal_collects_most a b Hn Hasg Hopt Hfwd) as H1.
  pose proof (optimal_collects_most a (reorder sigma b) Hn Hasg' Hopt' Hbwd) as H2.
  rewrite Efwd in H1. rewrite Ebwd in H2.
  assert (E : (fold_left Qplus
                 (map (fun ij => sim a b (fst ij) (snd ij)) idx) 0
               == fold_left Qplus
                    (map (fun ij => sim a (reorder sigma b) (fst ij) (snd ij))
                         idx') 0)%Q)
    by (apply Qle_antisym; assumption).
  now rewrite E.
Qed.

(** X17.  A set of non-empty biclusters compared with the same biclusters
    listed in another order scores 1, for a solver that returns an optimal
    matching. *)
Theorem consensus_score_of_reordered_set (linear_assignment : solver)
  (n_rows n_cols : nat) (a : biclusters) (sigma : list nat)
  (m : list (list npfloat)) (idx : list (nat * nat)) :
  over_matrix n_rows n_cols a ->
  all_nonempty a ->
  1 <= length (fst a) ->
  Permutation sigma (seq 0 (length (fst a))) ->
  _pairwise_similarity a (reorder sigma a) _jaccard = Ok m ->
  solves linear_assignment (cost_of m) idx ->
  exists score,
    consensus_score linear_assignment a (reorder sigma a) = Ok score
    /\ is_one score.
Proof.
  intros Ha Hcells Hn Hsigma Hm (Hs & Hasg & Hopt).
  pose proof (self_pairs Hcells) as Hpairs.
  pose proof (reorder_shape a Ha Hsigma Hn) as Hb'.
  pose proof (reorder_pairs Hpairs Hsigma Hn) as Hpairs'.
  pose proof (reorder_length a Hsigma) as Lb'.
  rewrite (pairwise_similarity_value Ha Hb' Hpairs') in Hm. injection Hm as <-.
  eexists.
  split; [apply (score_value linear_assignment Ha Hb' Hpairs' Hn Hs Hasg)|].
  rewrite (read_matched a (reorder sigma a) Hn Hasg) by (rewrite Lb'; lia).
  rewrite Lb', Nat.max_id. simpl.
  set (T := fold_left Qplus
              (map (fun ij => sim a (reorder sigma a) (fst ij) (snd ij)) idx) 0%Q).
  assert (Hup : (T <= inject_Z (Z.of_nat (length (fst a))))%Q).
  { pose proof (fold_unit_bounds
                  (map (fun ij => sim a (reorder sigma a) (fst ij) (snd ij)) idx)
                  0%Q) as Hb.
    rewrite length_map, (idx_length a (reorder sigma a) Hn Hasg), Lb',
      Nat.min_id in Hb.
    destruct Hb as [_ Hb]; [|fold T in Hb; Lqa.lra].
    intros x Hx. apply in_map_iff in Hx as (ij & <- & Hij).
    destruct (assignment_in_range a (reorder sigma a) Hn Hasg _ Hij) as [Hi Hj].
    apply (sim_value Ha Hb' Hpairs' Hi Hj). }
  assert (Hlow : (inject_Z (Z.of_nat (length (fst a))) <= T)%Q).
  { destruct (matching_with_reordered a a Hsigma Hn (identity_assignment a Hn))
      as [Hbwd Ebwd].
    pose proof (optimal_collects_most a (reorder sigma a) Hn Hasg Hopt Hbwd) as H1.
    rewrite Ebwd in H1. fold T in H1.
    rewrite fold_all_ones in H1.
    - rewrite !length_map, length_seq in H1. Lqa.lra.
    - intros x Hx. apply in_map_iff in Hx as (ij & <- & Hij).
      apply in_map_iff in Hij as (t & <- & Ht). apply in_seq in Ht. simpl.
      apply (sim_value Ha Ha Hpairs); [lia | lia | reflexivity]. }
  pose proof (inject_nat_pos Hn) as Hpos.
  assert (E : (T == inject_Z (Z.of_nat (length (fst a))))%Q)
    by (apply Qle_antisym; assumption).
  rewrite E. field. Lqa.lra.
Qed.

End OrderOfTheSecondSet.

Lemma consensus_score_ignores_order_witness :
  exists s s',
    consensus_score linear_assignment_ref both_rows nested_rows = Ok (Fin s)
    /\ consensus_score linear_assignment_ref both_rows
         (reorder [1; 0]%nat nested_rows) = Ok (Fin s')
    /\ (s == s')%Q.
Proof.
  apply (@consensus_score_ignores_order linear_assignment_ref 2%nat 1%nat
           both_rows nested_rows [1; 0]%nat
           [[Fin (inject_Z 0 / inject_Z 2); Fin (inject_Z 1 / inject_Z 2)];
            [Fin (inject_Z 1 / inject_Z 1); Fin (inject_Z 1 / inject_Z 2)]]
           [[Fin (inject_Z 1 / inject_Z 2); Fin (inject_Z 0 / inject_Z 2)];
            [Fin (inject_Z 1 / inject_Z 2); Fin (inject_Z 1 / inject_Z 1)]]
           [(0%nat, 1%nat); (1%nat, 0%nat)] [(0%nat, 0%nat); (1%nat, 1%nat)]).
  - repeat split; repeat constructor.
  - repeat split; repeat constructor.
  - intros i j Hi Hj. unfold both_rows in Hi; unfold nested_rows in Hj.
    simpl in Hi, Hj.
    destruct i as [|[|i]]; [| |lia]; (destruct j as [|[|j]]; [| |lia]);
      reflexivity.
  - unfold both_rows, nested_rows; simpl. lia.
  - apply perm_swap.
  - reflexivity.
  - reflexivity.
  - square_solved.
  - square_solved.
Defined.

Lemma consensus_score_of_reordered_set_witness :
  exists score,
    consensus_score linear_assignment_ref both_rows (reorder [1; 0]%nat both_rows)
    = Ok score
    /\ is_one score.
Proof.
  apply (@consensus_score_of_reordered_set linear_assignment_ref 2%nat 1%nat
           both_rows [1; 0]%nat
           [[Fin (inject_Z 0 / inject_Z 2); Fin (inject_Z 1 / inject_Z 1)];
            [Fin (inject_Z 1 / inject_Z 1); Fin (inject_Z 0 / inject_Z 2)]]
           [(0%nat, 1%nat); (1%nat, 0%nat)]).
  - repeat split; repeat constructor.
  - intros i Hi. unfold both_rows in Hi; simpl in Hi.
    destruct i as [|[|i]]; [| |lia]; reflexivity.
  - unfold both_rows; simpl. lia.
  - apply perm_swap.
  - reflexivity.
  - square_solved.
Defined.

(** ** Indicator vectors of different lengths *)

Section Mismatch.

Local Open Scope nat_scope.

Lemma np_mul_raises_iff (a b : list bool) :
  (exists e, np_mul a b = Raise e)
  <-> length a <> length b /\ length a <> 1 /\ length b <> 1.
Proof.
  unfold np_mul.
  destruct (Nat.eqb_spec (length a) (length b)) as [E | E].
  { split; [intros (e & H); discriminate | tauto]. }
  destruct (Nat.eqb_spec (length a) 1) as [Ea | Ea].
  { split; [intros (e & H); discriminate | tauto]. }
  destruct (Nat.eqb_spec (length b) 1) as [Eb | Eb].
  { split; [intros (e & H); discriminate | tauto]. }
  split; [tauto | eauto].
Qed.

(** X18.  [_jaccard] raises exactly when the two row indicators, or the
    two column indicators, have different lengths neither of which is 1
    (numpy broadcasts a vector of length 1 instead of refusing it); what it
    raises is the [ValueError] of the multiplication. *)
Theorem jaccard_raises_on_mismatch (a_rows a_cols b_rows b_cols : list bool) :
  ((exists e, _jaccard a_rows a_cols b_rows b_cols = Raise e)
   <-> (length a_rows <> length b_rows
        /\ length a_rows <> 1 /\ length b_rows <> 1)
       \/ (length a_cols <> length b_cols
           /\ length a_cols <> 1 /\ length b_cols <> 1))
  /\ forall e, _jaccard a_rows a_cols b_rows b_cols = Raise e -> e = ValueError.
Proof.
  unfold _jaccard.
  rewrite <- (np_mul_raises_iff a_rows b_rows), <- (np_mul_raises_iff a_cols b_cols).
  destruct (np_mul a_rows b_rows) as [rs | e1] eqn:Er,
           (np_mul a_cols b_cols) as [cs | e2] eqn:Ec; simpl.
  - split.
    + split; [intros (e & H); discriminate|].
      intros [(e & H) | (e & H)]; discriminate.
    + intros e H. discriminate.
  - split; [split; eauto|].
    intros e [= <-]. now apply np_mul_raises in Ec.
  - split; [split; eauto|].
    intros e [= <-]. now apply np_mul_raises in Er.
  - split; [split; eauto|].
    intros e [= <-]. now apply np_mul_raises in Er.
Qed.

End Mismatch.

Lemma jaccard_raises_on_mismatch_witness :
  (exists e, _jaccard [true; false] [true] [true; false; true] [true] = Raise e)
  /\ ValueError = ValueError.
Proof.
  destruct (jaccard_raises_on_mismatch [true; false] [true]
              [true; false; true] [true]) as [Hiff Hv].
  split.
  - apply Hiff. left. simpl. repeat split; lia.
  - apply Hv. reflexivity.
Defined.

(** ** A first set without biclusters *)

Section EmptySet.

Local Open Scope nat_scope.

(** X22.  With a first set [a] that holds no bicluster,
    [consensus_score] never returns a score, whatever the second set, the
    similarity and the solver: the matrix of similarities is the 1-d array
    [array([])], which cannot be indexed by columns.  (A second set
    without biclusters, by contrast, gives the score 0.) *)
Theorem consensus_score_refuses_empty_first_set (linear_assignment : solver)
  (a b : biclusters) (similarity : similarity_fn) :
  length (fst a) = 0 ->
  (forall score,
      consensus_score_with linear_assignment a b similarity <> Ok score)
  /\ (length (snd a) = 0 -> length (fst b) = length (snd b) ->
      forall idx, linear_assignment [] = Ok idx ->
        consensus_score_with linear_assignment a b similarity
        = Raise IndexError).
Proof.
  intros Ha.
  assert (Hm : forall m, _pairwise_similarity a b similarity = Ok m -> m = []).
  { intros m H. apply pairwise_unfold in H as (_ & _ & H).
    rewrite Ha in H. simpl in H. now injection H as <-. }
  split.
  - intros score H. unfold consensus_score_with in H.
    destruct (_pairwise_similarity a b similarity) as [m|] eqn:E; [|discriminate].
    rewrite (Hm m eq_refl) in H. simpl in H.
    destruct (linear_assignment []); discriminate.
  - intros Hs Hb idx Hidx.
    assert (E : _pairwise_similarity a b similarity = Ok []).
    { unfold _pairwise_similarity, _check_rows_and_columns, check_arrays.
      destruct (Nat.eqb_spec (length (fst a)) (length (snd a))) as [_ | N];
        [|congruence].
      destruct (Nat.eqb_spec (length (fst b)) (length (snd b))) as [_ | N];
        [|congruence].
      simpl. rewrite Ha. reflexivity. }
    unfold consensus_score_with. rewrite E. simpl. rewrite Hidx. reflexivity.
Qed.

End EmptySet.

Lemma consensus_score_refuses_empty_first_set_witness :
  (forall score,
      consensus_score_with linear_assignment_ref ([], []) top_row _jaccard
      <> Ok score)
  /\ consensus_score_with (fun _ => Ok []) ([], []) top_row _jaccard
     = Raise IndexError.
Proof.
  split.
  - apply (@consensus_score_refuses_empty_first_set linear_assignment_ref
             ([], []) top_row _jaccard eq_refl).
  - apply (proj2 (@consensus_score_refuses_empty_first_set (fun _ => Ok [])
                    ([], []) top_row _jaccard eq_refl) eq_refl eq_refl []).
    reflexivity.
Defined.

(** * Further properties of the estimator *)

(** ** Arrays without entries *)

Section EmptyInput.

Context {F W : Type} {num : Numeric F} {lib : Library F W}.

Local Open Scope nat_scope.

Lemma rectangular_entries (X : matrix F) (n : nat) :
  Forall (fun row => length row = n) X ->
  concat X <> [] <-> 1 <= length X /\ 1 <= n.
Proof.
  intros Hrows. split.
  - intros Hne. split.
    + destruct X; [now contradiction Hne | simpl; lia].
    + destruct n as [|n]; [|lia]. exfalso. apply Hne.
      induction Hrows as [|row X Hrow H IH]; simpl; [reflexivity|].
      apply length_zero_iff_nil in Hrow. subst row. simpl.
      apply IH. intros E. apply Hne. simpl. exact E.
  - intros [Hm Hn] E. destruct X as [|row X]; [simpl in Hm; lia|].
    inversion Hrows as [|? ? Hrow _]; subst.
    simpl in E. apply app_eq_nil in E as [-> _]. simpl in Hn. lia.
Qed.

Lemma make_nonnegative_empty (X : matrix F) (v : F) :
  concat X = [] -> make_nonnegative X v = Raise ValueError.
Proof.
  intros E. unfold make_nonnegative, np_min. now rewrite E.
Qed.

Lemma make_nonnegative_returns (X : matrix F) (v : F) (n : nat) :
  Forall (fun row => length row = n) X -> concat X <> [] ->
  exists Xn, make_nonnegative X v = Ok Xn
             /\ Forall (fun row => length row = n) Xn
             /\ length Xn = length X.
Proof.
  intros Hrows Hne. unfold make_nonnegative, np_min.
  destruct (concat X) as [|x t]; [contradiction|]. simpl.
  destruct (ltb _ v); eexists; (split; [reflexivity|]).
  - split; [|apply length_map].
    apply Forall_forall. intros row Hrow.
    apply in_map_iff in Hrow as (row0 & <- & Hr).
    rewrite Forall_forall in Hrows. rewrite length_map. now apply Hrows.
  - auto.
Qed.

Lemma zip_with_Forall {A B C} (P : C -> Prop) (f : A -> B -> C)
  (l : list A) (l' : list B) :
  (forall x y, In y l' -> P (f x y)) -> Forall P (zip_with f l l').
Proof.
  revert l'; induction l as [|x l IH]; intros [|y l'] H; simpl; constructor.
  - apply H. now left.
  - apply IH. intros x' y' Hy. apply H. now right.
Qed.

Lemma scale_preprocess_returns (X : matrix F) (n : nat) :
  Forall (fun row => length row = n) X -> concat X <> [] ->
  exists an row_diag col_diag,
    scale_preprocess X = Ok (an, row_diag, col_diag)
    /\ Forall (fun row => length row = n) an
    /\ length an = length X.
Proof.
  intros Hrows Hne. unfold scale_preprocess.
  destruct (make_nonnegative_returns zero Hrows Hne) as (Xn & -> & Hn & Hl).
  simpl. do 3 eexists. split; [reflexivity|].
  assert (Hc : length (map inv_sqrt (sum_axis0 Xn)) = n).
  { unfold sum_axis0. rewrite !length_map, transpose_length. unfold shape1.
    destruct Xn as [|row Xn].
    - apply (rectangular_entries Hrows) in Hne. simpl in Hl. lia.
    - inversion Hn; subst. reflexivity. }
  split.
  - apply zip_with_Forall. intros r row Hrow.
    rewrite Forall_forall in Hn. specialize (Hn row Hrow).
    unfold vector in *. rewrite zip_with_length, Hc, Hn. apply Nat.min_id.
  - unfold sum_axis1. rewrite zip_with_length, !length_map, Nat.min_id.
    exact Hl.
Qed.

Lemma bistochastic_loop_returns (maxiter : nat) (tol : F) (X : matrix F) (n : nat) :
  Forall (fun row => length row = n) X -> concat X <> [] ->
  exists Y, bistochastic_loop maxiter tol X = Ok Y.
Proof.
  revert X; induction maxiter as [|k IH]; intros X Hrows Hne; simpl; [eauto|].
  destruct (scale_preprocess_returns Hrows Hne) as (an & rd & cd & -> & Hn & Hl).
  simpl. destruct (ltb _ tol); [eauto|].
  apply IH; [exact Hn|].
  apply (rectangular_entries Hn).
  apply (rectangular_entries Hrows) in Hne. lia.
Qed.

(** X7.  The four preprocessing functions raise exactly on a matrix
    without entries (no row, or no column), and what they raise is the
    [ValueError] of [X.min()]; on every other matrix they return. *)
Theorem preprocessing_refuses_only_empty (X : matrix F) (n : nat) :
  Forall (fun row => length row = n) X ->
  (concat X = [] ->
   (forall v, make_nonnegative X v = Raise ValueError)
   /\ scale_preprocess X = Raise ValueError
   /\ (forall maxiter tol,
          bistochastic_preprocess X maxiter tol = Raise ValueError)
   /\ log_preprocess X = Raise ValueError)
  /\ (concat X <> [] ->
      (forall v, exists Xn, make_nonnegative X v = Ok Xn)
      /\ (exists an row_diag col_diag,
             scale_preprocess X = Ok (an, row_diag, col_diag))
      /\ (forall maxiter tol,
             exists Y, bistochastic_preprocess X maxiter tol = Ok Y)
      /\ (exists Y, log_preprocess X = Ok Y)).
Proof.
  intros Hrows. split.
  - intros E. split; [intros v; now apply make_nonnegative_empty|].
    unfold scale_preprocess, bistochastic_preprocess, log_preprocess.
    rewrite !(fun v => @make_nonnegative_empty X v E). simpl. auto.
  - intros Hne. split; [|split; [|split]].
    + intros v.
      destruct (make_nonnegative_returns v Hrows Hne) as (Xn & E & _). eauto.
    + destruct (scale_preprocess_returns Hrows Hne) as (an & rd & cd & E & _).
      eauto.
    + intros maxiter tol. unfold bistochastic_preprocess.
      destruct (make_nonnegative_returns zero Hrows Hne) as (Xn & -> & Hn & Hl).
      simpl. apply (bistochastic_loop_returns maxiter tol Hn).
      apply (rectangular_entries Hn).
      apply (rectangular_entries Hrows) in Hne. lia.
    + unfold log_preprocess.
      destruct (make_nonnegative_returns one Hrows Hne) as (Xn & -> & _).
      simpl. eauto.
Qed.

Lemma absent_method (m : string) :
  ~ In m methods ->
  String.eqb m "dhillon" = false /\ String.eqb m "bistochastic" = false
  /\ String.eqb m "scale" = false /\ String.eqb m "log" = false.
Proof.
  intros H. repeat split; apply String.eqb_neq; intros ->; apply H;
    unfold methods; simpl; auto.
Qed.

(** X8.  On a 2-dimensional array [fit] raises before it has called
    [svds] or [k_means], the state of the random generator untouched, in
    two cases: with a method that is none of the four (the attribute was
    changed after [__init__]) it raises [UnboundLocalError], whatever the
    data; with one of the four methods and an array without entries it
    raises [ValueError]. *)
Theorem fit_fails_before_clustering (self : estimator) (X : matrix F) (w : W) :
  (~ In (method self) methods ->
   fit self (Array2 X) w = (Raise UnboundLocalError, w))
  /\ (In (method self) methods -> concat X = [] ->
      fit self (Array2 X) w = (Raise ValueError, w)).
Proof.
  split.
  - intros H. destruct (absent_method H) as (E1 & E2 & E3 & E4).
    unfold fit. simpl. rewrite E1. unfold _kluger.
    rewrite E2, E3, E4. reflexivity.
  - intros H E. unfold fit. simpl.
    assert (Es : scale_preprocess X = Raise ValueError).
    { unfold scale_preprocess. now rewrite (fun v => @make_nonnegative_empty X v E). }
    assert (Eb : bistochastic_preprocess X default_maxiter default_tol
                 = Raise ValueError).
    { unfold bistochastic_preprocess. now rewrite (fun v => @make_nonnegative_empty X v E). }
    assert (El : log_preprocess X = Raise ValueError).
    { unfold log_preprocess. now rewrite (fun v => @make_nonnegative_empty X v E). }
    destruct H as [H | [H | [H | [H | []]]]];
      unfold _dhillon, _kluger; rewrite <- H; simpl; unfold bind, lift;
      rewrite ?Es, ?Eb, ?El; reflexivity.
Qed.

End EmptyInput.

Lemma preprocessing_refuses_only_empty_witness :
  (scale_preprocess (lib := demo_library) [[]; []] = Raise ValueError
   /\ log_preprocess (lib := demo_library) [[]; []] = Raise ValueError)
  /\ (exists an row_diag col_diag,
         scale_preprocess (lib := demo_library) demo_matrix
         = Ok (an, row_diag, col_diag))
  /\ exists Y, bistochastic_preprocess (lib := demo_library) demo_matrix 3
                 (1 # 2)%Q = Ok Y.
Proof.
  split; [|split].
  - destruct (@preprocessing_refuses_only_empty Q nat Q_numeric
                demo_library [[]; []] 0%nat) as [He _].
    { repeat constructor. }
    destruct (He eq_refl) as (_ & Hs & _ & Hl).
    split; [exact Hs | exact Hl].
  - apply (@preprocessing_refuses_only_empty Q nat Q_numeric demo_library
             demo_matrix 3%nat).
    + repeat constructor.
    + discriminate.
  - apply (@preprocessing_refuses_only_empty Q nat Q_numeric demo_library
             demo_matrix 3%nat).
    + repeat constructor.
    + discriminate.
Defined.

Lemma fit_fails_before_clustering_witness :
  fit (lib := demo_library) (set_method demo_log "kmeans")
      (Array2 demo_matrix) 0%nat
  = (Raise UnboundLocalError, 0%nat)
  /\ fit (lib := demo_library) demo_log (Array2 [[]; []]) 0%nat
     = (Raise ValueError, 0%nat).
Proof.
  split.
  - apply (@fit_fails_before_clustering Q nat Q_numeric demo_library).
    intros [H | [H | [H | [H | []]]]]; discriminate H.
  - apply (@fit_fails_before_clustering Q nat Q_numeric demo_library).
    + simpl. auto.
    + reflexivity.
Defined.

(** ** Preprocessing in exact arithmetic *)

Section Shifting.

Local Open Scope R_scope.

Lemma fmin_real (a b : R) : fmin a b = Rmin a b.
Proof.
  unfold fmin, Rmin; simpl.
  destruct (Rlt_dec b a), (Rle_dec a b); try reflexivity; lra.
Qed.

Lemma fold_fmin_real (t : list R) (x : R) :
  fold_left fmin t x = fold_left Rmin t x.
Proof.
  revert x; induction t as [|y t IH]; intros x; simpl; [reflexivity|].
  now rewrite fmin_real, IH.
Qed.

Lemma fold_min_below (t : list R) (x : R) : fold_left Rmin t x <= x.
Proof.
  revert x; induction t as [|y t IH]; intros x; simpl; [lra|].
  apply Rle_trans with (Rmin x y); [apply IH | apply Rmin_l].
Qed.

Lemma fold_min_spec (t : list R) (x : R) :
  In (fold_left Rmin t x) (x :: t)
  /\ Forall (fun y => fold_left Rmin t x <= y) (x :: t).
Proof.
  revert x; induction t as [|y t IH]; intros x; simpl.
  - split; [now left | repeat constructor; lra].
  - destruct (IH (Rmin x y)) as [Hin Hall].
    inversion Hall as [|? ? Hm Ht]; subst.
    split.
    + destruct Hin as [E | Hin]; [|now right; right].
      rewrite <- E. unfold Rmin. destruct (Rle_dec x y); simpl; auto.
    + constructor; [|constructor; [|exact Ht]].
      * apply Rle_trans with (Rmin x y); [exact Hm | apply Rmin_l].
      * apply Rle_trans with (Rmin x y); [exact Hm | apply Rmin_r].
Qed.

Lemma min_shift (a b c : R) : Rmin (a + c) (b + c) = Rmin a b + c.
Proof.
  unfold Rmin. destruct (Rle_dec (a + c) (b + c)), (Rle_dec a b);
    try reflexivity; lra.
Qed.

Lemma fold_min_shift (t : list R) (x c : R) :
  fold_left Rmin (map (fun y => y + c) t) (x + c) = fold_left Rmin t x + c.
Proof.
  revert x; induction t as [|y t IH]; intros x; simpl; [reflexivity|].
  now rewrite min_shift, IH.
Qed.

Lemma np_min_real (X : matrix R) (x : R) (t : list R) :
  concat X = x :: t -> np_min X = Ok (fold_left Rmin t x).
Proof.
  intros E. unfold np_min. now rewrite E, fold_fmin_real.
Qed.

(** X9.  In exact arithmetic, on a matrix with at least one entry and
    minimum [m], [make_nonnegative(X, min_value)] returns [X] with
    [max(m, min_value) - m] added to every entry: the matrix itself when
    [m >= min_value], and otherwise the matrix moved up so that its minimum
    is exactly [min_value].  The minimum of the result is
    [max(m, min_value)], and a second call changes nothing. *)
Theorem make_nonnegative_lifts (X : matrix R) (v : R) :
  concat X <> [] ->
  exists m Xn,
    np_min X = Ok m
    /\ In m (concat X)
    /\ Forall (fun x => m <= x) (concat X)
    /\ make_nonnegative X v = Ok Xn
    /\ Xn = map (map (fun x => x + (Rmax m v - m))) X
    /\ np_min Xn = Ok (Rmax m v)
    /\ (v <= m -> Xn = X)
    /\ make_nonnegative Xn v = Ok Xn.
Proof.
  intros Hne. destruct (concat X) as [|x t] eqn:E; [contradiction|].
  set (m := fold_left Rmin t x).
  pose proof (np_min_real X E) as Hmin. fold m in Hmin.
  destruct (fold_min_spec t x) as [Hin Hall]. fold m in Hin, Hall.
  assert (Hshift : forall c,
             np_min (map (map (fun y => y + c)) X) = Ok (m + c)).
  { intros c.
    rewrite (@np_min_real (map (map (fun y => y + c)) X) (x + c)
               (map (fun y => y + c) t)).
    - now rewrite fold_min_shift.
    - now rewrite <- concat_map, E. }
  unfold make_nonnegative. rewrite Hmin. simpl.
  destruct (Rlt_dec m v) as [Hlt | Hge].
  - exists m, (map (map (fun y => y + (v - m))) X).
    rewrite (Rmax_right m v) by lra.
    split; [reflexivity|]. split; [exact Hin|]. split; [exact Hall|].
    split; [reflexivity|]. split; [reflexivity|].
    assert (Ev : m + (v - m) = v) by ring.
    split; [rewrite Hshift; now rewrite Ev|].
    split; [intros; lra|].
    rewrite Hshift, Ev. simpl.
    destruct (Rlt_dec v v); [lra | reflexivity].
  - exists m, X.
    rewrite (Rmax_left m v) by lra.
    split; [reflexivity|]. split; [exact Hin|]. split; [exact Hall|].
    split; [reflexivity|].
    split.
    { rewrite <- (map_id X) at 1. apply map_ext. intros row.
      rewrite <- (map_id row) at 1. apply map_ext. intros y. ring. }
    split; [exact Hmin|]. split; [reflexivity|].
    rewrite Hmin. simpl.
    destruct (Rlt_dec m v); [contradiction | reflexivity].
Qed.

End Shifting.

Lemma make_nonnegative_lifts_witness :
  exists m Xn,
    np_min [[3; 1]; [2; 5]]%R = Ok m
    /\ make_nonnegative [[3; 1]; [2; 5]]%R 4%R = Ok Xn
    /\ np_min Xn = Ok (Rmax m 4)
    /\ make_nonnegative Xn 4%R = Ok Xn.
Proof.
  destruct (@make_nonnegative_lifts [[3; 1]; [2; 5]]%R 4%R)
    as (m & Xn & H1 & _ & _ & H2 & _ & H3 & _ & H4).
  - discriminate.
  - exists m, Xn. auto.
Defined.

(** ** Choosing more, or fewer, vectors than there are *)

Section AnyCount.

Context {F W : Type} {num : Numeric F} {lib : Library F W}.

Local Open Scope nat_scope.

Lemma map_nth_all {A} (l : list A) (d : A) :
  map (fun i => nth i l d) (seq 0 (length l)) = l.
Proof.
  apply (nth_ext _ _ (nth 0 l d) d).
  - now rewrite length_map, length_seq.
  - intros i Hi. rewrite length_map, length_seq in Hi.
    rewrite (map_nth (fun i => nth i l d)). now rewrite seq_nth.
Qed.

(** X10.  Whatever [k] is, [fit_best_piecewise] returns input vectors
    only.  With [k] at least the number of vectors it returns all of them,
    reordered; with [0 <= k] it returns [min(k, n)] vectors; with a
    negative [k] the slice [[:k]] drops the [-k] last of the order, so that
    [n - min(-k, n)] vectors are returned. *)
Theorem fit_best_piecewise_slices (vectors best : matrix F) (k n_clusters : Z)
  (random_state : option Z) (n_init : Z) (w w' : W) :
  fit_best_piecewise vectors k n_clusters random_state n_init w = (Ok best, w') ->
  Forall (fun v => In v vectors) best
  /\ length best = (if (k <? 0)%Z then length vectors - Z.to_nat (- k)
                    else Nat.min (Z.to_nat k) (length vectors))
  /\ ((Z.of_nat (length vectors) <= k)%Z -> Permutation best vectors).
Proof.
  intros H. unfold fit_best_piecewise in H. run H.
  apply ret_ok in H as [-> ->].
  pose proof (piecewise_dists_length _ _ _ _ _ E) as Hlen.
  pose proof (argsort_perm v) as Hperm. rewrite Hlen in Hperm.
  assert (Hbelow : Forall (fun i => i < length vectors) (argsort v)).
  { apply Forall_forall. intros i Hi.
    apply (Permutation_in _ Hperm), in_seq in Hi. lia. }
  assert (La : length (argsort v) = length vectors)
    by (now rewrite (Permutation_length Hperm), length_seq).
  split; [|split].
  - apply Forall_forall. intros x Hx. apply in_map_iff in Hx as (i & <- & Hi).
    apply nth_In.
    assert (Hs : Forall (fun i => i < length vectors) (slice_to k (argsort v))).
    { unfold slice_to. destruct (k <? 0)%Z; now apply Forall_take. }
    rewrite Forall_forall in Hs. now apply Hs.
  - rewrite length_map. unfold slice_to.
    destruct (k <? 0)%Z; rewrite length_firstn, La; lia.
  - intros Hk. unfold slice_to.
    destruct (Z.ltb_spec k 0) as [Hneg | _]; [lia|].
    rewrite firstn_all2 by lia.
    apply Permutation_trans
      with (map (fun i => nth i vectors []) (seq 0 (length vectors)));
      [now apply Permutation_map | now rewrite map_nth_all].
Qed.

End AnyCount.

Lemma fit_best_piecewise_slices_witness :
  exists best w',
    fit_best_piecewise (lib := demo_library) demo_matrix 5 2 None 10 0%nat
    = (Ok best, w')
    /\ Permutation best demo_matrix.
Proof.
  eexists. eexists. split; [vm_compute; reflexivity|].
  apply (@fit_best_piecewise_slices Q nat Q_numeric demo_library
           demo_matrix _ 5%Z 2%Z None 10%Z 0%nat 2%nat).
  - vm_compute. reflexivity.
  - simpl. lia.
Defined.

(** ** The cells of the checkerboard *)

Section Relabelling.

Local Open Scope nat_scope.

Lemma insert_unique_in (x y : nat) (l : list nat) :
  In y (insert_unique x l) <-> y = x \/ In y l.
Proof.
  induction l as [|z l IH]; simpl.
  - intuition.
  - destruct (Nat.ltb_spec x z); [simpl; intuition|].
    destruct (Nat.eqb_spec x z) as [-> | Hne]; simpl.
    + intuition.
    + rewrite IH. intuition.
Qed.

Lemma insert_unique_sorted (x : nat) (l : list nat) :
  StronglySorted lt l -> StronglySorted lt (insert_unique x l).
Proof.
  induction 1 as [|z l Hs IH Hz]; simpl.
  - repeat constructor.
  - destruct (Nat.ltb_spec x z) as [Hlt | Hge].
    + constructor; [now constructor|].
      constructor; [exact Hlt|].
      revert Hz. apply Forall_impl. intros; lia.
    + destruct (Nat.eqb_spec x z) as [-> | Hne]; [now constructor|].
      constructor; [exact IH|].
      apply Forall_forall. intros y Hy. apply insert_unique_in in Hy as [-> | Hy].
      * lia.
      * rewrite Forall_forall in Hz. now apply Hz.
Qed.

Lemma unique_values (v : list nat) :
  StronglySorted lt (fold_right insert_unique [] v)
  /\ forall x, In x (fold_right insert_unique [] v) <-> In x v.
Proof.
  induction v as [|y v [Hs Hin]]; simpl.
  - split; [constructor | tauto].
  - split; [now apply insert_unique_sorted|].
    intros x. rewrite insert_unique_in, Hin. intuition.
Qed.

Lemma index_of_sorted (l : list nat) (x lo : nat) :
  StronglySorted lt l -> Forall (fun y => lo <= y) l -> In x l ->
  lo + index_of x l <= x.
Proof.
  intros Hs; revert lo; induction Hs as [|y l Hs IH Hy]; intros lo Hlo Hin;
    simpl in *; [tauto|].
  inversion Hlo as [|? ? Hy0 Hl0]; subst.
  destruct (Nat.eqb_spec x y) as [-> | Hne]; [lia|].
  destruct Hin as [E | Hin]; [congruence|].
  specialize (IH (S lo)).
  assert (H1 : Forall (fun z => S lo <= z) l).
  { revert Hy. apply Forall_impl. intros; lia. }
  specialize (IH H1 Hin). lia.
Qed.

(** [np.unique(..., return_inverse=True)] renumbers the labels without
    raising any of them. *)
Lemma unique_inverse_below (v : list nat) (k : Z) :
  Forall (fun l => (Z.of_nat l < k)%Z) v ->
  length (unique_inverse v) = length v
  /\ Forall (fun l => (Z.of_nat l < k)%Z) (unique_inverse v).
Proof.
  intros Hk. unfold unique_inverse. split; [apply length_map|].
  destruct (unique_values v) as [Hs Hin].
  apply Forall_forall. intros l Hl.
  apply in_map_iff in Hl as (x & <- & Hx).
  rewrite Forall_forall in Hk. specialize (Hk x Hx).
  assert (H0 : 0 + index_of x (fold_right insert_unique [] v) <= x).
  { apply index_of_sorted; [exact Hs | | now apply Hin].
    apply Forall_forall. intros; lia. }
  lia.
Qed.

End Relabelling.

Section Cells.

Context {F W : Type} {num : Numeric F} {lib : Library F W}.
Hypothesis clusters : k_means_ok lib.

Local Open Scope nat_scope.

Lemma rows_shape {A B C} (g : A -> B -> C -> B) (rd : list A) (cd : list C)
  (L : list (list B)) :
  length rd = length L -> length cd = length (hd [] L) ->
  length (zip_with (fun r row => zip_with (g r) row cd) rd L) = length L
  /\ length (hd [] (zip_with (fun r row => zip_with (g r) row cd) rd L))
     = length (hd [] L).
Proof.
  intros Hr Hc. split.
  - rewrite zip_with_length. lia.
  - destruct L as [|row L], rd as [|r rd]; simpl in *; try lia; try reflexivity.
    rewrite zip_with_length. lia.
Qed.

Lemma scale_step_shape (X an : matrix F) (rd cd : vector F) :
  scale_preprocess X = Ok (an, rd, cd) ->
  length an = length X /\ shape1 an = shape1 X.
Proof.
  intros H. apply scale_preprocess_shape in H. tauto.
Qed.

Lemma bistochastic_loop_shape (maxiter : nat) (tol : F) (X Y : matrix F) :
  bistochastic_loop maxiter tol X = Ok Y ->
  length Y = length X /\ shape1 Y = shape1 X.
Proof.
  revert X; induction maxiter as [|k IH]; intros X H; simpl in H.
  - injection H as <-. auto.
  - apply rbind_ok in H as ([[an rd] cd] & Hs & H).
    apply scale_step_shape in Hs as [Hl Hs].
    destruct (ltb _ tol).
    + injection H as <-. auto.
    + apply IH in H as [Hl' Hs']. split; congruence.
Qed.

Lemma bistochastic_preprocess_shape (maxiter : nat) (tol : F) (X Y : matrix F) :
  bistochastic_preprocess X maxiter tol = Ok Y ->
  length Y = length X /\ shape1 Y = shape1 X.
Proof.
  unfold bistochastic_preprocess. intros H.
  apply rbind_ok in H as (Xn & Hn & H).
  apply make_nonnegative_shape in Hn as (Hl & Hs & _).
  apply bistochastic_loop_shape in H as [Hl' Hs']. split; congruence.
Qed.

Lemma log_preprocess_shape (X Y : matrix F) :
  log_preprocess X = Ok Y ->
  length Y = length X /\ shape1 Y = shape1 X.
Proof.
  unfold log_preprocess. intros H.
  apply rbind_ok in H as (Xn & Hn & H).
  apply make_nonnegative_shape in Hn as (Hl & Hs & _).
  injection H as <-.
  destruct (@rows_shape F F F (fun r x c => add (sub (sub x r) c) (mean_all (map (map np_log) Xn)))
              (mean_axis1 (map (map np_log) Xn))
              (mean_axis0 (map (map np_log) Xn))
              (map (map np_log) Xn)) as [H1 H2].
  - unfold mean_axis1. now rewrite !length_map.
  - unfold mean_axis0. rewrite length_map, transpose_length. reflexivity.
  - unfold shape1 in *. unfold matrix, vector in *. rewrite H1, H2, length_map.
    split; [exact Hl|].
    destruct Xn as [|row Xn]; [destruct X; simpl in *; congruence|].
    simpl. rewrite length_map. simpl in Hs. exact Hs.
Qed.

Lemma project_and_cluster_ok (data vectors : matrix F) (k : Z) (rs : option Z)
  (n : Z) (labels : list nat) (w w' : W) :
  project_and_cluster data vectors k rs n w = (Ok labels, w') ->
  length labels = length data
  /\ Forall (fun l => (Z.of_nat l < k)%Z) labels.
Proof.
  unfold project_and_cluster. intros H. run H.
  apply ret_ok in H as [-> _].
  destruct (call_k_means_ok clusters _ _ _ _ _ E) as [Hl Hb].
  split; [|exact Hb].
  rewrite Hl. unfold np_dot. apply length_map.
Qed.

Lemma kluger_labels (self self' : estimator) (X : matrix F) (w w' : W) :
  _kluger self X w = (Ok self', w') ->
  exists p q row_labels col_labels,
    cluster_counts (n_clusters self) = Ok (p, q)
    /\ rows_ self'
       = Some (flat_map (fun r => map (fun c => labels_eq row_labels r)
                                      (range q)) (range p))
    /\ columns_ self'
       = Some (flat_map (fun r => map (fun c => labels_eq col_labels c)
                                      (range q)) (range p))
    /\ row_labels_ self' = Some row_labels
    /\ column_labels_ self' = Some col_labels
    /\ length row_labels = shape0 X
    /\ length col_labels = shape1 X
    /\ Forall (fun l => (Z.of_nat l < p)%Z) row_labels
    /\ Forall (fun l => (Z.of_nat l < q)%Z) col_labels.
Proof.
  intros H. unfold _kluger in H. run H.
  apply lift_ok in E as [E _].
  assert (Hm : length m = length X /\ shape1 m = shape1 X).
  { destruct (String.eqb (method self) "bistochastic").
    { apply rbind_ok in E as (nd & Hb & E). injection E as <- _.
      now apply bistochastic_preprocess_shape in Hb. }
    destruct (String.eqb (method self) "scale").
    { apply rbind_ok in E as ([[nd rd] cd] & Hb & E). injection E as <- _.
      now apply scale_step_shape in Hb. }
    destruct (String.eqb (method self) "log"); [|discriminate].
    apply rbind_ok in E as (nd & Hb & E). injection E as <- _.
    now apply log_preprocess_shape in Hb. }
  destruct Hm as [Hm0 Hm1].
  apply lift_ok in E1 as [E1 _].
  apply project_and_cluster_ok in E4 as [L4 B4].
  apply project_and_cluster_ok in E5 as [L5 B5].
  rewrite transpose_length in L5.
  apply lift_ok in E6 as [E6 _]. apply vstack_ok in E6 as [-> _].
  apply lift_ok in E7 as [E7 _]. apply vstack_ok in E7 as [-> _].
  apply ret_ok in H as [-> _].
  destruct (unique_inverse_below B4) as [U4 V4].
  destruct (unique_inverse_below B5) as [U5 V5].
  exists z0, z1, (unique_inverse v1), (unique_inverse v2).
  split; [exact E1|].
  repeat (split; [reflexivity|]).
  unfold shape0. repeat split; try assumption; congruence.
Qed.

Lemma grid_rows (A : Type) (f : nat -> nat -> list A) (p q n : nat) :
  (forall r c, length (f r c) = n) ->
  Forall (fun row => length row = n)
         (flat_map (fun r => map (f r) (seq 0 q)) (seq 0 p)).
Proof.
  intros Hf. apply Forall_forall. intros row Hrow.
  apply in_flat_map in Hrow as (r & _ & Hrow).
  apply in_map_iff in Hrow as (c & <- & _). apply Hf.
Qed.

(** X11.  After a successful fit with one of the checkerboard methods and
    cluster counts [(p, q)], given that [k_means] labels every point with
    a cluster index below [n_clusters]: [row_labels_] holds one label below
    [p] per row of the data and [column_labels_] one label below [q] per
    column; every row of [rows_] is as long as the data has rows and every
    row of [columns_] as long as it has columns; and every cell of the data
    matrix lies in exactly one bicluster. *)
Theorem checkerboard_covers_cells (self self' : estimator) (X : matrix F)
  (w w' : W) (p q : Z) :
  In (method self) checkerboard_methods ->
  cluster_counts (n_clusters self) = Ok (p, q) ->
  fit self (Array2 X) w = (Ok self', w') ->
  exists rows cols row_labels col_labels,
    rows_ self' = Some rows
    /\ columns_ self' = Some cols
    /\ row_labels_ self' = Some row_labels
    /\ column_labels_ self' = Some col_labels
    /\ length row_labels = shape0 X
    /\ length col_labels = shape1 X
    /\ Forall (fun l => (Z.of_nat l < p)%Z) row_labels
    /\ Forall (fun l => (Z.of_nat l < q)%Z) col_labels
    /\ Forall (fun r => length r = shape0 X) rows
    /\ Forall (fun c => length c = shape1 X) cols
    /\ forall i j, i < shape0 X -> j < shape1 X ->
         exists! t, t < length rows
                    /\ nth i (nth t rows []) false = true
                    /\ nth j (nth t cols []) false = true.
Proof.
  intros Hm Hpq Hfit. unfold fit in Hfit. simpl in Hfit.
  rewrite (checkerboard_not_dhillon Hm) in Hfit.
  apply kluger_labels in Hfit
    as (p' & q' & rl & cl & Hc & Hr & Hcol & Hrl & Hcl & Lr & Lc & Br & Bc).
  rewrite Hpq in Hc. injection Hc as <- <-.
  exists (flat_map (fun r => map (fun c => labels_eq rl r) (range q)) (range p)),
         (flat_map (fun r => map (fun c => labels_eq cl c) (range q)) (range p)),
         rl, cl.
  repeat (split; [assumption|]).
  unfold range.
  split.
  { apply grid_rows. intros r c. unfold labels_eq. now rewrite length_map. }
  split.
  { apply grid_rows. intros r c. unfold labels_eq. now rewrite length_map. }
  intros i j Hi Hj. rewrite <- Lr in Hi. rewrite <- Lc in Hj.
  rewrite grid_length.
  set (P := Z.to_nat p) in *. set (Q := Z.to_nat q) in *.
  assert (Hri : nth i rl 0 < P).
  { rewrite Forall_forall in Br. specialize (Br _ (nth_In rl 0 Hi)).
    unfold P. lia. }
  assert (Hcj : nth j cl 0 < Q).
  { rewrite Forall_forall in Bc. specialize (Bc _ (nth_In cl 0 Hj)).
    unfold Q. lia. }
  exists (nth i rl 0 * Q + nth j cl 0). split.
  - split; [nia|].
    rewrite (grid_nth (fun r _ => labels_eq rl r) [] _ Hri Hcj).
    rewrite (grid_nth (fun _ c => labels_eq cl c) [] _ Hri Hcj).
    simpl. rewrite (labels_eq_nth rl _ Hi), (labels_eq_nth cl _ Hj).
    now rewrite !Nat.eqb_refl.
  - intros t (Ht & Er & Ec).
    assert (HQ : Q <> 0) by lia.
    pose proof (Nat.div_mod t Q HQ) as Et.
    assert (Hr' : t / Q < P).
    { apply Nat.Div0.div_lt_upper_bound. lia. }
    assert (Hc' : t mod Q < Q) by (apply Nat.mod_upper_bound; exact HQ).
    rewrite Et in Er, Ec. rewrite (Nat.mul_comm Q) in Er, Ec.
    rewrite (grid_nth (fun r _ => labels_eq rl r) [] _ Hr' Hc') in Er.
    rewrite (grid_nth (fun _ c => labels_eq cl c) [] _ Hr' Hc') in Ec.
    simpl in Er, Ec.
    rewrite (labels_eq_nth rl _ Hi) in Er. rewrite (labels_eq_nth cl _ Hj) in Ec.
    apply Nat.eqb_eq in Er. apply Nat.eqb_eq in Ec.
    rewrite Er, Ec. lia.
Qed.

End Cells.

Lemma checkerboard_covers_cells_witness :
  exists rows cols,
    rows_ demo_log_fitted = Some rows
    /\ columns_ demo_log_fitted = Some cols
    /\ forall i j, (i < 2)%nat -> (j < 3)%nat ->
         exists! t, (t < length rows)%nat
                    /\ nth i (nth t rows []) false = true
                    /\ nth j (nth t cols []) false = true.
Proof.
  destruct (@checkerboard_covers_cells Q nat Q_numeric demo_library
              demo_k_means_ok demo_log demo_log_fitted demo_matrix
              0%nat 14%nat 2%Z 2%Z)
    as (rows & cols & rl & cl & Hr & Hc & _ & _ & _ & _ & _ & _ & _ & _ & Hcells).
  - simpl. tauto.
  - reflexivity.
  - exact demo_fit_log.
  - exists rows, cols. split; [exact Hr|]. split; [exact Hc|]. exact Hcells.
Defined.

(** ** Scaling, in exact arithmetic *)

Section PositiveSums.

Local Open Scope R_scope.

Local Abbreviation rsum := (@vsum R R_numeric).

Lemma sum_nonneg (v : list R) : Forall (fun x => 0 < x) v -> 0 <= rsum v.
Proof.
  induction 1 as [|x v Hx H IH]; [rewrite rsum_nil; lra|].
  rewrite rsum_cons. lra.
Qed.

Lemma sum_pos (v : list R) :
  v <> [] -> Forall (fun x => 0 < x) v -> 0 < rsum v.
Proof.
  intros Hne H. destruct H as [|x v Hx H]; [contradiction|].
  rewrite rsum_cons. pose proof (sum_nonneg H). lra.
Qed.

Lemma entry_le_sum (v : list R) (x : R) :
  Forall (fun x => 0 < x) v -> In x v -> x <= rsum v.
Proof.
  induction 1 as [|y v Hy H IH]; intros Hin; [contradiction|].
  rewrite rsum_cons. pose proof (sum_nonneg H).
  destruct Hin as [-> | Hin]; [lra|]. specialize (IH Hin). lra.
Qed.

Lemma scaled_entry_unit (x r c : R) :
  0 < x -> x <= r -> x <= c -> 0 < 1 / sqrt r * x * (1 / sqrt c) <= 1.
Proof.
  intros Hx Hr Hc.
  assert (Hsr : 0 < sqrt r) by (apply sqrt_lt_R0; lra).
  assert (Hsc : 0 < sqrt c) by (apply sqrt_lt_R0; lra).
  assert (Hsx : 0 < sqrt x) by (apply sqrt_lt_R0; lra).
  assert (Hxr : sqrt x <= sqrt r) by (apply sqrt_le_1_alt; lra).
  assert (Hxc : sqrt x <= sqrt c) by (apply sqrt_le_1_alt; lra).
  assert (Hxx : sqrt x * sqrt x = x) by (apply sqrt_sqrt; lra).
  assert (Hle : x <= sqrt r * sqrt c) by (rewrite <- Hxx; nra).
  assert (Hp : 0 < sqrt r * sqrt c) by nra.
  replace (1 / sqrt r * x * (1 / sqrt c)) with (x / (sqrt r * sqrt c))
    by (field; lra).
  split.
  - apply Rdiv_lt_0_compat; lra.
  - apply (Rmult_le_reg_r (sqrt r * sqrt c)); [exact Hp|].
    unfold Rdiv. rewrite Rmult_assoc, Rinv_l by lra. lra.
Qed.

Lemma over_root (r : R) : 0 < r -> r * (1 / sqrt r) = sqrt r.
Proof.
  intros Hr. assert (Hs : 0 < sqrt r) by (apply sqrt_lt_R0; lra).
  rewrite <- (sqrt_sqrt r) at 1 by lra. field. lra.
Qed.

Lemma root_over (r : R) : 0 < r -> 1 / sqrt r * sqrt r = 1.
Proof.
  intros Hr. assert (Hs : 0 < sqrt r) by (apply sqrt_lt_R0; lra).
  field. lra.
Qed.

End PositiveSums.

Section Scaling.

Local Open Scope R_scope.

Context {W : Type} {lib : Library R W}.
Hypothesis root : forall x : R, np_sqrt x = sqrt x.

Local Abbreviation rsum := (@vsum R R_numeric).
Local Abbreviation rcolumn := (@column R R_numeric).

Variables (X : matrix R) (n : nat).
Hypothesis rows_n : Forall (fun row => length row = n) X.
Hypothesis some_entry : concat X <> [].
Hypothesis positive : Forall (Forall (fun x => 0 < x)) X.

Lemma positive_concat : Forall (fun x => 0 < x) (concat X).
Proof.
  clear rows_n some_entry. induction positive as [|row K Hrow H IH]; simpl.
  - constructor.
  - apply Forall_app. auto.
Qed.

Lemma positive_kept (v : R) : v <= 0 -> make_nonnegative X v = Ok X.
Proof.
  intros Hv. unfold make_nonnegative.
  destruct (concat X) as [|x t] eqn:E; [contradiction|].
  rewrite (np_min_real X E). simpl.
  destruct (fold_min_spec t x) as [Hin _]. rewrite <- E in Hin.
  pose proof positive_concat as Hp. rewrite Forall_forall in Hp.
  specialize (Hp _ Hin).
  destruct (Rlt_dec _ v); [lra | reflexivity].
Qed.

Lemma dimensions : (1 <= length X)%nat /\ (1 <= n)%nat.
Proof. now apply (rectangular_entries rows_n). Qed.

Lemma shape1_X : shape1 X = n.
Proof.
  destruct dimensions as [Hm _]. unfold shape1.
  destruct X as [|row K]; [simpl in Hm; lia|]. now inversion rows_n.
Qed.

Lemma row_sum_pos (row : list R) : In row X -> 0 < rsum row.
Proof.
  intros Hrow. destruct dimensions as [_ Hn].
  pose proof rows_n as Hr. rewrite Forall_forall in Hr. specialize (Hr _ Hrow).
  pose proof positive as Hp. rewrite Forall_forall in Hp.
  apply sum_pos; [|now apply Hp].
  intros ->. simpl in Hr. lia.
Qed.

Lemma column_positive (j : nat) :
  (j < n)%nat -> Forall (fun x => 0 < x) (rcolumn j X).
Proof.
  intros Hj. unfold column. apply Forall_forall. intros x Hx.
  apply in_map_iff in Hx as (row & <- & Hrow).
  pose proof rows_n as Hr. rewrite Forall_forall in Hr. specialize (Hr _ Hrow).
  pose proof positive as Hp. rewrite Forall_forall in Hp. specialize (Hp _ Hrow).
  rewrite Forall_forall in Hp. apply Hp, nth_In. lia.
Qed.

Lemma col_sum_pos (j : nat) : (j < n)%nat -> 0 < rsum (rcolumn j X).
Proof.
  intros Hj. apply sum_pos; [|now apply column_positive].
  destruct dimensions as [Hm _]. unfold column.
  destruct X; [simpl in Hm; lia | discriminate].
Qed.

(** The three results of [scale_preprocess], entry by entry. *)
Local Abbreviation row_factor := (fun row : list R => 1 / sqrt (rsum row)).
Local Abbreviation col_factor := (fun j : nat => 1 / sqrt (rsum (rcolumn j X))).
Local Abbreviation scaled_row :=
  (fun row : list R =>
     map (fun j => row_factor row * nth j row 0 * col_factor j) (seq 0 n)).

Lemma scale_form :
  scale_preprocess X
  = Ok (map scaled_row X, map row_factor X, map col_factor (seq 0 n)).
Proof.
  unfold scale_preprocess.
  change (make_nonnegative X zero) with (make_nonnegative X 0).
  rewrite (positive_kept (Rle_refl 0)). simpl.
  assert (Er : map inv_sqrt (sum_axis1 X) = map row_factor X).
  { unfold sum_axis1. rewrite map_map. apply map_ext. intros row.
    unfold inv_sqrt. simpl. now rewrite root. }
  assert (Ec : map inv_sqrt (sum_axis0 X) = map col_factor (seq 0 n)).
  { unfold sum_axis0, transpose. rewrite shape1_X, !map_map.
    apply map_ext. intros j. unfold inv_sqrt. simpl. now rewrite root. }
  rewrite Er, Ec. do 3 f_equal.
  rewrite zip_with_map_l. apply map_ext_in. intros row Hrow.
  pose proof rows_n as Hn. rewrite Forall_forall in Hn.
  rewrite <- (map_nth_seq row) at 1. rewrite (Hn _ Hrow).
  now rewrite zip_with_maps.
Qed.

Lemma scaled_row_nth (row : list R) (j : nat) :
  (j < n)%nat ->
  nth j (scaled_row row) 0 = row_factor row * nth j row 0 * col_factor j.
Proof.
  intros Hj.
  rewrite (nth_indep _ 0 ((fun j => row_factor row * nth j row 0 * col_factor j) 0%nat))
    by (now rewrite length_map, length_seq).
  rewrite (map_nth (fun j => row_factor row * nth j row 0 * col_factor j)).
  now rewrite seq_nth.
Qed.

Lemma root_sums :
  map sqrt (sum_axis0 X) = map (fun j => sqrt (rsum (rcolumn j X))) (seq 0 n)
  /\ map sqrt (sum_axis1 X) = map (fun row => sqrt (rsum row)) X.
Proof.
  unfold sum_axis0, sum_axis1, transpose.
  now rewrite shape1_X, !map_map.
Qed.

(** X12.  In exact arithmetic, on a matrix of positive entries
    [scale_preprocess] returns the row factors [1 / sqrt(row sum)], the
    column factors [1 / sqrt(column sum)] and the matrix of the entries
    [row factor * X[i, j] * column factor], which has the shape of [X] and
    all its entries in the interval (0, 1]. *)
Theorem scale_preprocess_entries :
  exists an row_diag col_diag,
    scale_preprocess X = Ok (an, row_diag, col_diag)
    /\ row_diag = map (fun row => 1 / sqrt (vsum row)) X
    /\ col_diag = map (fun j => 1 / sqrt (vsum (column j X))) (seq 0 n)
    /\ length an = length X
    /\ Forall (fun row => length row = n) an
    /\ (forall i j, (i < length X)%nat -> (j < n)%nat ->
          nth j (nth i an []) 0
          = nth i row_diag 0 * nth j (nth i X []) 0 * nth j col_diag 0)
    /\ Forall (Forall (fun y => 0 < y <= 1)) an.
Proof.
  do 3 eexists. split; [exact scale_form|].
  split; [reflexivity|]. split; [reflexivity|].
  split; [apply length_map|].
  split.
  { apply Forall_forall. intros r Hr. apply in_map_iff in Hr as (row & <- & _).
    now rewrite length_map, length_seq. }
  split.
  { intros i j Hi Hj.
    rewrite (nth_indep _ [] (scaled_row [])) by (now rewrite length_map).
    rewrite (map_nth scaled_row), (scaled_row_nth _ Hj).
    rewrite (nth_indep (map row_factor X) 0 (row_factor []))
      by (now rewrite length_map).
    rewrite (map_nth row_factor).
    rewrite (nth_indep (map col_factor (seq 0 n)) 0 (col_factor 0%nat))
      by (now rewrite length_map, length_seq).
    rewrite (map_nth col_factor), seq_nth by exact Hj. reflexivity. }
  apply Forall_forall. intros r Hr. apply in_map_iff in Hr as (row & <- & Hrow).
  apply Forall_forall. intros y Hy. apply in_map_iff in Hy as (j & <- & Hj).
  apply in_seq in Hj.
  pose proof rows_n as Hn. rewrite Forall_forall in Hn. specialize (Hn _ Hrow).
  pose proof positive as Hp. rewrite Forall_forall in Hp. specialize (Hp _ Hrow).
  assert (Hin : In (nth j row 0) row) by (apply nth_In; lia).
  apply scaled_entry_unit.
  - rewrite Forall_forall in Hp. now apply Hp.
  - now apply entry_le_sum.
  - apply entry_le_sum; [apply column_positive; lia|].
    unfold column. apply in_map_iff. now exists row.
Qed.

(** X13.  In exact arithmetic, on a matrix of positive entries the
    scaled matrix [an] maps the square roots of the column sums of [X] to
    the square roots of its row sums, and its transpose maps these back:
    the two vectors are a pair of singular vectors of [an], with the
    singular value 1. *)
Theorem scale_preprocess_leading_pair :
  exists an row_diag col_diag,
    scale_preprocess X = Ok (an, row_diag, col_diag)
    /\ map (fun row => dot row (map sqrt (sum_axis0 X))) an
       = map sqrt (sum_axis1 X)
    /\ map (fun col => dot col (map sqrt (sum_axis1 X))) (transpose an)
       = map sqrt (sum_axis0 X).
Proof.
  do 3 eexists. split; [exact scale_form|].
  destruct root_sums as [E0 E1]. rewrite E0, E1.
  pose proof rows_n as Hn. rewrite Forall_forall in Hn.
  split.
  - rewrite map_map. apply map_ext_in. intros row Hrow.
    unfold dot. rewrite zip_with_maps.
    rewrite (rsum_ext _ (fun j => nth j row 0 * row_factor row)).
    + rewrite (rsum_map_scale (fun j => nth j row 0)).
      rewrite <- (Hn _ Hrow), map_nth_seq.
      apply over_root. now apply row_sum_pos.
    + intros j Hj. apply in_seq in Hj. simpl.
      rewrite Rmult_assoc, (root_over (col_sum_pos (proj2 Hj))). ring.
  - unfold transpose.
    assert (Es : shape1 (map scaled_row X) = n).
    { destruct dimensions as [Hm _]. unfold shape1.
      destruct X as [|row K]; [simpl in Hm; lia|].
      simpl. now rewrite length_map, length_seq. }
    rewrite Es, map_map. apply map_ext_in. intros j Hj. apply in_seq in Hj.
    unfold dot, column. rewrite map_map, zip_with_maps.
    rewrite (rsum_ext _ (fun row => nth j row 0 * col_factor j)).
    + rewrite (rsum_map_scale (fun row => nth j row 0)).
      apply (over_root (col_sum_pos (proj2 Hj))).
    + intros row Hrow. simpl.
      rewrite (scaled_row_nth _ (proj2 Hj)).
      pose proof (root_over (row_sum_pos _ Hrow)) as Hr.
      transitivity (1 / sqrt (rsum row) * sqrt (rsum row)
                    * (nth j row 0 * col_factor j)); [ring|].
      rewrite Hr. ring.
Qed.

End Scaling.

Lemma scale_preprocess_entries_witness :
  exists an row_diag col_diag,
    scale_preprocess (lib := real_library) [[1; 2]; [3; 4]]%R
    = Ok (an, row_diag, col_diag)
    /\ Forall (Forall (fun y => (0 < y <= 1)%R)) an.
Proof.
  destruct (@scale_preprocess_entries unit real_library (fun x => eq_refl)
              [[1; 2]; [3; 4]]%R 2%nat)
    as (an & rd & cd & E & _ & _ & _ & _ & _ & Hu).
  - repeat constructor.
  - discriminate.
  - repeat constructor; lra.
  - exists an, rd, cd. auto.
Defined.

Lemma scale_preprocess_leading_pair_witness :
  exists an row_diag col_diag,
    scale_preprocess (lib := real_library) [[1; 2]; [3; 4]]%R
    = Ok (an, row_diag, col_diag)
    /\ map (fun row => dot row (map sqrt (sum_axis0 [[1; 2]; [3; 4]]%R))) an
       = map sqrt (sum_axis1 [[1; 2]; [3; 4]]%R).
Proof.
  destruct (@scale_preprocess_leading_pair unit real_library (fun x => eq_refl)
              [[1; 2]; [3; 4]]%R 2%nat)
    as (an & rd & cd & E & H1 & _).
  - repeat constructor.
  - discriminate.
  - repeat constructor; lra.
  - exists an, rd, cd. auto.
Defined.

(** ** Matrices that are balanced already *)

Section Balanced.

Local Open Scope R_scope.

Context {W : Type} {lib : Library R W}.
Hypothesis root : forall x : R, np_sqrt x = sqrt x.

Local Abbreviation rsum := (@vsum R R_numeric).
Local Abbreviation rcolumn := (@column R R_numeric).

Lemma zip_with_diag {A B} (f : A -> A -> B) (l : list A) :
  zip_with f l l = map (fun x => f x x) l.
Proof.
  induction l as [|x l IH]; simpl; [reflexivity | now rewrite IH].
Qed.

Lemma squares_of_zeros (l : list R) :
  Forall (fun x => x = 0) l -> rsum (map (fun x => x * x) l) = 0.
Proof.
  induction 1 as [|x l Hx H IH]; simpl; [apply rsum_nil|].
  rewrite rsum_cons, IH, Hx. ring.
Qed.

Lemma self_distance (A : matrix R) : norm_fro (msub A A) = 0.
Proof.
  unfold norm_fro, norm, msub. simpl. rewrite root.
  rewrite squares_of_zeros; [apply sqrt_0|].
  rewrite zip_with_diag.
  induction A as [|row A IH]; simpl; [constructor|].
  apply Forall_app. split; [|exact IH].
  rewrite zip_with_diag. apply Forall_forall. intros x Hx.
  apply in_map_iff in Hx as (y & <- & _). simpl. ring.
Qed.

(** A matrix that [scale_preprocess] leaves as it is ends the loop at
    once. *)
Lemma fixed_point_loop (A : matrix R) (rd cd : vector R) (tol : R) (k : nat) :
  scale_preprocess A = Ok (A, rd, cd) -> 0 < tol ->
  bistochastic_loop k tol A = Ok A.
Proof.
  intros HA Htol. destruct k as [|k]; simpl; [reflexivity|].
  rewrite HA. simpl. rewrite self_distance.
  destruct (Rlt_dec 0 tol); [reflexivity | contradiction].
Qed.

Variables (X : matrix R) (n : nat) (r c : R).
Hypothesis rows_n : Forall (fun row => length row = n) X.
Hypothesis some_entry : concat X <> [].
Hypothesis positive : Forall (Forall (fun x => 0 < x)) X.
Hypothesis row_sums : Forall (fun row => rsum row = r) X.
Hypothesis col_sums : forall j, (j < n)%nat -> rsum (rcolumn j X) = c.

Lemma r_pos : 0 < r.
Proof.
  destruct (dimensions rows_n some_entry) as [Hm _].
  assert (Hin : In (nth 0 X []) X) by (apply nth_In; lia).
  pose proof row_sums as Hr. rewrite Forall_forall in Hr.
  rewrite <- (Hr _ Hin).
  now apply (row_sum_pos rows_n some_entry positive).
Qed.

Lemma c_pos : 0 < c.
Proof.
  destruct (dimensions rows_n some_entry) as [_ Hn].
  rewrite <- (col_sums Hn). apply (col_sum_pos rows_n some_entry positive). lia.
Qed.

Lemma balanced_step :
  exists rd cd,
    scale_preprocess X
    = Ok (map (map (fun x => x / sqrt (r * c))) X, rd, cd).
Proof.
  exists (map (fun row => 1 / sqrt (rsum row)) X),
         (map (fun j => 1 / sqrt (rsum (rcolumn j X))) (seq 0 n)).
  rewrite (scale_form root rows_n some_entry positive).
  cbv beta.
  match goal with
  | |- Ok (?a, _, _) = Ok (?b, _, _) => assert (E : a = b); [|now rewrite E]
  end.
  apply map_ext_in. intros row Hrow.
  pose proof rows_n as Hn. rewrite Forall_forall in Hn.
  pose proof row_sums as Hr. rewrite Forall_forall in Hr.
  transitivity (map (fun x => x / sqrt (r * c))
                    (map (fun j => nth j row 0) (seq 0 n))).
  2:{ rewrite <- (Hn _ Hrow). now rewrite map_nth_seq. }
  rewrite map_map.
  apply map_ext_in. intros j Hj. apply in_seq in Hj.
  rewrite (Hr _ Hrow), (col_sums (proj2 Hj)).
  pose proof r_pos. pose proof c_pos.
  rewrite sqrt_mult by lra.
  assert (0 < sqrt r) by (apply sqrt_lt_R0; lra).
  assert (0 < sqrt c) by (apply sqrt_lt_R0; lra).
  field. lra.
Qed.

Lemma balanced_scaled (s : R) :
  0 < s ->
  Forall (fun row => length row = n) (map (map (fun x => x / s)) X)
  /\ concat (map (map (fun x => x / s)) X) <> []
  /\ Forall (Forall (fun x => 0 < x)) (map (map (fun x => x / s)) X)
  /\ Forall (fun row => rsum row = r / s) (map (map (fun x => x / s)) X)
  /\ forall j, (j < n)%nat ->
       rsum (rcolumn j (map (map (fun x => x / s)) X)) = c / s.
Proof.
  intros Hs.
  pose proof rows_n as Hn. rewrite Forall_forall in Hn.
  pose proof positive as Hp. rewrite Forall_forall in Hp.
  pose proof row_sums as Hr. rewrite Forall_forall in Hr.
  assert (Hrect : Forall (fun row => length row = n)
                         (map (map (fun x => x / s)) X)).
  { apply Forall_forall. intros row' Hrow.
    apply in_map_iff in Hrow as (row & <- & Hrow).
    rewrite length_map. now apply Hn. }
  split; [exact Hrect|]. split; [|split; [|split]].
  - apply (rectangular_entries Hrect). rewrite length_map.
    apply (dimensions rows_n some_entry).
  - apply Forall_forall. intros row' Hrow.
    apply in_map_iff in Hrow as (row & <- & Hrow).
    apply Forall_forall. intros y Hy. apply in_map_iff in Hy as (x & <- & Hx).
    specialize (Hp _ Hrow). rewrite Forall_forall in Hp.
    apply Rdiv_lt_0_compat; [now apply Hp | exact Hs].
  - apply Forall_forall. intros row' Hrow.
    apply in_map_iff in Hrow as (row & <- & Hrow).
    unfold Rdiv. rewrite (rsum_map_scale (fun x => x)), map_id.
    now rewrite (Hr _ Hrow).
  - intros j Hj. unfold column. rewrite map_map.
    rewrite (rsum_ext _ (fun row => nth j row 0 * / s)).
    + rewrite (rsum_map_scale (fun row => nth j row 0)).
      change (map (fun row : list R => nth j row 0) X) with (rcolumn j X).
      now rewrite (col_sums Hj).
    + intros row Hrow.
      rewrite (nth_indep _ 0 ((fun x => x / s) 0))
        by (rewrite length_map, (Hn _ Hrow); exact Hj).
      now rewrite (map_nth (fun x => x / s)).
Qed.

End Balanced.

Section Fixed.

Local Open Scope R_scope.

Context {W : Type} {lib : Library R W}.
Hypothesis root : forall x : R, np_sqrt x = sqrt x.

(** X14.  In exact arithmetic: on a matrix of positive entries in which
    every row has the sum [r] and every column the sum [c],
    [bistochastic_preprocess] with at least one iteration and a positive
    tolerance returns the matrix divided by [sqrt(r * c)].  Its rows sum
    to [r / sqrt(r * c)] and its columns to [c / sqrt(r * c)]: all rows to
    one constant and all columns to another. *)
Theorem bistochastic_preprocess_balanced (X : matrix R) (n : nat) (r c : R)
  (maxiter : nat) (tol : R) :
  Forall (fun row => length row = n) X ->
  concat X <> [] ->
  Forall (Forall (fun x => 0 < x)) X ->
  Forall (fun row => vsum row = r) X ->
  (forall j, (j < n)%nat -> vsum (column j X) = c) ->
  (1 <= maxiter)%nat ->
  0 < tol ->
  bistochastic_preprocess X maxiter tol
  = Ok (map (map (fun x => x / sqrt (r * c))) X)
  /\ Forall (fun row => vsum row = r / sqrt (r * c))
            (map (map (fun x => x / sqrt (r * c))) X)
  /\ forall j, (j < n)%nat ->
       vsum (column j (map (map (fun x => x / sqrt (r * c))) X))
       = c / sqrt (r * c).
Proof.
  intros Hn Hne Hp Hr Hc Hk Htol.
  pose proof (r_pos Hn Hne Hp Hr) as Hrp.
  pose proof (c_pos Hn Hne Hp Hc) as Hcp.
  assert (Hs : 0 < sqrt (r * c)) by (apply sqrt_lt_R0; nra).
  destruct (balanced_scaled Hn Hne Hp Hr Hc Hs) as (Yn & Yne & Yp & Yr & Yc).
  split; [|split; [exact Yr | exact Yc]].
  unfold bistochastic_preprocess.
  change (make_nonnegative X zero) with (make_nonnegative X 0).
  rewrite (positive_kept Hne Hp (Rle_refl 0)). simpl.
  destruct maxiter as [|k]; [lia|]. simpl.
  destruct (balanced_step root Hn Hne Hp Hr Hc) as (rd & cd & ->). simpl.
  destruct (Rlt_dec _ tol); [reflexivity|].
  destruct (balanced_step root Yn Yne Yp Yr Yc) as (rd' & cd' & E).
  assert (E1 : r / sqrt (r * c) * (c / sqrt (r * c)) = 1).
  { pose proof (sqrt_sqrt (r * c)) as Hss.
    assert (H0 : 0 <= r * c) by nra. specialize (Hss H0).
    field_simplify; [|lra]. rewrite <- (Rmult_1_r (sqrt (r * c) ^ 2)).
    replace (sqrt (r * c) ^ 2) with (r * c) by (rewrite <- Hss at 1; ring).
    field. nra. }
  rewrite E1, sqrt_1 in E.
  replace (map (map (fun x => x / 1)) (map (map (fun x => x / sqrt (r * c))) X))
    with (map (map (fun x => x / sqrt (r * c))) X) in E.
  - apply (fixed_point_loop root _ E Htol).
  - symmetry. rewrite <- (map_id (map (map (fun x => x / sqrt (r * c))) X)) at 2.
    apply map_ext. intros row. rewrite <- (map_id row) at 2.
    apply map_ext. intros x. field.
Qed.

End Fixed.

Lemma bistochastic_preprocess_balanced_witness :
  bistochastic_preprocess (lib := real_library) [[1; 1]; [1; 1]]%R 1000
    (1 / 100000)%R
  = Ok (map (map (fun x => (x / sqrt (2 * 2))%R)) [[1; 1]; [1; 1]]%R).
Proof.
  apply (@bistochastic_preprocess_balanced unit real_library (fun x => eq_refl)
           [[1; 1]; [1; 1]]%R 2%nat 2%R 2%R 1000%nat (1 / 100000)%R).
  - repeat constructor.
  - discriminate.
  - repeat constructor; lra.
  - repeat constructor; unfold vsum; simpl; lra.
  - intros j Hj. destruct j as [|[|j]]; [| |lia]; unfold vsum; simpl; lra.
  - lia.
  - lra.
Defined.

(** ** Log interactions and scaling *)

Section Interactions.

Local Open Scope R_scope.

Context {W : Type} {lib : Library R W}.
Hypothesis logarithm : forall x : R, np_log x = ln x.

Local Abbreviation rsum := (@vsum R R_numeric).

Variables (m n : nat).
Hypothesis m_pos : (1 <= m)%nat.
Hypothesis n_pos : (1 <= n)%nat.

(** The [m] x [n] matrix of the entries [f i j]. *)
Local Abbreviation tab :=
  (fun f : nat -> nat -> R =>
     map (fun i => map (fun j => f i j) (seq 0 n)) (seq 0 m)).

Local Abbreviation row_total :=
  (fun (g : nat -> nat -> R) (i : nat) => rsum (map (fun j => g i j) (seq 0 n))).
Local Abbreviation col_total :=
  (fun (g : nat -> nat -> R) (j : nat) => rsum (map (fun i => g i j) (seq 0 m))).
Local Abbreviation all_total :=
  (fun g : nat -> nat -> R => rsum (map (row_total g) (seq 0 m))).
Local Abbreviation interaction :=
  (fun (g : nat -> nat -> R) (i j : nat) =>
     g i j - row_total g i / INR n - col_total g j / INR m
     + all_total g / (INR m * INR n)).

Lemma tab_shape (f : nat -> nat -> R) :
  length (tab f) = m /\ Forall (fun row => length row = n) (tab f).
Proof.
  split; [now rewrite length_map, length_seq|].
  apply Forall_forall. intros row Hrow.
  apply in_map_iff in Hrow as (i & <- & _). now rewrite length_map, length_seq.
Qed.

Lemma tab_nth (f : nat -> R) (k j : nat) :
  (j < k)%nat -> nth j (map f (seq 0 k)) 0 = f j.
Proof.
  intros Hj. rewrite (nth_indep _ 0 (f 0%nat)) by (now rewrite length_map, length_seq).
  now rewrite (map_nth f), seq_nth.
Qed.

Lemma matrix_as_table (X : matrix R) :
  length X = m -> Forall (fun row => length row = n) X ->
  tab (fun i j => nth j (nth i X []) 0) = X.
Proof.
  intros Hm Hn. transitivity (map (fun i => nth i X []) (seq 0 m)).
  - apply map_ext_in. intros i Hi. apply in_seq in Hi.
    rewrite Forall_forall in Hn.
    rewrite <- (Hn (nth i X [])) by (apply nth_In; lia).
    apply map_nth_seq.
  - rewrite <- Hm. apply map_nth_all.
Qed.

Lemma tab_kept (f : nat -> nat -> R) :
  (forall i j, (i < m)%nat -> (j < n)%nat -> 1 <= f i j) ->
  make_nonnegative (tab f) 1 = Ok (tab f).
Proof.
  intros Hf. unfold make_nonnegative.
  destruct (tab_shape f) as [Hm Hn].
  assert (Hne : concat (tab f) <> []).
  { apply (rectangular_entries Hn). split; [|exact n_pos].
    rewrite length_map, length_seq. exact m_pos. }
  destruct (concat (tab f)) as [|x t] eqn:E; [contradiction|].
  rewrite (np_min_real _ E). simpl.
  destruct (fold_min_spec t x) as [Hin _]. rewrite <- E in Hin.
  apply in_concat in Hin as (row & Hrow & Hin).
  apply in_map_iff in Hrow as (i & <- & Hi). apply in_seq in Hi.
  apply in_map_iff in Hin as (j & Hj & Hin). apply in_seq in Hin.
  assert (H1 : 1 <= f i j) by (apply Hf; lia).
  destruct (Rlt_dec _ 1); [lra | reflexivity].
Qed.

Lemma tab_log (f : nat -> nat -> R) :
  (forall i j, (i < m)%nat -> (j < n)%nat -> 1 <= f i j) ->
  log_preprocess (tab f) = Ok (tab (interaction (fun i j => ln (f i j)))).
Proof.
  intros Hf. unfold log_preprocess.
  assert (Hk : make_nonnegative (tab f) one = Ok (tab f))
    by apply (tab_kept f Hf).
  cbv beta in Hk. rewrite Hk. cbn [rbind].
  assert (EL : map (map np_log) (tab f) = tab (fun i j => ln (f i j))).
  { rewrite map_map. apply map_ext. intros i. rewrite map_map.
    apply map_ext. intros j. apply logarithm. }
  cbv beta in EL. rewrite EL.
  destruct (tab_shape (fun i j => ln (f i j))) as [Hm Hn].
  cbv beta in Hm, Hn.
  rewrite (centered_form Hm Hn m_pos n_pos). f_equal.
  rewrite map_map. apply map_ext_in. intros i Hi. apply in_seq in Hi.
  apply map_ext_in. intros j Hj. apply in_seq in Hj.
  rewrite (tab_nth (fun j => ln (f i j))) by lia.
  unfold column. rewrite !map_map.
  rewrite (rsum_ext (fun i0 => nth j (map (fun j0 => ln (f i0 j0)) (seq 0 n)) 0)
                    (fun i0 => ln (f i0 j)))
    by (intros i0 _; apply (tab_nth (fun j0 => ln (f i0 j0))); lia).
  reflexivity.
Qed.

Lemma interaction_ext (g g' : nat -> nat -> R) (i j : nat) :
  (forall i j, (i < m)%nat -> (j < n)%nat -> g i j = g' i j) ->
  (i < m)%nat -> (j < n)%nat -> interaction g i j = interaction g' i j.
Proof.
  intros H Hi Hj. cbv beta.
  rewrite (H i j Hi Hj).
  rewrite (rsum_ext (fun j => g i j) (fun j => g' i j))
    by (intros j0 Hj0; apply in_seq in Hj0; apply H; lia).
  rewrite (rsum_ext (fun i => g i j) (fun i => g' i j))
    by (intros i0 Hi0; apply in_seq in Hi0; apply H; lia).
  rewrite (rsum_ext (fun i => rsum (map (fun j => g i j) (seq 0 n)))
                    (fun i => rsum (map (fun j => g' i j) (seq 0 n)))).
  - reflexivity.
  - intros i0 Hi0. apply in_seq in Hi0. apply rsum_ext.
    intros j0 Hj0. apply in_seq in Hj0. apply H; lia.
Qed.

Lemma interaction_shift (alpha beta : nat -> R) (g : nat -> nat -> R) (i j : nat) :
  interaction (fun i j => alpha i + beta j + g i j) i j = interaction g i j.
Proof.
  cbv beta.
  assert (Er : forall i,
             rsum (map (fun j => alpha i + beta j + g i j) (seq 0 n))
             = INR n * alpha i + rsum (map beta (seq 0 n))
               + rsum (map (fun j => g i j) (seq 0 n))).
  { intros i0.
    rewrite (rsum_map_plus (fun j => alpha i0 + beta j) (fun j => g i0 j)).
    rewrite (rsum_map_plus (fun _ => alpha i0) beta).
    now rewrite rsum_map_const, length_seq. }
  assert (Ec : rsum (map (fun i => alpha i + beta j + g i j) (seq 0 m))
               = rsum (map alpha (seq 0 m)) + INR m * beta j
                 + rsum (map (fun i => g i j) (seq 0 m))).
  { rewrite (rsum_map_plus (fun i => alpha i + beta j) (fun i => g i j)).
    rewrite (rsum_map_plus alpha (fun _ => beta j)).
    now rewrite rsum_map_const, length_seq. }
  rewrite Er, Ec.
  rewrite (rsum_ext
             (fun i => rsum (map (fun j => alpha i + beta j + g i j) (seq 0 n)))
             (fun i => alpha i * INR n + rsum (map beta (seq 0 n))
                       + rsum (map (fun j => g i j) (seq 0 n))))
    by (intros i0 _; rewrite Er; ring).
  rewrite (rsum_map_plus
             (fun i => alpha i * INR n + rsum (map beta (seq 0 n)))
             (fun i => rsum (map (fun j => g i j) (seq 0 n)))).
  rewrite (rsum_map_plus (fun i => alpha i * INR n)
                         (fun _ => rsum (map beta (seq 0 n)))).
  rewrite (rsum_map_scale alpha), rsum_map_const, length_seq.
  assert (INR m <> 0) by (apply not_0_INR; lia).
  assert (INR n <> 0) by (apply not_0_INR; lia).
  field. auto.
Qed.

(** X15.  In exact arithmetic, the log interactions do not see a scaling
    of the rows and of the columns: for an [m] x [n] matrix [X] and
    positive factors [a i], [b j], as long as neither [X] nor the scaled
    matrix has an entry below 1 (so that [make_nonnegative] leaves both as
    they are), [log_preprocess] returns the same matrix for the entries
    [a i * b j * X[i, j]] as for [X]. *)
Theorem log_preprocess_ignores_scaling (X : matrix R) (a b : nat -> R) :
  length X = m ->
  Forall (fun row => length row = n) X ->
  Forall (Forall (fun x => 1 <= x)) X ->
  (forall i, (i < m)%nat -> 0 < a i) ->
  (forall j, (j < n)%nat -> 0 < b j) ->
  (forall i j, (i < m)%nat -> (j < n)%nat ->
     1 <= a i * b j * nth j (nth i X []) 0) ->
  exists Y,
    log_preprocess X = Ok Y
    /\ log_preprocess
         (map (fun i => map (fun j => a i * b j * nth j (nth i X []) 0) (seq 0 n))
              (seq 0 m))
       = Ok Y.
Proof.
  intros Hm Hn Hx Ha Hb Hs.
  assert (Hentry : forall i j, (i < m)%nat -> (j < n)%nat ->
                     1 <= nth j (nth i X []) 0).
  { intros i j Hi Hj.
    assert (Hrow : In (nth i X []) X) by (apply nth_In; lia).
    rewrite Forall_forall in Hx, Hn. specialize (Hx _ Hrow).
    rewrite Forall_forall in Hx. apply Hx, nth_In. rewrite (Hn _ Hrow). exact Hj. }
  exists (tab (interaction (fun i j => ln (nth j (nth i X []) 0)))).
  split.
  - pose proof (tab_log _ Hentry) as E. cbv beta in E.
    pose proof (matrix_as_table Hm Hn) as Et. cbv beta in Et.
    rewrite Et in E. exact E.
  - rewrite (tab_log _ Hs). apply f_equal.
    apply map_ext_in. intros i Hi. apply in_seq in Hi.
    apply map_ext_in. intros j Hj. apply in_seq in Hj.
    rewrite <- (interaction_shift (fun i => ln (a i)) (fun j => ln (b j))
                  (fun i j => ln (nth j (nth i X []) 0)) i j).
    apply interaction_ext
      with (g := fun i j => ln (a i * b j * nth j (nth i X []) 0))
           (g' := fun i j => ln (a i) + ln (b j) + ln (nth j (nth i X []) 0));
      [|lia|lia].
    intros i0 j0 Hi0 Hj0.
    pose proof (Ha i0 Hi0). pose proof (Hb j0 Hj0).
    pose proof (Hentry i0 j0 Hi0 Hj0).
    rewrite ln_mult by nra. rewrite ln_mult by lra. reflexivity.
Qed.

End Interactions.

Lemma log_preprocess_ignores_scaling_witness :
  exists Y,
    log_preprocess (lib := real_library) [[1; 2]; [3; 4]]%R = Ok Y
    /\ log_preprocess (lib := real_library)
         (map (fun i => map (fun j => (2 * 3 * nth j (nth i [[1; 2]; [3; 4]] []) 0)%R)
                            (seq 0 2))
              (seq 0 2))
       = Ok Y.
Proof.
  apply (@log_preprocess_ignores_scaling unit real_library (fun x => eq_refl)
           2%nat 2%nat (le_S _ _ (le_n 1)) (le_S _ _ (le_n 1))
           [[1; 2]; [3; 4]]%R (fun _ => 2%R) (fun _ => 3%R)).
  - reflexivity.
  - repeat constructor.
  - repeat constructor; lra.
  - intros; lra.
  - intros; lra.
  - intros i j Hi Hj.
    destruct i as [|[|i]]; destruct j as [|[|j]]; try lia; simpl; lra.
Defined.

(** ** Cluster counts that are not positive *)

Section Counts.

Context {F W : Type} {num : Numeric F} {lib : Library F W}.

Local Open Scope Z_scope.

(** X19.  [__init__] does not look at the sign of [n_clusters]; [fit]
    fails on it.  With the method dhillon and a matrix that has entries,
    [n_clusters = 0] raises [OverflowError] and a negative [n_clusters]
    raises [ValueError], both from the conversion of [log2(n_clusters)] to
    an integer and before [svds] or [k_means] is called.  With a
    checkerboard method and cluster counts [(p, q)] of which one is not
    positive, [fit] never returns. *)
Theorem fit_needs_positive_counts (self : estimator) (X : matrix F) (n : nat)
  (w : W) :
  Forall (fun row => length row = n) X ->
  concat X <> [] ->
  (forall k, method self = "dhillon"%string -> n_clusters self = NInt k ->
     (k = 0 -> fit self (Array2 X) w = (Raise OverflowError, w))
     /\ (k < 0 -> fit self (Array2 X) w = (Raise ValueError, w)))
  /\ (forall p q, In (method self) checkerboard_methods ->
        cluster_counts (n_clusters self) = Ok (p, q) ->
        p <= 0 \/ q <= 0 ->
        forall self' w', fit self (Array2 X) w <> (Ok self', w')).
Proof.
  intros Hrows Hne. split.
  - intros k Hm Hk.
    destruct (scale_preprocess_returns Hrows Hne) as (an & rd & cd & E & _).
    unfold fit. simpl. rewrite Hm. simpl.
    unfold _dhillon, bind, lift. rewrite E, Hk. simpl.
    split; intros Hz; unfold n_singular_vals.
    + subst k. reflexivity.
    + destruct (Z.eqb_spec k 0); [lia|].
      destruct (Z.ltb_spec k 0); [reflexivity | lia].
  - intros p q Hm Hpq Hbad self' w' Hfit.
    unfold fit in Hfit. simpl in Hfit.
    rewrite (checkerboard_not_dhillon Hm) in Hfit.
    apply kluger_result in Hfit
      as (p' & q' & rv & cv & Hc & _ & _ & _ & _ & Hnil & _).
    rewrite Hpq in Hc. injection Hc as <- <-.
    apply Hnil. apply length_zero_iff_nil.
    unfold range. rewrite grid_length. nia.
Qed.

End Counts.

Lemma fit_needs_positive_counts_witness :
  fit (lib := demo_library)
      (Estimator (NInt 0) "dhillon" 6 3 None 10 None None None None None)
      (Array2 demo_matrix) 0%nat
  = (Raise OverflowError, 0%nat)
  /\ forall self' w',
       fit (lib := demo_library)
           (Estimator (NTuple [2; 0]%Z) "log" 6 3 None 10 None None None None None)
           (Array2 demo_matrix) 0%nat
       <> (Ok self', w').
Proof.
  destruct (@fit_needs_positive_counts Q nat Q_numeric demo_library
              (Estimator (NInt 0) "dhillon" 6 3 None 10 None None None None None)
              demo_matrix 3%nat 0%nat) as [Hd _].
  { repeat constructor. }
  { discriminate. }
  destruct (@fit_needs_positive_counts Q nat Q_numeric demo_library
              (Estimator (NTuple [2; 0]%Z) "log" 6 3 None 10 None None None None None)
              demo_matrix 3%nat 0%nat) as [_ Hk].
  { repeat constructor. }
  { discriminate. }
  split.
  - apply (Hd 0%Z); reflexivity.
  - apply (Hk 2%Z 0%Z); [simpl; tauto | reflexivity | lia].
Defined.

(** ** The iteration stays in the unit interval *)

Section UnitInterval.

Local Open Scope R_scope.

Context {W : Type} {lib : Library R W}.
Hypothesis root : forall x : R, np_sqrt x = sqrt x.

Lemma scale_step_unit (X : matrix R) (n : nat) :
  Forall (fun row => length row = n) X ->
  concat X <> [] ->
  Forall (Forall (fun x => 0 < x)) X ->
  exists an rd cd,
    scale_preprocess X = Ok (an, rd, cd)
    /\ Forall (fun row => length row = n) an
    /\ length an = length X
    /\ concat an <> []
    /\ Forall (Forall (fun y => 0 < y <= 1)) an.
Proof.
  intros Hn Hne Hp. do 3 eexists.
  split; [exact (scale_form root Hn Hne Hp)|]. cbv beta.
  assert (Hrect : Forall (fun row => length row = n)
            (map (fun row : list R =>
                    map (fun j => 1 / sqrt (vsum row) * nth j row 0
                                  * (1 / sqrt (vsum (column j X))))
                        (seq 0 n)) X)).
  { apply Forall_forall. intros r Hr. apply in_map_iff in Hr as (row & <- & _).
    now rewrite length_map, length_seq. }
  split; [exact Hrect|]. split; [apply length_map|]. split.
  { apply (rectangular_entries Hrect). rewrite length_map.
    apply (dimensions Hn Hne). }
  apply Forall_forall. intros r Hr. apply in_map_iff in Hr as (row & <- & Hrow).
  apply Forall_forall. intros y Hy. apply in_map_iff in Hy as (j & <- & Hj).
  apply in_seq in Hj.
  pose proof Hn as Hn'. rewrite Forall_forall in Hn'. specialize (Hn' _ Hrow).
  pose proof Hp as Hp'. rewrite Forall_forall in Hp'. specialize (Hp' _ Hrow).
  assert (Hin : In (nth j row 0) row) by (apply nth_In; lia).
  apply scaled_entry_unit.
  - rewrite Forall_forall in Hp'. now apply Hp'.
  - now apply entry_le_sum.
  - apply entry_le_sum; [apply (column_positive Hn Hp); lia|].
    unfold column. apply in_map_iff. now exists row.
Qed.

Lemma unit_positive (A : matrix R) :
  Forall (Forall (fun y => 0 < y <= 1)) A -> Forall (Forall (fun x => 0 < x)) A.
Proof.
  apply Forall_impl. intros row. apply Forall_impl. intros; lra.
Qed.

Lemma bistochastic_loop_unit (k : nat) (tol : R) (X : matrix R) (n : nat) :
  Forall (fun row => length row = n) X ->
  concat X <> [] ->
  Forall (Forall (fun x => 0 < x)) X ->
  exists Y,
    bistochastic_loop (S k) tol X = Ok Y
    /\ Forall (fun row => length row = n) Y
    /\ length Y = length X
    /\ Forall (Forall (fun y => 0 < y <= 1)) Y.
Proof.
  revert X; induction k as [|k IH]; intros X Hn Hne Hp;
    destruct (scale_step_unit Hn Hne Hp) as (an & rd & cd & E & Han & Hl & Hane & Hu).
  - exists an. simpl. rewrite E. simpl.
    split; [now destruct (Rlt_dec _ tol)|]. auto.
  - change (bistochastic_loop (S (S k)) tol X)
      with ('(X_new, _, _) <- scale_preprocess X ;;
            if ltb (norm_fro (msub X X_new)) tol then Ok X_new
            else bistochastic_loop (S k) tol X_new)%result.
    rewrite E. cbn [rbind].
    destruct (ltb _ tol).
    + exists an. auto.
    + destruct (IH an Han Hane (unit_positive Hu)) as (Y & EY & HY & LY & UY).
      exists Y. split; [exact EY|]. split; [exact HY|].
      split; [congruence | exact UY].
Qed.

(** X20.  In exact arithmetic, on a matrix of positive entries and with at
    least one iteration, [bistochastic_preprocess] returns a matrix of the
    shape of [X] all of whose entries lie in the interval (0, 1], whatever
    the tolerance and the number of iterations. *)
Theorem bistochastic_preprocess_unit_interval (X : matrix R) (n maxiter : nat)
  (tol : R) :
  Forall (fun row => length row = n) X ->
  concat X <> [] ->
  Forall (Forall (fun x => 0 < x)) X ->
  (1 <= maxiter)%nat ->
  exists Y,
    bistochastic_preprocess X maxiter tol = Ok Y
    /\ length Y = length X
    /\ Forall (fun row => length row = n) Y
    /\ Forall (Forall (fun y => 0 < y <= 1)) Y.
Proof.
  intros Hn Hne Hp Hk. unfold bistochastic_preprocess.
  change (make_nonnegative X zero) with (make_nonnegative X 0).
  rewrite (positive_kept Hne Hp (Rle_refl 0)). cbn [rbind].
  destruct maxiter as [|k]; [lia|].
  destruct (bistochastic_loop_unit k tol Hn Hne Hp) as (Y & E & HY & LY & UY).
  exists Y. auto.
Qed.

End UnitInterval.

Lemma bistochastic_preprocess_unit_interval_witness :
  exists Y,
    bistochastic_preprocess (lib := real_library) [[1; 2]; [3; 4]]%R 1000
      (1 / 100000)%R = Ok Y
    /\ Forall (Forall (fun y => (0 < y <= 1)%R)) Y.
Proof.
  destruct (@bistochastic_preprocess_unit_interval unit real_library
              (fun x => eq_refl) [[1; 2]; [3; 4]]%R 2%nat 1000%nat
              (1 / 100000)%R)
    as (Y & E & _ & _ & Hu).
  - repeat constructor.
  - discriminate.
  - repeat constructor; lra.
  - lia.
  - exists Y. auto.
Defined.

(** ** The blocks of the Dhillon method *)

Section Blocks.

Context {F W : Type} {num : Numeric F} {lib : Library F W}.
Hypothesis clusters : k_means_ok lib.
Hypothesis factors : svds_ok lib.

Local Open Scope nat_scope.

(** X21.  After a successful fit with the method dhillon, every row of
    [rows_] is as long as the data has rows and every row of [columns_] as
    long as it has columns, and the biclusters are disjoint blocks: no cell
    of the data matrix lies in two biclusters. *)
Theorem dhillon_blocks (self self' : estimator) (X : matrix F) (k : Z)
  (w w' : W) :
  method self = "dhillon"%string ->
  n_clusters self = NInt k ->
  fit self (Array2 X) w = (Ok self', w') ->
  exists rows cols,
    rows_ self' = Some rows
    /\ columns_ self' = Some cols
    /\ Forall (fun r => length r = shape0 X) rows
    /\ Forall (fun c => length c = shape1 X) cols
    /\ forall i j c c',
         i < shape0 X -> j < shape1 X ->
         c < length rows -> c' < length rows ->
         nth i (nth c rows []) false = true ->
         nth j (nth c cols []) false = true ->
         nth i (nth c' rows []) false = true ->
         nth j (nth c' cols []) false = true ->
         c = c'.
Proof.
  intros Hm Hk Hfit. unfold fit in Hfit. simpl in Hfit. rewrite Hm in Hfit.
  simpl in Hfit.
  apply (@dhillon_result F W num lib clusters factors self self' X k w w' Hk) in Hfit
    as (labels & Hlen & Hbelow & Hkpos & Hr & Hc & _).
  do 2 eexists. split; [exact Hr|]. split; [exact Hc|].
  unfold shape0.
  assert (Lf : length (firstn (length X) labels) = length X)
    by (rewrite length_firstn; lia).
  assert (Ls : length (skipn (length X) labels) = shape1 X)
    by (rewrite length_skipn; lia).
  split; [|split].
  - apply Forall_forall. intros r Hin. apply in_map_iff in Hin as (c & <- & _).
    unfold labels_eq. now rewrite length_map.
  - apply Forall_forall. intros r Hin. apply in_map_iff in Hin as (c & <- & _).
    unfold labels_eq. now rewrite length_map.
  - intros i j c c' Hi Hj Hc1 Hc2 E1 _ E2 _.
    unfold range in *. rewrite length_map, length_seq in Hc1, Hc2.
    rewrite (indicators_nth _ k Hc1), labels_eq_nth in E1 by lia.
    rewrite (indicators_nth _ k Hc2), labels_eq_nth in E2 by lia.
    apply Nat.eqb_eq in E1. apply Nat.eqb_eq in E2. congruence.
Qed.

End Blocks.

Lemma dhillon_blocks_witness :
  exists rows cols,
    rows_ demo_dhillon_fitted = Some rows
    /\ columns_ demo_dhillon_fitted = Some cols
    /\ Forall (fun r => length r = 2%nat) rows
    /\ Forall (fun c => length c = 3%nat) cols.
Proof.
  destruct (@dhillon_blocks Q nat Q_numeric demo_library
              demo_k_means_ok demo_svds_ok
              demo_dhillon demo_dhillon_fitted demo_matrix 2%Z 0%nat 1%nat
              eq_refl eq_refl demo_fit_dhillon)
    as (rows & cols & Hr & Hc & Lr & Lc & _).
  exists rows, cols. auto.
Defined.
